(** * Delaunay triangulation service: point-set codec, mesh validation and
      Bowyer-Watson triangulator

    Shallow embedding of [PointSet.py], [Triangles.py] and [Triangulator.py].

    - Python [int]s are [Z]; [bytes] are lists of [Byte.byte].
    - Python exceptions are values of [exn]; a call that may raise returns a
      [result].
    - Python [float]s are IEEE binary64; [+], [-], [*], [/], [abs] and the
      comparisons on them are the primitive binary64 operations of
      [PrimFloat] (round to nearest even, [nan] unordered and unequal to
      itself, [-0 == 0]).  The power [x ** 2] is CPython's [float_pow], which
      calls [pow] of the C library of the platform; that function is a
      parameter of the embedding, see [Libm].  A float that [struct] read
      from a buffer is kept as the binary32 word it widens, see [pyfloat].
    - List objects holding points live in an explicit [store] and are named
      by references, because the point list of a [PointSet] is shared by the
      [PointSet], the [Triangulator] and the resulting [Triangles] object.
      Lists that a function creates and keeps to itself ([triangulation],
      [bad_triangles], [polygon], the [seen] set of a validation run, a
      [bytearray] under construction) are threaded as values. *)

From Stdlib Require Import String.
From Stdlib Require Import ZArith List Lia Bool Permutation Sorted.
From Stdlib Require Import Strings.Byte.
From Stdlib Require Import Floats.PrimFloat Floats.FloatOps Floats.SpecFloat.
From Stdlib Require Import Floats.FloatAxioms Floats.FloatLemmas.
From Stdlib Require Numbers.Cyclic.Int63.Uint63.
Import ListNotations.

Local Open Scope Z_scope.

(* ================================================================== *)
(** * Exceptions and the error monad *)

(** The Python exceptions the code can raise, and [NoObject] for a
    reference that names no object of the store, which no Python run
    produces. *)
Inductive exn : Type :=
| ValueError (msg : string)
| StructError (msg : string)
| IndexError (msg : string)
| OverflowError (msg : string)
| NoObject.

Inductive result (A : Type) : Type :=
| Ok (a : A)
| Raise (e : exn).

Arguments Ok {A} a.
Arguments Raise {A} e.

Definition bind {A B : Type} (m : result A) (k : A -> result B) : result B :=
  match m with
  | Ok a => k a
  | Raise e => Raise e
  end.

Notation "x <- m ;; k" := (bind m (fun x => k))
  (at level 61, m at next level, right associativity).
Notation "' p <- m ;; k" := (bind m (fun x => let p := x in k))
  (at level 61, p pattern, m at next level, right associativity).

(* ================================================================== *)
(** * Bytes and the [struct] formats the code uses *)

Definition bytes := list byte.

Definition byte_val (b : byte) : Z := Z.of_N (Byte.to_N b).

Definition byte_of (z : Z) : byte :=
  match Byte.of_N (Z.to_N (z mod 256)) with
  | Some b => b
  | None => x00
  end.

(** Little-endian 32-bit words. *)
Definition le32_decode (b0 b1 b2 b3 : byte) : Z :=
  byte_val b0 + 256 * byte_val b1 + 65536 * byte_val b2
  + 16777216 * byte_val b3.

Definition le32_encode (w : Z) : bytes :=
  [byte_of w; byte_of (w / 256); byte_of (w / 65536); byte_of (w / 16777216)].

Definition two32 : Z := 4294967296.

(** [struct.unpack_from("<I", data, offset)]. *)
Definition unpack_from_I (data : bytes) (offset : nat) : result Z :=
  match skipn offset data with
  | b0 :: b1 :: b2 :: b3 :: _ => Ok (le32_decode b0 b1 b2 b3)
  | _ => Raise (StructError "unpack_from requires a buffer of at least 4 bytes")
  end.

(** [struct.pack("<I", n)]: an int that does not convert to a C
    [unsigned long] (of 64 bits) is refused with one message, one that
    converts and does not fit 32 bits with the other. *)
Definition pack_I (n : Z) : result bytes :=
  if (n <? 0) || (18446744073709551616 <=? n) then
    Raise (StructError "argument out of range")
  else if two32 <=? n then
    Raise (StructError "'I' format requires 0 <= number <= 4294967295")
  else Ok (le32_encode n).

(** [struct.pack("<III", i, j, k)]. *)
Definition pack_III (i j k : Z) : result bytes :=
  bi <- pack_I i ;; bj <- pack_I j ;; bk <- pack_I k ;; Ok (bi ++ bj ++ bk).

(** [struct.unpack_from("<III", data, offset)]. *)
Definition unpack_from_III (data : bytes) (offset : nat) : result (Z * Z * Z) :=
  match skipn offset data with
  | a0 :: a1 :: a2 :: a3 :: b0 :: b1 :: b2 :: b3 :: c0 :: c1 :: c2 :: c3 :: _ =>
      Ok (le32_decode a0 a1 a2 a3, le32_decode b0 b1 b2 b3,
          le32_decode c0 c1 c2 c3)
  | _ => Raise (StructError "unpack_from requires a buffer of at least 12 bytes")
  end.

(* ================================================================== *)
(** * Python floats *)

(** Value of the binary32 word [w] as a binary64 float (the widening is
    exact): sign bit 31, biased exponent bits 30..23, fraction bits 22..0. *)
Definition f32_to_float (w : Z) : float :=
  let e := (w / 8388608) mod 256 in
  let m := w mod 8388608 in
  let mag :=
    if e =? 255 then (if m =? 0 then infinity else nan)
    else if e =? 0 then Z.ldexp (of_uint63 (Uint63Axioms.of_Z m)) (-149)
    else Z.ldexp (of_uint63 (Uint63Axioms.of_Z (m + 8388608))) (e - 150) in
  if Z.testbit w 31 then (- mag)%float else mag.

(** Binary32 word of a binary64 float, rounding to nearest even; a finite
    float beyond the binary32 range raises, as [struct.pack] does. *)
Definition float_to_f32 (x : float) : result Z :=
  let sign (s : bool) : Z := if s then 2147483648 else 0 in
  let of_sf (sf : spec_float) : result Z :=
    match sf with
    | S754_zero s => Ok (sign s)
    | S754_infinity s => Ok (sign s + 2139095040)
    | S754_nan => Ok 2143289344
    | S754_finite s m e =>
        if Z.pos m <? 8388608 then Ok (sign s + Z.pos m)
        else Ok (sign s + (e + 150) * 8388608 + (Z.pos m - 8388608))
    end in
  match Prim2SF x with
  | S754_finite s m e =>
      match binary_round 24 128 s m e with
      | S754_infinity _ =>
          Raise (OverflowError "float too large to pack with f format")
      | sf => of_sf sf
      end
  | sf => of_sf sf
  end.

(** The binary32 word that the C conversions binary32 -> double -> binary32
    make of the word [w]: the word itself, but for a signalling NaN
    (exponent bits all ones, fraction not zero, bit 22 clear), which the
    conversion to a double turns into the quiet NaN of the same sign and
    payload (bit 22 set). *)
Definition quiet (w : Z) : Z :=
  let e := (w / 8388608) mod 256 in
  let m := w mod 8388608 in
  if (e =? 255) && (0 <? m) && (m <? 4194304) then w + 4194304 else w.

(** A Python float object.  [struct.unpack_from] widens the binary32 it
    reads to a double, and [struct.pack] narrows a double to a binary32.
    [F32 w] is the double that widens the binary32 word [w]: widening is
    exact, and the double keeps the sign and the payload of a NaN, which
    [PrimFloat] does not tell apart, so that the embedding keeps the word.
    The result of an arithmetic operation is a binary64 value ([F64]).
    [fval] is the binary64 value that arithmetic and comparisons see. *)
Inductive pyfloat : Type :=
| F32 (w : Z)
| F64 (x : float).

Definition fval (f : pyfloat) : float :=
  match f with
  | F32 w => f32_to_float w
  | F64 x => x
  end.

(** [struct.pack("<f", x)]. *)
Definition pack_f (x : pyfloat) : result bytes :=
  match x with
  | F32 w => Ok (le32_encode (quiet w))
  | F64 v => w <- float_to_f32 v ;; Ok (le32_encode w)
  end.

(** [Point = tuple[float, float]]. *)
Abbreviation Point := (pyfloat * pyfloat)%type.

(** [struct.unpack_from("<ff", data, offset)]: each binary32 read is
    converted to a double. *)
Definition unpack_from_ff (data : bytes) (offset : nat) : result Point :=
  match skipn offset data with
  | a0 :: a1 :: a2 :: a3 :: b0 :: b1 :: b2 :: b3 :: _ =>
      Ok (F32 (quiet (le32_decode a0 a1 a2 a3)),
          F32 (quiet (le32_decode b0 b1 b2 b3)))
  | _ => Raise (StructError "unpack_from requires a buffer of at least 8 bytes")
  end.

(** [struct.pack("<ff", x, y)]. *)
Definition pack_ff (x y : pyfloat) : result bytes :=
  bx <- pack_f x ;; by_ <- pack_f y ;; Ok (bx ++ by_).

(* ================================================================== *)
(** * The store of point-list objects *)

Definition ref := nat.
Definition store := list (list Point).

Definition store_get (s : store) (r : ref) : result (list Point) :=
  match nth_error s r with
  | Some l => Ok l
  | None => Raise NoObject
  end.

(** A new list object; its reference is fresh. *)
Definition store_alloc (s : store) (l : list Point) : ref * store :=
  (length s, s ++ [l]).

(* ================================================================== *)
(** * PointSet.py *)

Module PointSet.

(** A [PointSet] object: its attribute [points] names a list object. *)
Record t : Type := { points : ref }.

(** The loop [for _ in range(count)] of [_build_from_bytes]; [points] is
    the list built so far. *)
Fixpoint read_points (data : bytes) (count : nat) (offset : nat)
         (points : list Point) : result (list Point) :=
  match count with
  | O => Ok points
  | S count' =>
      p <- unpack_from_ff data offset ;;
      read_points data count' (offset + 8)%nat (points ++ [p])
  end.

Definition _build_from_bytes (data : bytes) : result (list Point) :=
  if Z.of_nat (length data) <? 4 then
    Raise (ValueError "buffer too short to contain point count")
  else
    count <- unpack_from_I data 0 ;;
    let offset := 4%nat in
    if Z.of_nat (length data) <? Z.of_nat offset + count * 8 then
      Raise (ValueError "buffer too short")
    else
      read_points data (Z.to_nat count) offset [].

(** [PointSet(pointset_bytes)]: the decoded list becomes a new object. *)
Definition init (pointset_bytes : bytes) (s : store) : result t * store :=
  match _build_from_bytes pointset_bytes with
  | Ok l => let '(r, s') := store_alloc s l in (Ok {| points := r |}, s')
  | Raise e => (Raise e, s)
  end.

(** The loop [for x, y in self.points] of [to_bytes]. *)
Fixpoint pack_points (points : list Point) (buf : bytes) : result bytes :=
  match points with
  | [] => Ok buf
  | (x, y) :: rest => b <- pack_ff x y ;; pack_points rest (buf ++ b)
  end.

(** The body of [to_bytes], on the list that [self.points] names. *)
Definition encode (points : list Point) : result bytes :=
  b <- pack_I (Z.of_nat (length points)) ;;
  pack_points points ([] ++ b).

Definition to_bytes (self : t) (s : store) : result bytes :=
  l <- store_get s (points self) ;; encode l.

End PointSet.

(* ================================================================== *)
(** * Triangles.py *)

(** [sorted] on a sequence of ints. *)
Fixpoint insert_sorted (x : Z) (l : list Z) : list Z :=
  match l with
  | [] => [x]
  | y :: l' => if x <=? y then x :: l else y :: insert_sorted x l'
  end.

Definition sorted (l : list Z) : list Z := fold_right insert_sorted [] l.

Module Triangles.

(** A candidate triangle is a tuple of ints; that it has three of them is
    what the first check establishes. *)
Abbreviation Triangle := (list Z).

Record t : Type := { pointset : PointSet.t; triangles : list Triangle }.

(** The tuple unpacking [i, j, k = triangle]. *)
Definition unpack3 (triangle : Triangle) : result (Z * Z * Z) :=
  match triangle with
  | [i; j; k] => Ok (i, j, k)
  | [] | [_] | [_; _] =>
      Raise (ValueError "not enough values to unpack (expected 3)")
  | _ => Raise (ValueError "too many values to unpack (expected 3)")
  end.

Definition _validate_indices_number (triangle : Triangle) : result unit :=
  if negb (Z.of_nat (length triangle) =? 3) then
    Raise (ValueError "a triangle don't have exactly 3 indices")
  else Ok tt.

Definition _validate_indices_in_range (triangle : Triangle) (nb_points : Z)
  : result unit :=
  '(i, j, k) <- unpack3 triangle ;;
  if ((i <? 0) || (i >=? nb_points)) ||
     ((j <? 0) || (j >=? nb_points)) ||
     ((k <? 0) || (k >=? nb_points)) then
    Raise (ValueError "triangle indices out of range")
  else Ok tt.

Definition _validate_distinct_vertices (triangle : Triangle) : result unit :=
  if negb (Z.of_nat (length (nodup Z.eq_dec triangle)) =? 3) then
    Raise (ValueError "a triangle must reference three distinct points")
  else Ok tt.

(** [seen] is the set of keys of the triangles accepted so far; the call
    adds the key of [triangle] to it. *)
Definition _validate_not_duplicate (triangle : Triangle)
           (seen : list (list Z)) : result (list (list Z)) :=
  '(i, j, k) <- unpack3 triangle ;;
  let key := sorted [i; j; k] in
  if existsb (fun k' => if list_eq_dec Z.eq_dec key k' then true else false)
             seen then
    Raise (ValueError "duplicate triangles")
  else Ok (key :: seen).

(** The loop of [_validate_triangles]. *)
Fixpoint validate_loop (s : store) (pointset : PointSet.t)
         (triangles : list Triangle) (seen : list (list Z)) : result unit :=
  match triangles with
  | [] => Ok tt
  | triangle :: rest =>
      _ <- _validate_indices_number triangle ;;
      pts <- store_get s (PointSet.points pointset) ;;
      _ <- _validate_indices_in_range triangle (Z.of_nat (length pts)) ;;
      _ <- _validate_distinct_vertices triangle ;;
      seen' <- _validate_not_duplicate triangle seen ;;
      validate_loop s pointset rest seen'
  end.

Definition _validate_triangles (s : store) (pointset : PointSet.t)
           (triangles : list Triangle) : result unit :=
  validate_loop s pointset triangles [].

(** [Triangles(pointset, triangles)]. *)
Definition init (s : store) (pointset : PointSet.t)
           (triangles : list Triangle) : result t :=
  _ <- _validate_triangles s pointset triangles ;;
  Ok {| pointset := pointset; triangles := triangles |}.

Fixpoint pack_triangles (triangles : list Triangle) (buf : bytes)
  : result bytes :=
  match triangles with
  | [] => Ok buf
  | triangle :: rest =>
      '(i, j, k) <- unpack3 triangle ;;
      b <- pack_III i j k ;;
      pack_triangles rest (buf ++ b)
  end.

Definition to_bytes (self : t) (s : store) : result bytes :=
  buf <- PointSet.to_bytes (pointset self) s ;;
  b <- pack_I (Z.of_nat (length (triangles self))) ;;
  pack_triangles (triangles self) (buf ++ b).

End Triangles.

(* ================================================================== *)
(** * Triangulator.py *)

(** [l[i]] on a list, with Python's negative indices. *)
Definition py_getitem {A : Type} (l : list A) (i : Z) : result A :=
  let n := Z.of_nat (length l) in
  let j := if i <? 0 then i + n else i in
  if (j <? 0) || (n <=? j) then Raise (IndexError "list index out of range")
  else
    match nth_error l (Z.to_nat j) with
    | Some a => Ok a
    | None => Raise (IndexError "list index out of range")
    end.

(** [min] and [max] over a sequence of floats: the first element is kept
    until a later one compares strictly below (above) it. *)
Definition py_min (l : list float) : result float :=
  match l with
  | [] => Raise (ValueError "min() arg is an empty sequence")
  | x :: rest => Ok (fold_left (fun m y => if ltb y m then y else m) rest x)
  end.

Definition py_max (l : list float) : result float :=
  match l with
  | [] => Raise (ValueError "max() arg is an empty sequence")
  | x :: rest => Ok (fold_left (fun m y => if ltb m y then y else m) rest x)
  end.

(** The literal [1e-9]: the binary64 float nearest to 10^-9. *)
Definition eps : float := 0x1.12e0be826d695p-30%float.

(** ** The power [x ** 2]

    The value that a call of the C library leaves in [errno], as far as the
    code tells them apart: zero, [ERANGE], or another error, of which
    [text] is what Python shows. *)
Inductive errno : Type := E0 | ERANGE | Eother (text : string).

(** The C library of the platform.  The code reaches it through the float
    power [x ** 2], for which CPython calls [pow(x, 2.0)]; [pow2 x] is the
    value that this call returns and the [errno] it leaves.  The C standard
    does not fix the value to the last bit, and the library is not code of
    the repository: it is a parameter. *)
Class Libm : Type := { pow2 : float -> float * errno }.

(** [x ** 2] for a float [x] and the int [2]: CPython's [float_pow] with the
    exponent [2.0].  A NaN, an infinity, a zero and [-1], [1] are answered
    without the library; otherwise the library is called on the absolute
    value, an infinite result with [errno] at zero counts as [ERANGE],
    [ERANGE] with a result [0.0] counts as none, and what remains in
    [errno] raises: [OverflowError] for [ERANGE], [ValueError] else. *)
Definition float_pow2 {L : Libm} (v : float) : result float :=
  if is_nan v then Ok v
  else if is_infinity v then Ok (abs v)
  else if eqb v 0 then Ok 0%float
  else
    let iv := if ltb v 0 then (- v)%float else v in
    if eqb iv 1 then Ok 1%float
    else
      let '(ix, e) := pow2 iv in
      let e :=
        match e with
        | E0 => if is_infinity ix then ERANGE else E0
        | ERANGE => if eqb ix 0 then E0 else ERANGE
        | Eother text => Eother text
        end in
      match e with
      | E0 => Ok ix
      | ERANGE => Raise (OverflowError "(34, 'Numerical result out of range')")
      | Eother text => Raise (ValueError text)
      end.

Module Triangulator.

Abbreviation TriangleIndices := (Z * Z * Z)%type.
Abbreviation Edge := (Z * Z)%type.

Record t : Type := { point_set : PointSet.t }.

Definition _validate_min_points (points : list Point) : result unit :=
  if Z.of_nat (length points) <? 3 then
    Raise (ValueError "need at least three points for triangulation")
  else Ok tt.

(** [key in seen] for a key [(float(x), float(y))]: some key of the set
    compares equal to it, coordinate by coordinate (float [==]; the floats
    of different points are different objects, so that a NaN coordinate
    equals no key). *)
Definition key_in (key : float * float) (seen : list (float * float))
  : bool :=
  existsb (fun k => eqb (fst key) (fst k) && eqb (snd key) (snd k)) seen.

Fixpoint no_duplicates_loop (points : list Point)
         (seen : list (float * float)) : result unit :=
  match points with
  | [] => Ok tt
  | (x, y) :: rest =>
      let key := (fval x, fval y) in
      if key_in key seen then
        Raise (ValueError "duplicate points in point set")
      else no_duplicates_loop rest (key :: seen)
  end.

Definition _validate_no_duplicates (points : list Point) : result unit :=
  no_duplicates_loop points [].

(** [Triangulator(point_set)]. *)
Definition init (point_set : PointSet.t) (s : store) : result t :=
  points <- store_get s (PointSet.points point_set) ;;
  _ <- _validate_min_points points ;;
  _ <- _validate_no_duplicates points ;;
  Ok {| point_set := point_set |}.

(** [all_points] names the extended point list in the store.  The four
    powers of the last two assignments are taken from left to right. *)
Definition _is_point_in_circumcircle {L : Libm} (s : store) (p : Point)
           (triangle : TriangleIndices) (all_points : ref) : result bool :=
  let '(t0, t1, t2) := triangle in
  l <- store_get s all_points ;;
  p1 <- py_getitem l t0 ;;
  p2 <- py_getitem l t1 ;;
  p3 <- py_getitem l t2 ;;
  let '(ax, ay) := (fval (fst p1), fval (snd p1)) in
  let '(bx, by_) := (fval (fst p2), fval (snd p2)) in
  let '(cx, cy) := (fval (fst p3), fval (snd p3)) in
  let d := (2 * (ax * (by_ - cy) + bx * (cy - ay) + cx * (ay - by_)))%float in
  if ltb (abs d) eps then Ok false
  else
    let ux := (((ax * ax + ay * ay) * (by_ - cy) + (bx * bx + by_ * by_) *
                (cy - ay) + (cx * cx + cy * cy) * (ay - by_)) / d)%float in
    let uy := (((ax * ax + ay * ay) * (cx - bx) + (bx * bx + by_ * by_) *
                (ax - cx) + (cx * cx + cy * cy) * (bx - ax)) / d)%float in
    let center := (ux, uy) in
    rx <- float_pow2 (fst center - ax) ;;
    ry <- float_pow2 (snd center - ay) ;;
    let r_sq := (rx + ry)%float in
    dx <- float_pow2 (fst center - fval (fst p)) ;;
    dy <- float_pow2 (snd center - fval (snd p)) ;;
    let d_sq := (dx + dy)%float in
    Ok (ltb d_sq (r_sq - eps)).

Definition tri_eqb (a b : TriangleIndices) : bool :=
  let '(a0, a1, a2) := a in
  let '(b0, b1, b2) := b in
  (a0 =? b0) && (a1 =? b1) && (a2 =? b2).

Definition edge_eqb (a b : Edge) : bool :=
  (fst a =? fst b) && (snd a =? snd b).

(** [tuple(sorted(edge))]. *)
Definition sorted_edge (edge : Edge) : Edge :=
  let '(a, b) := edge in if b <? a then (b, a) else (a, b).

Definition tri_edges (tri : TriangleIndices) : list Edge :=
  let '(t0, t1, t2) := tri in [(t0, t1); (t1, t2); (t2, t0)].

(** Step 2a: [for tri in triangulation]. *)
Fixpoint find_bad {L : Libm} (s : store) (point : Point) (all_points : ref)
         (triangulation bad_triangles : list TriangleIndices)
  : result (list TriangleIndices) :=
  match triangulation with
  | [] => Ok bad_triangles
  | tri :: rest =>
      b <- _is_point_in_circumcircle s point tri all_points ;;
      find_bad s point all_points rest
               (if b then bad_triangles ++ [tri] else bad_triangles)
  end.

(** The loop [for other_tri in bad_triangles], which sets [shared]. *)
Fixpoint is_shared (tri : TriangleIndices) (sorted_e : Edge)
         (bad_triangles : list TriangleIndices) : bool :=
  match bad_triangles with
  | [] => false
  | other_tri :: rest =>
      if tri_eqb tri other_tri then is_shared tri sorted_e rest
      else
        let other_edges := map sorted_edge (tri_edges other_tri) in
        if existsb (edge_eqb sorted_e) other_edges then true
        else is_shared tri sorted_e rest
  end.

(** The loop [for edge in edges]. *)
Fixpoint edges_loop (tri : TriangleIndices) (edges : list Edge)
         (bad_triangles : list TriangleIndices) (polygon : list Edge)
  : list Edge :=
  match edges with
  | [] => polygon
  | edge :: rest =>
      let shared := is_shared tri (sorted_edge edge) bad_triangles in
      edges_loop tri rest bad_triangles
                 (if negb shared then polygon ++ [edge] else polygon)
  end.

(** Step 2b: [for tri in bad_triangles]. *)
Fixpoint polygon_loop (todo bad_triangles : list TriangleIndices)
         (polygon : list Edge) : list Edge :=
  match todo with
  | [] => polygon
  | tri :: rest =>
      polygon_loop rest bad_triangles
                   (edges_loop tri (tri_edges tri) bad_triangles polygon)
  end.

(** [triangulation.remove(tri)]. *)
Fixpoint list_remove (tri : TriangleIndices)
         (triangulation : list TriangleIndices)
  : result (list TriangleIndices) :=
  match triangulation with
  | [] => Raise (ValueError "list.remove(x): x not in list")
  | y :: rest =>
      if tri_eqb y tri then Ok rest
      else rest' <- list_remove tri rest ;; Ok (y :: rest')
  end.

(** Step 2c. *)
Fixpoint remove_loop (bad_triangles triangulation : list TriangleIndices)
  : result (list TriangleIndices) :=
  match bad_triangles with
  | [] => Ok triangulation
  | tri :: rest =>
      triangulation' <- list_remove tri triangulation ;;
      remove_loop rest triangulation'
  end.

(** Step 2d. *)
Fixpoint append_loop (polygon : list Edge) (i : Z)
         (triangulation : list TriangleIndices) : list TriangleIndices :=
  match polygon with
  | [] => triangulation
  | edge :: rest =>
      let new_tri := (fst edge, snd edge, i) in
      append_loop rest i (triangulation ++ [new_tri])
  end.

(** Step 2: [for i, point in enumerate(points)]. *)
Fixpoint insert_points {L : Libm} (s : store) (all_points : ref)
         (points : list Point) (i : Z) (triangulation : list TriangleIndices)
  : result (list TriangleIndices) :=
  match points with
  | [] => Ok triangulation
  | point :: rest =>
      bad_triangles <- find_bad s point all_points triangulation [] ;;
      let polygon := polygon_loop bad_triangles bad_triangles [] in
      triangulation1 <- remove_loop bad_triangles triangulation ;;
      let triangulation2 := append_loop polygon i triangulation1 in
      insert_points s all_points rest (i + 1) triangulation2
  end.

(** Step 3. *)
Fixpoint cleanup (triangulation : list TriangleIndices) (n_points : Z)
         (final_triangles : list TriangleIndices) : list TriangleIndices :=
  match triangulation with
  | [] => final_triangles
  | tri :: rest =>
      let '(t0, t1, t2) := tri in
      cleanup rest n_points
              (if negb (existsb (fun idx => idx >=? n_points) [t0; t1; t2])
               then final_triangles ++ [tri] else final_triangles)
  end.

Definition as_tuple (tri : TriangleIndices) : Triangles.Triangle :=
  let '(t0, t1, t2) := tri in [t0; t1; t2].

(** The body of [triangulate] from [super_triangle_nodes = ...] on, the
    three vertices being known; it returns the store too, in which the two
    lists it created live: [super_triangle_nodes] and
    [all_points = points + super_triangle_nodes], a new list. *)
Definition run {L : Libm} (self : t) (s : store) (points : list Point)
           (st_p1 st_p2 st_p3 : Point) : result Triangles.t * store :=
  let n_points := Z.of_nat (length points) in
  let '(super_triangle_nodes, s1) := store_alloc s [st_p1; st_p2; st_p3] in
  let '(all_points, s2) := store_alloc s1 (points ++ [st_p1; st_p2; st_p3]) in
  let triangulation := [(n_points, n_points + 1, n_points + 2)] in
  (triangulation' <- insert_points s2 all_points points 0 triangulation ;;
   let final_triangles := cleanup triangulation' n_points [] in
   Triangles.init s2 (point_set self) (map as_tuple final_triangles),
   s2).

(** Step 1 of [triangulate], up to the three vertices. *)
Definition super_triangle (points : list Point)
  : result (Point * Point * Point) :=
  min_x <- py_min (map (fun p => fval (fst p)) points) ;;
  max_x <- py_max (map (fun p => fval (fst p)) points) ;;
  min_y <- py_min (map (fun p => fval (snd p)) points) ;;
  max_y <- py_max (map (fun p => fval (snd p)) points) ;;
  let dx := (max_x - min_x)%float in
  let dy := (max_y - min_y)%float in
  let delta_max := if ltb dx dy then dy else dx in
  let mid_x := ((min_x + max_x) / 2)%float in
  let mid_y := ((min_y + max_y) / 2)%float in
  let st_p1 := (F64 (mid_x - 20 * delta_max), F64 (mid_y - delta_max))%float in
  let st_p2 := (F64 mid_x, F64 (mid_y + 20 * delta_max))%float in
  let st_p3 := (F64 (mid_x + 20 * delta_max), F64 (mid_y - delta_max))%float in
  Ok (st_p1, st_p2, st_p3).

(** [points = self.point_set.points] is the list of the point set itself,
    not a copy; the run reads it and never writes it. *)
Definition triangulate {L : Libm} (self : t) (s : store)
  : result Triangles.t * store :=
  match store_get s (PointSet.points (point_set self)) with
  | Raise e => (Raise e, s)
  | Ok points =>
      match super_triangle points with
      | Raise e => (Raise e, s)
      | Ok (st_p1, st_p2, st_p3) => run self s points st_p1 st_p2 st_p3
      end
  end.

End Triangulator.

(* ================================================================== *)
(** * The pipeline of [app.py]:
      [PointSet(bytes)], [Triangulator(ps)], [triangulate()], [to_bytes()] *)

Definition pipeline {L : Libm} (point_set_bytes : bytes) (s : store)
  : result bytes * store :=
  match PointSet.init point_set_bytes s with
  | (Raise e, s1) => (Raise e, s1)
  | (Ok ps, s1) =>
      match Triangulator.init ps s1 with
      | Raise e => (Raise e, s1)
      | Ok triangulator =>
          match Triangulator.triangulate triangulator s1 with
          | (Raise e, s2) => (Raise e, s2)
          | (Ok triangles_obj, s2) => (Triangles.to_bytes triangles_obj s2, s2)
          end
      end
  end.

(* ================================================================== *)
(** * A mesh decoder *)

Module Mesh.

(** Modelled from the spec: the index triples of the mesh format of section
    6, three little-endian unsigned 32-bit indices per triangle, read one
    triangle after the other. *)
Fixpoint read_triangles (data : bytes) (count : nat) (offset : nat)
         (triangles : list Triangles.Triangle)
  : result (list Triangles.Triangle) :=
  match count with
  | O => Ok triangles
  | S count' =>
      '(i, j, k) <- unpack_from_III data offset ;;
      read_triangles data count' (offset + 12)%nat (triangles ++ [[i; j; k]])
  end.

(** Modelled from the spec: the mesh decoder [decode(buffer) -> Mesh] of
    section 4.2, which the repository does not define ([Triangles] has
    [to_bytes] only).  It decodes the points with the point codec of
    [PointSet] (which ignores what follows the declared points), then reads
    the little-endian unsigned 32-bit triangle count and that many index
    triples, and constructs, and thereby validates, a [Triangles] object.
    A truncated buffer is a [MalformedBuffer] failure. *)
Definition decode (data : bytes) (s : store) : result Triangles.t * store :=
  match PointSet.init data s with
  | (Raise e, s1) => (Raise e, s1)
  | (Ok ps, s1) =>
      (points <- store_get s1 (PointSet.points ps) ;;
       let offset := (4 + 8 * length points)%nat in
       if Z.of_nat (length data) <? Z.of_nat offset + 4 then
         Raise (ValueError "buffer too short")
       else
         count <- unpack_from_I data offset ;;
         if Z.of_nat (length data) <? Z.of_nat offset + 4 + count * 12 then
           Raise (ValueError "buffer too short")
         else
           triangles <- read_triangles data (Z.to_nat count)
                                       (offset + 4)%nat [] ;;
           Triangles.init s1 ps triangles,
       s1)
  end.

End Mesh.

(* ================================================================== *)
(** * Vocabulary of the specification *)

(** The failure kinds of the specification are the [ValueError]s the code
    raises, told apart by their message. *)
Definition MalformedBuffer (e : exn) : Prop :=
  e = ValueError "buffer too short to contain point count" \/
  e = ValueError "buffer too short".

Definition InsufficientPoints : exn :=
  ValueError "need at least three points for triangulation".

Definition DuplicatePoints : exn :=
  ValueError "duplicate points in point set".

Definition InvalidTriangleIndexCount : exn :=
  ValueError "a triangle don't have exactly 3 indices".

Definition TriangleIndexOutOfRange : exn :=
  ValueError "triangle indices out of range".

Definition TriangleNonDistinctVertices : exn :=
  ValueError "a triangle must reference three distinct points".

Definition DuplicateTriangle : exn :=
  ValueError "duplicate triangles".

(** A coordinate as the decoder produces it: the widening of a binary32
    word, a NaN being quiet. *)
Definition is_word (x : pyfloat) : Prop :=
  match x with
  | F32 w => 0 <= w < two32 /\ quiet w = w
  | F64 _ => False
  end.

(** A point collection as the decoder produces it. *)
Definition decoded_points (points : list Point) : Prop :=
  Z.of_nat (length points) < two32 /\
  Forall (fun p => is_word (fst p) /\ is_word (snd p)) points.

Definition bytes_of_Zs (l : list Z) : bytes := map byte_of l.

(** Points given by the binary32 words of their coordinates. *)
Definition points_of_words (l : list (Z * Z)) : list Point :=
  map (fun p => (F32 (fst p), F32 (snd p))) l.

(** The three points [(0,0), (1,0), (0,1)] as a point-set buffer. *)
Definition three_points_buf : bytes :=
  bytes_of_Zs [3;0;0;0;  0;0;0;0; 0;0;0;0;  0;0;128;63; 0;0;0;0;
               0;0;0;0; 0;0;128;63].

Definition three_points : list Point :=
  points_of_words [(0, 0); (1065353216, 0); (0, 1065353216)].

(** The store and the [PointSet] object that [PointSet(three_points_buf)]
    makes in an empty store. *)
Definition three_points_store : store := [three_points].
Definition three_points_ps : PointSet.t := {| PointSet.points := 0%nat |}.

(** One point whose coordinates are a quiet NaN and plus infinity. *)
Definition nan_inf_buf : bytes :=
  bytes_of_Zs [1;0;0;0;  0;0;192;127; 0;0;128;127].

(** The buffer has no bytes beyond the points it declares. *)
Definition no_trailing_bytes (data : bytes) : Prop :=
  exists count, unpack_from_I data 0 = Ok count /\
                Z.of_nat (length data) = 4 + count * 8.

(** The mesh invariants of the specification, over a point collection of
    [nb_points] points. *)
Definition valid_triangle (nb_points : Z) (t : list Z) : Prop :=
  length t = 3%nat /\ Forall (fun v => 0 <= v < nb_points) t /\ NoDup t.

Definition mesh_invariants (nb_points : Z) (triangles : list (list Z)) : Prop :=
  Forall (valid_triangle nb_points) triangles /\
  ForallOrdPairs (fun t1 t2 => ~ Permutation t1 t2) triangles.

(** The first invariant, in the order of the specification, that the
    candidate [t] violates when the triangles [accepted] came before it. *)
Definition first_violation (nb_points : Z) (accepted : list (list Z))
           (t : list Z) : option exn :=
  if negb (length t =? 3)%nat then Some InvalidTriangleIndexCount
  else if existsb (fun v => (v <? 0) || (nb_points <=? v)) t then
    Some TriangleIndexOutOfRange
  else if match t with
          | [i; j; k] => (i =? j) || (j =? k) || (i =? k)
          | _ => false
          end then
    Some TriangleNonDistinctVertices
  else if existsb (fun u => if list_eq_dec Z.eq_dec (sorted t) (sorted u)
                            then true else false) accepted then
    Some DuplicateTriangle
  else None.

(** Checking the candidates one after the other and stopping at the first
    violation: the error reported, if any. *)
Fixpoint first_error (nb_points : Z) (accepted triangles : list (list Z))
  : option exn :=
  match triangles with
  | [] => None
  | t :: rest =>
      match first_violation nb_points accepted t with
      | Some e => Some e
      | None => first_error nb_points (accepted ++ [t]) rest
      end
  end.

(** The candidate at which the checking stops. *)
Fixpoint offending_triangle (nb_points : Z) (accepted triangles : list (list Z))
  : option (list Z) :=
  match triangles with
  | [] => None
  | t :: rest =>
      match first_violation nb_points accepted t with
      | Some _ => Some t
      | None => offending_triangle nb_points (accepted ++ [t]) rest
      end
  end.

(** [seen] holds the keys of the triangles [accepted] so far. *)
Definition seen_of (accepted seen : list (list Z)) : Prop :=
  forall key, In key seen <-> exists u, In u accepted /\ sorted u = key.

(** Float [==] on points, coordinate by coordinate. *)
Definition points_equal (p q : Point) : bool :=
  eqb (fval (fst p)) (fval (fst q)) && eqb (fval (snd p)) (fval (snd q)).

(** Some point of the collection equals one before it. *)
Definition has_equal_points (points : list Point) : Prop :=
  exists i j p q,
    (i < j)%nat /\ nth_error points i = Some p /\ nth_error points j = Some q /\
    points_equal q p = true.

Definition coords (p : Point) : float * float := (fval (fst p), fval (snd p)).

(** The circumcircle predicate in the words of the specification:
    the determinant [d], the circumcenter by the determinant formulas, and
    the comparison of the squared distances, a square being the float
    power [x ** 2]. *)
Definition det_d (a b c : float * float) : float :=
  let '(ax, ay) := a in
  let '(bx, by_) := b in
  let '(cx, cy) := c in
  (2 * (ax * (by_ - cy) + bx * (cy - ay) + cx * (ay - by_)))%float.

Definition circumcenter (a b c : float * float) : float * float :=
  let '(ax, ay) := a in
  let '(bx, by_) := b in
  let '(cx, cy) := c in
  let d := det_d a b c in
  ((((ax * ax + ay * ay) * (by_ - cy) + (bx * bx + by_ * by_) * (cy - ay)
     + (cx * cx + cy * cy) * (ay - by_)) / d)%float,
   (((ax * ax + ay * ay) * (cx - bx) + (bx * bx + by_ * by_) * (ax - cx)
     + (cx * cx + cy * cy) * (bx - ax)) / d)%float).

Definition dist2 {L : Libm} (u v : float * float) : result float :=
  x2 <- float_pow2 (fst u - fst v) ;;
  y2 <- float_pow2 (snd u - snd v) ;;
  Ok (x2 + y2)%float.

Definition inside_circumcircle {L : Libm} (a b c p : float * float)
  : result bool :=
  if ltb (abs (det_d a b c)) eps then Ok false
  else
    r_sq <- dist2 (circumcenter a b c) a ;;
    d_sq <- dist2 (circumcenter a b c) p ;;
    Ok (ltb d_sq (r_sq - eps)).

(** Two equal points, and the store that holds them. *)
Definition two_equal_points : list Point := points_of_words [(0, 0); (0, 0)].

(** ** The working triangulation of a run

    Before point [i] is inserted, over [n] input points, every working
    triangle has three different vertices, each an input point already
    inserted or one of the super-triangle vertices [n], [n+1], [n+2], and no
    two working triangles have the same sorted key. *)
Definition vertex_ok (i n v : Z) : Prop := 0 <= v < i \/ n <= v <= n + 2.

Definition tri_ok (i n : Z) (t : Z * Z * Z) : Prop :=
  let '(a, b, c) := t in
  (a <> b /\ b <> c /\ a <> c) /\
  vertex_ok i n a /\ vertex_ok i n b /\ vertex_ok i n c.

Definition key3 (t : Z * Z * Z) : list Z := sorted (Triangulator.as_tuple t).

Definition working_inv (i n : Z) (triangulation : list (Z * Z * Z)) : Prop :=
  Forall (tri_ok i n) triangulation /\ NoDup (map key3 triangulation).

(** What steps 2b and 2d compute. *)
Definition boundary_edges (bad_triangles : list (Z * Z * Z)) (tri : Z * Z * Z)
  : list (Z * Z) :=
  filter (fun edge =>
            negb (Triangulator.is_shared tri (Triangulator.sorted_edge edge)
                                         bad_triangles))
         (Triangulator.tri_edges tri).

Definition polygon_of (bad_triangles : list (Z * Z * Z)) : list (Z * Z) :=
  flat_map (boundary_edges bad_triangles) bad_triangles.

Definition new_triangle (i : Z) (edge : Z * Z) : Z * Z * Z :=
  (fst edge, snd edge, i).

(** What step 3 keeps. *)
Definition within (n_points : Z) (tri : Z * Z * Z) : bool :=
  let '(t0, t1, t2) := tri in
  negb (existsb (fun idx => idx >=? n_points) [t0; t1; t2]).

(** The unit square [(0,0), (1,0), (1,1), (0,1)]. *)
Definition unit_square : list Point :=
  points_of_words [(0, 0); (1065353216, 0); (1065353216, 1065353216);
                   (0, 1065353216)].

(** The triangle [(0,0), (2^-21,0), (0,2^-21)]. *)
Definition tiny_triangle : list Point :=
  points_of_words [(0, 0); (889192448, 0); (0, 889192448)].

(** The flat triangle [(0,0), (1,0), (0.5,-0.01)], the last coordinate being
    the binary32 value nearest to [-0.01]. *)
Definition flat_triangle : list Point :=
  points_of_words [(0, 0); (1065353216, 0); (1056964608, 3156465418)].

(** The points of [test_triangulate_with_duplicate_points]. *)
Definition points_with_duplicate : list Point :=
  points_of_words [(0, 0); (1065353216, 0); (1065353216, 0); (0, 1065353216)].

(** The buffer of [points_with_duplicate]. *)
Definition duplicate_buf : bytes :=
  bytes_of_Zs [4;0;0;0;  0;0;0;0; 0;0;0;0;  0;0;128;63; 0;0;0;0;
               0;0;128;63; 0;0;0;0;  0;0;0;0; 0;0;128;63].

(** The collinear points [(0,0), (1,0), (2,0)]. *)
Definition collinear_points : list Point :=
  points_of_words [(0, 0); (1065353216, 0); (1073741824, 0)].

(** Twice the signed area of the triangle of three points; it is zero when
    they are collinear. *)
Definition cross (a b c : float * float) : float :=
  ((fst b - fst a) * (snd c - snd a) - (snd b - snd a) * (fst c - fst a))%float.

(** Three points are not collinear: the doubled signed area of their
    triangle is not zero. *)
Definition non_collinear (pts : list Point) : bool :=
  match pts with
  | [a; b; c] => negb (eqb (cross (coords a) (coords b) (coords c)) 0)
  | _ => false
  end.

(** The triangulator over the point set at reference 0. *)
Definition triangulator0 : Triangulator.t :=
  {| Triangulator.point_set := {| PointSet.points := 0%nat |} |}.

(** The triangles a run returns for the points [pts], computed in the store
    that holds nothing but [pts]. *)
Definition triangles_of {L : Libm} (pts : list Point)
  : result (list (list Z)) :=
  match fst (Triangulator.triangulate triangulator0 [pts]) with
  | Ok m => Ok (Triangles.triangles m)
  | Raise e => Raise e
  end.

(* ================================================================== *)
(** * app.py *)

Module App.

(** What the block [with urlopen("url") as response: ... response.read()]
    comes to: the bytes read, an [HTTPError] with its code and reason, or
    any other exception, with its text. *)
Inductive fetched : Type :=
| Body (point_set_bytes : bytes)
| HTTPError (code : Z) (reason : string)
| OtherException (text : string).

(** What a request comes to: a JSON error object with a status, the mesh
    bytes as an octet stream with status 200, or an exception that no
    handler of the view catches. *)
Inductive reply : Type :=
| JsonError (status : Z) (error : string)
| OctetStream (status : Z) (data : bytes)
| Propagates (e : exn).

(** The view [triangulate(point_set_id)].  [valid_uuid] says whether
    [uuid.UUID(point_set_id)] returns; [urlopen] is the outcome of the fetch
    (the tests replace [urlopen]).  Only a [ValueError] of the processing
    block is caught. *)
Definition triangulate {L : Libm} (valid_uuid : bool) (urlopen : fetched)
           (s : store) : reply * store :=
  if negb valid_uuid then (JsonError 400 "Invalid UUID format", s)
  else
    match urlopen with
    | HTTPError code reason =>
        if code =? 404 then (JsonError 404 "PointSet not found", s)
        else (JsonError 502 ("Upstream error: " ++ reason)%string, s)
    | OtherException text =>
        (JsonError 503 ("Connection error: " ++ text)%string, s)
    | Body point_set_bytes =>
        match pipeline point_set_bytes s with
        | (Ok response_bytes, s') => (OctetStream 200 response_bytes, s')
        | (Raise (ValueError msg), s') =>
            (JsonError 500 ("Processing error: " ++ msg)%string, s')
        | (Raise e, s') => (Propagates e, s')
        end
    end.

End App.

(* ================================================================== *)
(** * Further vocabulary *)

(** A point one of whose coordinates is a NaN. *)
Definition has_nan (p : Point) : bool :=
  is_nan (fval (fst p)) || is_nan (fval (snd p)).

(** The answer of the circumcircle predicate, [False] standing for a call
    that raises. *)
Definition bad_for {L : Libm} (s : store) (all_points : ref) (p : Point)
           (t : Z * Z * Z) : bool :=
  match Triangulator._is_point_in_circumcircle s p t all_points with
  | Ok b => b
  | Raise _ => false
  end.

(** One pass of the insertion loop for point [i], [f] telling the bad
    triangles: they go, and the boundary edges of their cavity are joined to
    the point. *)
Definition insert_step (f : Z * Z * Z -> bool) (i : Z)
           (triangulation : list (Z * Z * Z)) : list (Z * Z * Z) :=
  filter (fun t => negb (f t)) triangulation
  ++ map (new_triangle i) (polygon_of (filter f triangulation)).

(** The bytes of a list of triangles in the mesh format: for each triangle
    its three indices, as little-endian words. *)
Definition triangle_words (t : list Z) : bytes := flat_map le32_encode t.

(** The last index of a working triangle is the point it was made for: but
    for the super-triangle, it lies below the point being inserted, and each
    of the other two lies below it or is a super-triangle vertex. *)
Definition last_is_newest (i n : Z) (t : Z * Z * Z) : Prop :=
  t = (n, n + 1, n + 2) \/
  (let '(a, b, c) := t in
   0 <= c < i /\ (a < c \/ n <= a) /\ (b < c \/ n <= b)).

(** Floats by their IEEE 754 content: NaN or an infinity, and NaN or plus
    infinity. *)
Definition non_finite (f : spec_float) : Prop :=
  f = S754_nan \/ exists sg, f = S754_infinity sg.

Definition top (f : spec_float) : Prop :=
  f = S754_nan \/ f = S754_infinity false.

(** Magnitudes.  A finite float of mantissa [m] and exponent [e] is below
    [2 ^ (digits m + e)] in absolute value, and at least half of it;
    [sf_below k] bounds this exponent from above, [sf_above k] from below.
    They say nothing of a zero, an infinity or a NaN. *)
Definition sf_below (k : Z) (f : spec_float) : Prop :=
  match f with
  | S754_finite _ m e => Z.pos (digits2_pos m) + e <= k
  | _ => True
  end.

Definition sf_above (k : Z) (f : spec_float) : Prop :=
  match f with
  | S754_finite _ m e => k <= Z.pos (digits2_pos m) + e
  | _ => True
  end.

Definition below (k : Z) (x : float) : Prop := sf_below k (Prim2SF x).
Definition above (k : Z) (x : float) : Prop := sf_above k (Prim2SF x).

Definition point_below (k : Z) (p : Point) : Prop :=
  below k (fval (fst p)) /\ below k (fval (snd p)).

(** A zero, or a finite float below [2 ^ 1023]: not an infinity, and not
    the largest float. *)
Definition in_range (f : spec_float) : Prop :=
  match f with
  | S754_zero _ => True
  | S754_finite _ m e => Z.pos (digits2_pos m) + e <= 1023
  | _ => False
  end.

(** Three points far from each other, in binary64: (0,0), (0,2^150) and
    (-1,-2^300). *)
Definition far_points : list Point :=
  [(F64 0, F64 0); (F64 0, F64 0x1p150); (F64 (-1), F64 (-0x1p300))]%float.

(** A point one of whose coordinates is a NaN or an infinity. *)
Definition has_non_finite (p : Point) : bool :=
  negb (is_finite (fval (fst p)) && is_finite (fval (snd p))).

(** The reply of the endpoint to a processing error. *)
Definition processing_error (msg : string) : App.reply :=
  App.JsonError 500 ("Processing error: " ++ msg)%string.

(** Three points that are the same NaN pair, bit for bit. *)
Definition three_nan_points : list Point :=
  points_of_words [(2143289344, 2143289344); (2143289344, 2143289344);
                   (2143289344, 2143289344)].

(** The unit square with a fifth point (NaN, 0), in the second place. *)
Definition square_with_nan : list Point :=
  points_of_words [(0, 0); (2143289344, 0); (1065353216, 0);
                   (1065353216, 1065353216); (0, 1065353216)].

(* ================================================================== *)
(** * Vocabulary on the codec of floats *)

(** The buffer with every coordinate word replaced by what the conversions
    make of it: the count word first, then the words of the coordinates. *)
Fixpoint quiet_words (body : bytes) : bytes :=
  match body with
  | b0 :: b1 :: b2 :: b3 :: rest =>
      le32_encode (quiet (le32_decode b0 b1 b2 b3)) ++ quiet_words rest
  | _ => body
  end.

Definition quiet_buffer (data : bytes) : bytes :=
  firstn 4 data ++ quiet_words (skipn 4 data).

(** No coordinate word of the buffer is a signalling NaN: the conversions
    leave every word as it is. *)
Definition no_signalling_nan (data : bytes) : Prop := quiet_buffer data = data.

(** One point whose first coordinate is the signalling NaN [0x7fa00000]. *)
Definition snan_buf : bytes :=
  bytes_of_Zs [1;0;0;0;  0;0;160;127; 0;0;0;0].

(* ================================================================== *)
(** * Vocabulary on the C library *)

(** [v] is the float [r] or one of the two floats next to it. *)
Definition near (v r : float) : Prop :=
  v = r \/
  (v = next_up r /\ r = next_down v) \/
  (v = next_down r /\ r = next_up v).

(** A library whose [pow(x, 2.0)] is within one unit in the last place of
    the square: it returns the square rounded to nearest, which is the
    product [x * x], or a float next to it; and it leaves [errno] at zero,
    or at [ERANGE] with a result that is infinite (an overflow) or zero (an
    underflow to zero), and at nothing else. *)
Definition accurate (L : Libm) : Prop :=
  forall x,
    near (fst (pow2 x)) (x * x) /\
    (snd (pow2 x) = E0 \/
     (snd (pow2 x) = ERANGE /\
      (is_infinity (fst (pow2 x)) = true \/ eqb (fst (pow2 x)) 0 = true))).

(** The library whose [pow(x, 2.0)] is the square rounded to nearest, with
    [ERANGE] on overflow. *)
Definition rn_libm : Libm :=
  {| pow2 := fun x => let r := (x * x)%float in
                      (r, if is_infinity r then ERANGE else E0) |}.

(** What [x ** 2] can come to with an accurate library. *)
Definition pow2_outcomes (v : float) : list (result float) :=
  if is_nan v then [Ok v]
  else if is_infinity v then [Ok (abs v)]
  else if eqb v 0 then [Ok 0%float]
  else
    let iv := if ltb v 0 then (- v)%float else v in
    if eqb iv 1 then [Ok 1%float]
    else
      map (fun c => if is_infinity c
                    then Raise (OverflowError
                                  "(34, 'Numerical result out of range')")
                    else Ok c)
          [(iv * iv)%float; next_down (iv * iv); next_up (iv * iv)].

(** The answer that all of a list of outcomes give, if they agree on one. *)
Definition all_same (l : list (result bool)) : option bool :=
  match l with
  | Ok b :: rest =>
      if forallb (fun o => match o with
                           | Ok b' => Bool.eqb b b'
                           | Raise _ => false
                           end) rest
      then Some b else None
  | _ => None
  end.

(** The answer of the circumcircle predicate when it is the same with every
    accurate library: with every choice of the four powers among their
    possible outcomes. *)
Definition robust_inside (a b c p : float * float) : option bool :=
  if ltb (abs (det_d a b c)) eps then Some false
  else
    let u := circumcenter a b c in
    all_same
      (flat_map (fun rx =>
       flat_map (fun ry =>
       flat_map (fun dx =>
       map (fun dy =>
              x1 <- rx ;; y1 <- ry ;; x2 <- dx ;; y2 <- dy ;;
              Ok (ltb (x2 + y2) (x1 + y1 - eps)))
           (pow2_outcomes (snd u - snd p)))
           (pow2_outcomes (fst u - fst p)))
           (pow2_outcomes (snd u - snd a)))
           (pow2_outcomes (fst u - fst a))).

Definition robust_predicate (l : list Point) (p : Point) (t : Z * Z * Z)
  : option bool :=
  let '(t0, t1, t2) := t in
  match py_getitem l t0, py_getitem l t1, py_getitem l t2 with
  | Ok p1, Ok p2, Ok p3 =>
      robust_inside (coords p1) (coords p2) (coords p3) (coords p)
  | _, _, _ => None
  end.

(** The insertion loop run with these answers. *)
Fixpoint robust_find_bad (l : list Point) (point : Point)
         (triangulation bad_triangles : list (Z * Z * Z))
  : option (list (Z * Z * Z)) :=
  match triangulation with
  | [] => Some bad_triangles
  | tri :: rest =>
      match robust_predicate l point tri with
      | Some b =>
          robust_find_bad l point rest
                          (if b then bad_triangles ++ [tri] else bad_triangles)
      | None => None
      end
  end.

Fixpoint robust_insert_points (l : list Point) (points : list Point) (i : Z)
         (triangulation : list (Z * Z * Z)) : option (list (Z * Z * Z)) :=
  match points with
  | [] => Some triangulation
  | point :: rest =>
      match robust_find_bad l point triangulation [] with
      | Some bad_triangles =>
          match Triangulator.remove_loop bad_triangles triangulation with
          | Ok triangulation1 =>
              robust_insert_points
                l rest (i + 1)
                (Triangulator.append_loop
                   (Triangulator.polygon_loop bad_triangles bad_triangles [])
                   i triangulation1)
          | Raise _ => None
          end
      | None => None
      end
  end.

(** The triangles that a run returns for the points [pts] with every
    accurate library, if they are the same with all of them. *)
Definition robust_triangles (pts : list Point) : option (list (list Z)) :=
  match Triangulator.super_triangle pts with
  | Ok (p1, p2, p3) =>
      let n := Z.of_nat (length pts) in
      match robust_insert_points (pts ++ [p1; p2; p3]) pts 0
                                 [(n, n + 1, n + 2)] with
      | Some triangulation =>
          Some (map Triangulator.as_tuple
                    (Triangulator.cleanup triangulation n []))
      | None => None
      end
  | Raise _ => None
  end.


(* ================================================================== *)
(** * Words and bytes *)

Lemma byte_val_range (b : byte) : 0 <= byte_val b < 256.
Proof.
  unfold byte_val. pose proof (Byte.to_N_bounded b). lia.
Qed.

Lemma byte_of_val (b : byte) (z : Z) : z mod 256 = byte_val b -> byte_of z = b.
Proof.
  intros H. unfold byte_of. rewrite H. unfold byte_val.
  rewrite N2Z.id, Byte.of_to_N. reflexivity.
Qed.

Lemma byte_val_of (z : Z) : byte_val (byte_of z) = z mod 256.
Proof.
  unfold byte_of, byte_val.
  destruct (Byte.of_N (Z.to_N (z mod 256))) as [b|] eqn:E.
  - apply Byte.to_of_N in E. rewrite E.
    rewrite Z2N.id; [reflexivity|]. apply Z.mod_pos_bound. lia.
  - apply Byte.of_N_None_iff in E.
    pose proof (Z.mod_pos_bound z 256). lia.
Qed.

Lemma le32_decode_range (b0 b1 b2 b3 : byte) :
  0 <= le32_decode b0 b1 b2 b3 < two32.
Proof.
  unfold le32_decode, two32.
  pose proof (byte_val_range b0). pose proof (byte_val_range b1).
  pose proof (byte_val_range b2). pose proof (byte_val_range b3). lia.
Qed.

Lemma le32_encode_decode (b0 b1 b2 b3 : byte) :
  le32_encode (le32_decode b0 b1 b2 b3) = [b0; b1; b2; b3].
Proof.
  unfold le32_encode, le32_decode.
  pose proof (byte_val_range b0). pose proof (byte_val_range b1).
  pose proof (byte_val_range b2). pose proof (byte_val_range b3).
  repeat f_equal; apply byte_of_val; Z.div_mod_to_equations; lia.
Qed.

Lemma le32_decode_encode (w : Z) :
  0 <= w < two32 ->
  le32_decode (byte_of w) (byte_of (w / 256)) (byte_of (w / 65536))
              (byte_of (w / 16777216)) = w.
Proof.
  unfold two32. intros H. unfold le32_decode.
  rewrite !byte_val_of. Z.div_mod_to_equations. lia.
Qed.

Lemma le32_encode_length (w : Z) : length (le32_encode w) = 4%nat.
Proof. reflexivity. Qed.

Lemma quiet_range (w : Z) : 0 <= w < two32 -> 0 <= quiet w < two32.
Proof.
  cbv beta zeta delta [quiet two32]. intros Hw.
  destruct (((w / 8388608) mod 256 =? 255) && (0 <? w mod 8388608)
            && (w mod 8388608 <? 4194304)) eqn:E; [|exact Hw].
  apply andb_true_iff in E. destruct E as [E E3].
  apply andb_true_iff in E. destruct E as [E1 E2].
  apply Z.eqb_eq in E1. apply Z.ltb_lt in E2, E3.
  Z.div_mod_to_equations. lia.
Qed.

Lemma quiet_idem (w : Z) : quiet (quiet w) = quiet w.
Proof.
  destruct (((w / 8388608) mod 256 =? 255) && (0 <? w mod 8388608)
            && (w mod 8388608 <? 4194304)) eqn:E.
  - assert (Hq : quiet w = w + 4194304)
      by (cbv beta zeta delta [quiet]; rewrite E; reflexivity).
    rewrite Hq.
    apply andb_true_iff in E. destruct E as [E E3].
    apply andb_true_iff in E. destruct E as [E1 E2].
    apply Z.eqb_eq in E1. apply Z.ltb_lt in E2, E3.
    cbv beta zeta delta [quiet].
    assert (Hm : (w + 4194304) mod 8388608 = w mod 8388608 + 4194304).
    { Z.div_mod_to_equations. lia. }
    rewrite Hm.
    destruct (w mod 8388608 + 4194304 <? 4194304) eqn:E4;
      [apply Z.ltb_lt in E4; lia|].
    rewrite andb_false_r. reflexivity.
  - assert (Hq : quiet w = w)
      by (cbv beta zeta delta [quiet]; rewrite E; reflexivity).
    rewrite !Hq. reflexivity.
Qed.

Lemma f32_to_float_quiet (w : Z) : f32_to_float (quiet w) = f32_to_float w.
Proof.
  destruct (((w / 8388608) mod 256 =? 255) && (0 <? w mod 8388608)
            && (w mod 8388608 <? 4194304)) eqn:E.
  - assert (Hq : quiet w = w + 4194304)
      by (cbv beta zeta delta [quiet]; rewrite E; reflexivity).
    rewrite Hq.
    apply andb_true_iff in E. destruct E as [E E3].
    apply andb_true_iff in E. destruct E as [E1 E2].
    apply Z.eqb_eq in E1. apply Z.ltb_lt in E2, E3.
    cbv beta zeta delta [f32_to_float].
    assert (Hm : (w + 4194304) mod 8388608 = w mod 8388608 + 4194304).
    { Z.div_mod_to_equations. lia. }
    assert (He : (w + 4194304) / 8388608 = w / 8388608).
    { Z.div_mod_to_equations. lia. }
    rewrite Hm, He, E1. cbn [Z.eqb Pos.eqb].
    destruct (w mod 8388608 + 4194304 =? 0) eqn:E4;
      [apply Z.eqb_eq in E4; lia|].
    destruct (w mod 8388608 =? 0) eqn:E5; [apply Z.eqb_eq in E5; lia|].
    rewrite !Z.testbit_odd, !Z.shiftr_div_pow2 by lia.
    replace ((w + 4194304) / 2 ^ 31) with (w / 2 ^ 31); [reflexivity|].
    change (2 ^ 31) with 2147483648. Z.div_mod_to_equations. lia.
  - assert (Hq : quiet w = w)
      by (cbv beta zeta delta [quiet]; rewrite E; reflexivity).
    rewrite Hq. reflexivity.
Qed.

Lemma pack_ff_words (w1 w2 : Z) :
  pack_ff (F32 w1) (F32 w2)
  = Ok (le32_encode (quiet w1) ++ le32_encode (quiet w2)).
Proof. reflexivity. Qed.

Lemma quiet_words_8 (a0 a1 a2 a3 b0 b1 b2 b3 : byte) (rest : bytes) :
  quiet_words (a0 :: a1 :: a2 :: a3 :: b0 :: b1 :: b2 :: b3 :: rest)
  = le32_encode (quiet (le32_decode a0 a1 a2 a3))
    ++ le32_encode (quiet (le32_decode b0 b1 b2 b3)) ++ quiet_words rest.
Proof. reflexivity. Qed.

(** Running a monadic computation whose steps are known to return: each
    known step is replaced by its value. *)
Ltac run_steps :=
  repeat match goal with
         | H : ?m = Ok _ |- context [bind ?m _] => rewrite H; cbn [bind]
         end.

Local Arguments le32_encode : simpl never.
Local Arguments le32_decode : simpl never.

Lemma pack_I_ok (w : Z) : 0 <= w < two32 -> pack_I w = Ok (le32_encode w).
Proof.
  intros H. unfold pack_I, two32 in *.
  destruct (Z.ltb_spec w 0); [lia|].
  destruct (Z.leb_spec 18446744073709551616 w); [lia|].
  destruct (Z.leb_spec 4294967296 w); [lia|]. reflexivity.
Qed.

Lemma pack_I_inv (w : Z) (b : bytes) :
  pack_I w = Ok b -> 0 <= w < two32 /\ b = le32_encode w.
Proof.
  unfold pack_I, two32.
  destruct (Z.ltb_spec w 0); [discriminate|].
  destruct (Z.leb_spec 18446744073709551616 w); [discriminate|].
  destruct (Z.leb_spec 4294967296 w); [discriminate|].
  cbn [orb]. intros E. injection E as <-. split; [lia|reflexivity].
Qed.

(** Beyond the 32 bits of the format [struct.pack] raises [struct.error]. *)
Lemma pack_I_large (w : Z) :
  two32 <= w ->
  pack_I w
  = Raise (StructError
             (if w <? 18446744073709551616
              then "'I' format requires 0 <= number <= 4294967295"
              else "argument out of range")).
Proof.
  intros H. unfold pack_I, two32 in *.
  destruct (Z.ltb_spec w 0); [lia|].
  destruct (Z.leb_spec 18446744073709551616 w);
    destruct (Z.ltb_spec w 18446744073709551616); try lia; cbn [orb];
    [reflexivity|].
  destruct (Z.leb_spec 4294967296 w); [reflexivity|lia].
Qed.

(* ================================================================== *)
(** * The point-set codec *)

Lemma skipn_add {A : Type} (n k : nat) (l : list A) :
  skipn (n + k) l = skipn k (skipn n l).
Proof. rewrite skipn_skipn. f_equal. lia. Qed.

Lemma read_points_spec : forall count data offset,
  (8 * count <= length (skipn offset data))%nat ->
  exists pts,
    (forall acc, PointSet.read_points data count offset acc = Ok (acc ++ pts)) /\
    length pts = count /\
    Forall (fun p => is_word (fst p) /\ is_word (snd p)) pts /\
    (forall buf, PointSet.pack_points pts buf
                 = Ok (buf ++ quiet_words (firstn (8 * count)
                                                  (skipn offset data)))) /\
    (forall i, (i < count)%nat ->
       exists p, unpack_from_ff data (offset + 8 * i) = Ok p /\
                 nth_error pts i = Some p).
Proof.
  induction count as [|c IH]; intros data offset Hlen.
  - exists []. repeat split.
    + intros acc. simpl. rewrite app_nil_r. reflexivity.
    + constructor.
    + intros buf. simpl. rewrite app_nil_r. reflexivity.
    + intros i Hi. lia.
  - destruct (skipn offset data)
      as [|a0 [|a1 [|a2 [|a3 [|b0 [|b1 [|b2 [|b3 rest]]]]]]]] eqn:Esk;
      simpl in Hlen; try lia.
    assert (Erest : skipn (offset + 8) data = rest).
    { rewrite skipn_add, Esk. reflexivity. }
    destruct (IH data (offset + 8)%nat) as (pts & Hread & Hl & Hwf & Hpack & Hidx).
    { rewrite Erest. lia. }
    set (p := (F32 (quiet (le32_decode a0 a1 a2 a3)),
               F32 (quiet (le32_decode b0 b1 b2 b3)))).
    assert (Hun : unpack_from_ff data offset = Ok p).
    { unfold unpack_from_ff. rewrite Esk. reflexivity. }
    exists (p :: pts). repeat split.
    + intros acc. simpl. rewrite Hun. simpl. rewrite Hread, <- app_assoc.
      reflexivity.
    + simpl. congruence.
    + constructor; [|exact Hwf].
      split; cbn [p fst snd is_word];
        (split; [apply quiet_range, le32_decode_range|apply quiet_idem]).
    + intros buf. unfold p. cbn [PointSet.pack_points].
      rewrite pack_ff_words, !quiet_idem. cbn [bind].
      rewrite Hpack, Erest, <- !app_assoc.
      replace (8 * S c)%nat with (8 + 8 * c)%nat by lia.
      cbn [Nat.add firstn]. rewrite quiet_words_8. reflexivity.
    + intros [|i] Hi.
      * exists p. rewrite Nat.mul_0_r, Nat.add_0_r. split; [exact Hun|reflexivity].
      * destruct (Hidx i) as (q & Hq1 & Hq2); [lia|].
        exists q. split; [|exact Hq2].
        replace (offset + 8 * S i)%nat with (offset + 8 + 8 * i)%nat by lia.
        exact Hq1.
Qed.

(** What [_build_from_bytes] does on every buffer. *)
Lemma build_from_bytes_spec (data : bytes) :
  (Z.of_nat (length data) < 4 /\
   PointSet._build_from_bytes data
   = Raise (ValueError "buffer too short to contain point count"))
  \/
  (exists count, unpack_from_I data 0 = Ok count /\ 0 <= count < two32 /\
     4 <= Z.of_nat (length data) /\
     ((Z.of_nat (length data) < 4 + count * 8 /\
       PointSet._build_from_bytes data = Raise (ValueError "buffer too short"))
      \/
      (4 + count * 8 <= Z.of_nat (length data) /\
       PointSet._build_from_bytes data
       = PointSet.read_points data (Z.to_nat count) 4 []))).
Proof.
  unfold PointSet._build_from_bytes.
  destruct (Z.ltb_spec (Z.of_nat (length data)) 4) as [Hs|Hs].
  - left. split; [exact Hs|reflexivity].
  - right. unfold unpack_from_I. simpl skipn.
    destruct data as [|b0 [|b1 [|b2 [|b3 rest]]]]; simpl in Hs; try lia.
    exists (le32_decode b0 b1 b2 b3). split; [reflexivity|].
    split; [apply le32_decode_range|]. split; [simpl; lia|].
    cbv beta iota delta [bind].
    change (Z.of_nat 4) with 4.
    destruct (Z.ltb_spec (Z.of_nat (length (b0 :: b1 :: b2 :: b3 :: rest)))
                         (4 + le32_decode b0 b1 b2 b3 * 8)) as [Hc|Hc].
    + left. split; [exact Hc|reflexivity].
    + right. split; [exact Hc|reflexivity].
Qed.

Lemma build_from_bytes_ok (data : bytes) (points : list Point) :
  PointSet._build_from_bytes data = Ok points ->
  exists count,
    unpack_from_I data 0 = Ok count /\
    Z.of_nat (length points) = count /\
    4 + count * 8 <= Z.of_nat (length data) /\
    decoded_points points /\
    PointSet.encode points
    = Ok (quiet_buffer (firstn (4 + 8 * length points) data)) /\
    (forall i, (i < length points)%nat ->
       exists p, unpack_from_ff data (4 + 8 * i) = Ok p /\
                 nth_error points i = Some p).
Proof.
  intros Hb.
  destruct (build_from_bytes_spec data) as [[_ E]|(count & Hc & Hr & Hl & [[_ E]|[Hlen E]])];
    try congruence.
  rewrite E in Hb.
  destruct (read_points_spec (Z.to_nat count) data 4)
    as (pts & Hread & Hn & Hwf & Hpack & Hidx).
  { rewrite length_skipn. lia. }
  rewrite Hread in Hb. simpl in Hb. injection Hb as <-.
  exists count. split; [exact Hc|]. split; [lia|]. split; [exact Hlen|].
  split; [split; [lia|exact Hwf]|]. split.
  - unfold PointSet.encode.
    replace (Z.of_nat (length pts)) with count by lia.
    rewrite pack_I_ok by exact Hr. cbn [bind app].
    rewrite Hpack. f_equal.
    unfold unpack_from_I in Hc. simpl skipn in Hc.
    destruct data as [|b0 [|b1 [|b2 [|b3 rest]]]]; try discriminate.
    injection Hc as <-. rewrite le32_encode_decode. rewrite Hn.
    unfold quiet_buffer. cbn [Nat.add firstn skipn app]. reflexivity.
  - intros i Hi. apply Hidx. lia.
Qed.

Lemma skipn_length_app {A : Type} (l1 l2 : list A) :
  skipn (length l1) (l1 ++ l2) = l2.
Proof.
  induction l1 as [|a l1 IH]; simpl; [reflexivity|exact IH].
Qed.

Lemma unpack_from_I_at (pre tail : bytes) (w : Z) :
  0 <= w < two32 ->
  unpack_from_I (pre ++ le32_encode w ++ tail) (length pre) = Ok w.
Proof.
  intros Hw. unfold unpack_from_I. rewrite skipn_length_app.
  unfold le32_encode. cbn [app]. rewrite le32_decode_encode by exact Hw.
  reflexivity.
Qed.

Lemma pack_read_points : forall p,
  Forall (fun q => is_word (fst q) /\ is_word (snd q)) p ->
  exists body,
    length body = (8 * length p)%nat /\
    (forall buf, PointSet.pack_points p buf = Ok (buf ++ body)) /\
    (forall pre tail acc,
       PointSet.read_points (pre ++ body ++ tail) (length p) (length pre) acc
       = Ok (acc ++ p)).
Proof.
  induction p as [|[x y] p IH]; intros Hwf.
  - exists []. repeat split.
    + intros buf. simpl. rewrite app_nil_r. reflexivity.
    + intros pre tail acc. simpl. rewrite app_nil_r. reflexivity.
  - inversion Hwf as [|q p' [Hx Hy] Hwf' E1]; subst.
    destruct (IH Hwf') as (body & Hlen & Hpack & Hread).
    destruct x as [wx|]; [|contradiction]. destruct y as [wy|]; [|contradiction].
    simpl in Hx, Hy. destruct Hx as [Hx Hqx], Hy as [Hy Hqy].
    exists (le32_encode wx ++ le32_encode wy ++ body). repeat split.
    + rewrite !length_app, !le32_encode_length, Hlen. simpl length. lia.
    + intros buf. cbn [PointSet.pack_points]. rewrite pack_ff_words.
      rewrite Hqx, Hqy.
      cbn [bind]. rewrite Hpack, <- !app_assoc. reflexivity.
    + intros pre tail acc. cbn [PointSet.read_points length].
      assert (Hun : unpack_from_ff
                      (pre ++ (le32_encode wx ++ le32_encode wy ++ body) ++ tail)
                      (length pre) = Ok (F32 wx, F32 wy)).
      { unfold unpack_from_ff. rewrite skipn_length_app.
        unfold le32_encode. cbn [app].
        rewrite !le32_decode_encode by assumption.
        rewrite Hqx, Hqy. reflexivity. }
      rewrite Hun. cbn [bind].
      replace (pre ++ (le32_encode wx ++ le32_encode wy ++ body) ++ tail)
        with ((pre ++ le32_encode wx ++ le32_encode wy) ++ body ++ tail)
        by (rewrite <- !app_assoc; reflexivity).
      replace (length pre + 8)%nat
        with (length (pre ++ le32_encode wx ++ le32_encode wy))
        by (rewrite !length_app, !le32_encode_length; lia).
      rewrite Hread, <- app_assoc. reflexivity.
Qed.

(** Encoding a decoded collection succeeds, and decoding what it gives,
    whatever follows it in the buffer, gives the collection back. *)
Lemma encode_decoded_points (p : list Point) :
  decoded_points p ->
  exists buf,
    PointSet.encode p = Ok buf /\
    length buf = (4 + 8 * length p)%nat /\
    forall tail, PointSet._build_from_bytes (buf ++ tail) = Ok p.
Proof.
  intros [Hn Hwf].
  destruct (pack_read_points p Hwf) as (body & Hlen & Hpack & Hread).
  assert (Hr : 0 <= Z.of_nat (length p) < two32) by lia.
  exists (le32_encode (Z.of_nat (length p)) ++ body). split; [|split].
  - unfold PointSet.encode. rewrite pack_I_ok by exact Hr.
    cbn [bind app]. apply Hpack.
  - rewrite length_app, le32_encode_length, Hlen. reflexivity.
  - intros tail.
    destruct (build_from_bytes_spec
                ((le32_encode (Z.of_nat (length p)) ++ body) ++ tail))
      as [[Hs _]|(count & Hc & _ & _ & Hcase)].
    + rewrite !length_app, le32_encode_length in Hs. lia.
    + pose proof (unpack_from_I_at [] (body ++ tail) _ Hr) as Hu.
      cbn [app length] in Hu. rewrite <- app_assoc in Hc.
      rewrite Hu in Hc. injection Hc as <-.
      destruct Hcase as [[Hs _]|[_ E]].
      * rewrite !length_app, le32_encode_length, Hlen in Hs. lia.
      * rewrite E, Nat2Z.id, <- app_assoc.
        change 4%nat with (length (le32_encode (Z.of_nat (length p)))) at 1.
        rewrite Hread. reflexivity.
Qed.

Lemma store_get_alloc (s : store) (l : list Point) :
  store_get (snd (store_alloc s l)) (fst (store_alloc s l)) = Ok l.
Proof.
  unfold store_alloc, store_get. simpl.
  rewrite nth_error_app2 by lia. rewrite Nat.sub_diag. reflexivity.
Qed.

Lemma store_get_lt (s : store) (r : ref) (l : list Point) :
  store_get s r = Ok l -> (r < length s)%nat.
Proof.
  unfold store_get. destruct (nth_error s r) eqn:E; [|discriminate].
  intros _. apply nth_error_Some. congruence.
Qed.

Lemma PointSet_init_ok (data : bytes) (s s' : store) (ps : PointSet.t) :
  PointSet.init data s = (Ok ps, s') ->
  exists p, PointSet._build_from_bytes data = Ok p /\
            store_get s' (PointSet.points ps) = Ok p /\
            s' = s ++ [p].
Proof.
  unfold PointSet.init.
  destruct (PointSet._build_from_bytes data) as [p|e]; [|discriminate].
  intros H. injection H as <- <-. exists p. split; [reflexivity|].
  split; [apply (store_get_alloc s p)|reflexivity].
Qed.

(** C5: decoding fails with [MalformedBuffer] exactly when the buffer is
    shorter than 4 bytes or shorter than 4 + count*8 bytes, count being the
    little-endian word at offset 0, and it fails in no other way; when it
    succeeds it returns count points, the i-th being the two binary32 words
    at offset 4 + 8*i widened to doubles, whatever their values (of a
    signalling NaN the widening is the quiet NaN of the same sign and
    payload), so that a NaN and an infinity come out as the NaN and the
    infinity they are. *)
Theorem C5_decode_malformed_iff_short (data : bytes) :
  ((Z.of_nat (length data) < 4 \/
    exists count, unpack_from_I data 0 = Ok count /\
                  Z.of_nat (length data) < 4 + count * 8)
   <-> exists e, PointSet._build_from_bytes data = Raise e /\ MalformedBuffer e)
  /\ (forall e, PointSet._build_from_bytes data = Raise e -> MalformedBuffer e)
  /\ (forall points, PointSet._build_from_bytes data = Ok points ->
        exists count,
          unpack_from_I data 0 = Ok count /\
          Z.of_nat (length points) = count /\
          forall i, (i < length points)%nat ->
            exists p, unpack_from_ff data (4 + 8 * i) = Ok p /\
                      nth_error points i = Some p)
  /\ (forall offset p, unpack_from_ff data offset = Ok p ->
        exists wx wy, unpack_from_I data offset = Ok wx /\
                      unpack_from_I data (offset + 4) = Ok wy /\
                      p = (F32 (quiet wx), F32 (quiet wy)) /\
                      coords p = (f32_to_float wx, f32_to_float wy))
  /\ (exists x y, PointSet._build_from_bytes nan_inf_buf = Ok [(x, y)] /\
                  is_nan (fval x) = true /\ fval y = infinity).
Proof.
  pose proof (build_from_bytes_spec data) as Hspec.
  split; [|split; [|split; [|split]]].
  - split.
    + intros [Hs|(count & Hc & Hs)].
      * destruct Hspec as [[_ E]|(c & _ & _ & Hl & _)]; [|lia].
        eexists. split; [exact E|left; reflexivity].
      * destruct Hspec as [[_ E]|(c & Hc' & _ & _ & [[_ E]|[Hl _]])].
        -- eexists. split; [exact E|left; reflexivity].
        -- eexists. split; [exact E|right; reflexivity].
        -- rewrite Hc in Hc'. injection Hc' as <-. lia.
    + intros (e & He & _).
      destruct Hspec as [[Hs _]|(c & Hc & _ & _ & [[Hs _]|[Hl E]])].
      * left. exact Hs.
      * right. exists c. split; assumption.
      * exfalso. rewrite E in He.
        destruct (read_points_spec (Z.to_nat c) data 4) as (pts & Hread & _).
        { rewrite length_skipn. lia. }
        rewrite Hread in He. discriminate.
  - intros e He.
    destruct Hspec as [[_ E]|(c & Hc & _ & _ & [[_ E]|[Hl E]])].
    + left. congruence.
    + right. congruence.
    + exfalso. rewrite E in He.
      destruct (read_points_spec (Z.to_nat c) data 4) as (pts & Hread & _).
      { rewrite length_skipn. lia. }
      rewrite Hread in He. discriminate.
  - intros points Hb.
    destruct (build_from_bytes_ok data points Hb)
      as (count & Hc & Hn & _ & _ & _ & Hidx).
    exists count. split; [exact Hc|]. split; [exact Hn|exact Hidx].
  - intros offset p. unfold unpack_from_ff, unpack_from_I.
    rewrite skipn_add.
    destruct (skipn offset data)
      as [|a0 [|a1 [|a2 [|a3 [|b0 [|b1 [|b2 [|b3 rest]]]]]]]];
      try discriminate.
    intros H. injection H as <-. do 2 eexists.
    split; [reflexivity|]. split; [reflexivity|]. split; [reflexivity|].
    unfold coords. cbn [fst snd fval]. rewrite !f32_to_float_quiet.
    reflexivity.
  - exists (F32 2143289344), (F32 2139095040).
    split; [vm_compute; reflexivity|]. split; vm_compute; reflexivity.
Qed.

(** C6 (amended): when a buffer decodes, re-encoding the decoded collection
    succeeds and decoding the result gives the collection back; and when
    the buffer has no bytes beyond the points it declares, re-encoding gives
    the buffer with every signalling-NaN coordinate word made quiet, which
    is the buffer itself, byte for byte, when no coordinate word is a
    signalling NaN. *)
Theorem C6_pointset_round_trip
        (data : bytes) (s s' : store) (ps : PointSet.t) :
  PointSet.init data s = (Ok ps, s') ->
  exists p buf,
    store_get s' (PointSet.points ps) = Ok p /\
    PointSet.to_bytes ps s' = Ok buf /\
    PointSet._build_from_bytes buf = Ok p /\
    (no_trailing_bytes data -> buf = quiet_buffer data) /\
    (no_trailing_bytes data -> no_signalling_nan data -> buf = data).
Proof.
  intros Hinit.
  destruct (PointSet_init_ok _ _ _ _ Hinit) as (p & Hb & Hget & _).
  destruct (build_from_bytes_ok data p Hb)
    as (count & Hc & Hn & Hlen & Hdec & Henc & _).
  destruct (encode_decoded_points p Hdec) as (buf & Henc' & _ & Hround).
  assert (Hq : no_trailing_bytes data -> buf = quiet_buffer data).
  { intros (count' & Hc' & Hexact).
    rewrite Hc in Hc'. injection Hc' as <-.
    assert (Hbuf : buf = quiet_buffer (firstn (4 + 8 * length p) data))
      by congruence.
    rewrite Hbuf. f_equal. apply firstn_all2. lia. }
  exists p, buf. split; [exact Hget|]. split; [|split; [|split]].
  - unfold PointSet.to_bytes. rewrite Hget. exact Henc'.
  - specialize (Hround []). rewrite app_nil_r in Hround. exact Hround.
  - exact Hq.
  - intros Hnt Hns. rewrite (Hq Hnt). exact Hns.
Qed.

Lemma C6_pointset_round_trip_witness :
  exists p buf,
    store_get three_points_store (PointSet.points three_points_ps) = Ok p /\
    PointSet.to_bytes three_points_ps three_points_store = Ok buf /\
    PointSet._build_from_bytes buf = Ok p /\
    (no_trailing_bytes three_points_buf -> buf = quiet_buffer three_points_buf) /\
    (no_trailing_bytes three_points_buf ->
     no_signalling_nan three_points_buf -> buf = three_points_buf).
Proof.
  apply (C6_pointset_round_trip three_points_buf [] three_points_store
                                three_points_ps).
  vm_compute. reflexivity.
Defined.

(** C6 as stated fails on the 12-byte buffer of one point whose first
    coordinate is the signalling NaN [0x7fa00000]: the buffer decodes and
    has no trailing bytes, and re-encoding gives the word [0x7fe00000]. *)
Lemma C6_signalling_nan_not_reproduced :
  no_trailing_bytes snan_buf /\
  exists ps s' buf,
    PointSet.init snan_buf [] = (Ok ps, s') /\
    PointSet.to_bytes ps s' = Ok buf /\
    buf = bytes_of_Zs [1;0;0;0;  0;0;224;127; 0;0;0;0] /\
    buf <> snan_buf.
Proof.
  split.
  - exists 1. split; vm_compute; reflexivity.
  - exists {| PointSet.points := 0%nat |},
      [[(F32 2145386496, F32 0)]],
      (bytes_of_Zs [1;0;0;0;  0;0;224;127; 0;0;0;0]).
    split; [vm_compute; reflexivity|]. split; [vm_compute; reflexivity|].
    split; [reflexivity|]. vm_compute. discriminate.
Qed.

(* ================================================================== *)
(** * Sorting index tuples *)

Lemma insert_sorted_perm (x : Z) (l : list Z) :
  Permutation (insert_sorted x l) (x :: l).
Proof.
  induction l as [|y l IH]; simpl; [reflexivity|].
  destruct (x <=? y); [reflexivity|].
  rewrite IH. apply perm_swap.
Qed.

Lemma sorted_perm (l : list Z) : Permutation (sorted l) l.
Proof.
  induction l as [|x l IH]; simpl; [reflexivity|].
  rewrite insert_sorted_perm. constructor. exact IH.
Qed.

Lemma insert_sorted_sorted (x : Z) (l : list Z) :
  StronglySorted Z.le l -> StronglySorted Z.le (insert_sorted x l).
Proof.
  induction 1 as [|y l Hs IH Hall]; simpl.
  - repeat constructor.
  - destruct (Z.leb_spec x y) as [Hxy|Hxy].
    + constructor; [constructor; assumption|].
      constructor; [exact Hxy|].
      eapply Forall_impl; [|exact Hall]. simpl. intros; lia.
    + constructor; [exact IH|].
      eapply Permutation_Forall; [symmetry; apply insert_sorted_perm|].
      constructor; [lia|exact Hall].
Qed.

Lemma sorted_sorted (l : list Z) : StronglySorted Z.le (sorted l).
Proof.
  induction l as [|x l IH]; simpl; [constructor|].
  apply insert_sorted_sorted. exact IH.
Qed.

Lemma strongly_sorted_unique : forall l1 l2,
  StronglySorted Z.le l1 -> StronglySorted Z.le l2 ->
  Permutation l1 l2 -> l1 = l2.
Proof.
  induction l1 as [|a l1 IH]; intros l2 H1 H2 Hp.
  - apply Permutation_nil in Hp. congruence.
  - destruct l2 as [|b l2].
    + apply Permutation_sym, Permutation_nil in Hp. discriminate.
    + inversion H1 as [|? ? H1' Ha]; subst.
      inversion H2 as [|? ? H2' Hb]; subst.
      assert (Hab : a = b).
      { assert (Hin1 : In a (b :: l2))
          by (eapply Permutation_in; [exact Hp|left; reflexivity]).
        assert (Hin2 : In b (a :: l1))
          by (eapply Permutation_in; [symmetry; exact Hp|left; reflexivity]).
        rewrite Forall_forall in Ha, Hb.
        destruct Hin1 as [->|Hin1]; [reflexivity|].
        destruct Hin2 as [->|Hin2]; [reflexivity|].
        specialize (Ha _ Hin2). specialize (Hb _ Hin1). lia. }
      subst b. f_equal. apply IH; try assumption.
      eapply Permutation_cons_inv. exact Hp.
Qed.

Lemma sorted_eq_iff_perm (l1 l2 : list Z) :
  sorted l1 = sorted l2 <-> Permutation l1 l2.
Proof.
  split.
  - intros H. rewrite <- (sorted_perm l1), <- (sorted_perm l2), H. reflexivity.
  - intros H. apply strongly_sorted_unique; try apply sorted_sorted.
    rewrite !sorted_perm. exact H.
Qed.

(* ================================================================== *)
(** * Validation of a candidate triangle list *)

Lemma nodup_length_iff (l : list Z) :
  length (nodup Z.eq_dec l) = length l <-> NoDup l.
Proof.
  split.
  - intros H. apply (@NoDup_incl_NoDup Z (nodup Z.eq_dec l)).
    + apply NoDup_nodup.
    + lia.
    + intros x Hx. apply nodup_In in Hx. exact Hx.
  - intros H. rewrite nodup_fixed_point by exact H. reflexivity.
Qed.

Lemma NoDup3 (i j k : Z) : NoDup [i; j; k] <-> i <> j /\ j <> k /\ i <> k.
Proof.
  split.
  - intros H. inversion H as [|? ? Hi H']; subst.
    inversion H' as [|? ? Hj _]; subst. simpl in Hi, Hj.
    intuition congruence.
  - intros (Hij & Hjk & Hik). repeat constructor; simpl; intuition congruence.
Qed.

Lemma distinct3_spec (i j k : Z) :
  (Z.of_nat (length (nodup Z.eq_dec [i; j; k])) =? 3)
  = negb ((i =? j) || (j =? k) || (i =? k)).
Proof.
  apply eq_true_iff_eq.
  rewrite Z.eqb_eq, negb_true_iff, !orb_false_iff, !Z.eqb_neq.
  rewrite and_assoc, <- NoDup3, <- nodup_length_iff.
  simpl length. lia.
Qed.

Lemma range3_spec (nb i j k : Z) :
  ((i <? 0) || (i >=? nb)) || ((j <? 0) || (j >=? nb))
  || ((k <? 0) || (k >=? nb))
  = existsb (fun v => (v <? 0) || (nb <=? v)) [i; j; k].
Proof.
  cbn [existsb]. rewrite !Z.geb_leb, orb_false_r, !orb_assoc. reflexivity.
Qed.

Lemma seen_of_nil : seen_of [] [].
Proof.
  intros key. split; [intros []|intros (u & [] & _)].
Qed.

Lemma seen_of_add (accepted seen : list (list Z)) (t : list Z) :
  seen_of accepted seen -> seen_of (accepted ++ [t]) (sorted t :: seen).
Proof.
  intros H key. split.
  - intros [<-|Hin].
    + exists t. split; [apply in_or_app; right; left; reflexivity|reflexivity].
    + apply H in Hin. destruct Hin as (u & Hu & E).
      exists u. split; [apply in_or_app; left; exact Hu|exact E].
  - intros (u & Hu & E). apply in_app_or in Hu. destruct Hu as [Hu|[<-|[]]].
    + right. apply H. exists u. split; assumption.
    + left. exact E.
Qed.

Lemma seen_lookup (accepted seen : list (list Z)) (t : list Z) :
  seen_of accepted seen ->
  existsb (fun k' => if list_eq_dec Z.eq_dec (sorted t) k' then true else false)
          seen
  = existsb (fun u => if list_eq_dec Z.eq_dec (sorted t) (sorted u)
                      then true else false) accepted.
Proof.
  intros H. apply eq_true_iff_eq. rewrite !existsb_exists. split.
  - intros (k' & Hin & E). destruct (list_eq_dec _ _ _) as [->|]; [|discriminate].
    apply H in Hin. destruct Hin as (u & Hu & Eu). exists u. split; [exact Hu|].
    rewrite Eu. destruct (list_eq_dec _ _ _); congruence.
  - intros (u & Hu & E). destruct (list_eq_dec _ _ _) as [Eq|]; [|discriminate].
    exists (sorted u). split.
    + apply H. exists u. split; [exact Hu|reflexivity].
    + rewrite Eq. destruct (list_eq_dec _ _ _); congruence.
Qed.

Section Validation.

Variables (s : store) (pointset : PointSet.t) (pts : list Point).
Hypothesis Hget : store_get s (PointSet.points pointset) = Ok pts.

Let nb_points : Z := Z.of_nat (length pts).

(** The four checks on one candidate, as the loop body runs them. *)
Lemma validate_one (accepted seen : list (list Z)) (t : list Z)
      (rest : list (list Z)) :
  seen_of accepted seen ->
  Triangles.validate_loop s pointset (t :: rest) seen
  = match first_violation nb_points accepted t with
    | Some e => Raise e
    | None => Triangles.validate_loop s pointset rest (sorted t :: seen)
    end.
Proof.
  intros Hseen. cbn [Triangles.validate_loop]. rewrite Hget.
  unfold first_violation, Triangles._validate_indices_number.
  destruct t as [|i [|j [|k [|l r]]]]; try reflexivity.
  - cbn [length Nat.eqb negb bind Z.of_nat Z.eqb Pos.of_succ_nat Pos.succ
         Pos.eqb].
    unfold Triangles._validate_indices_in_range, Triangles.unpack3.
    cbn [bind]. fold nb_points. rewrite range3_spec.
    destruct (existsb _ [i; j; k]); [reflexivity|]. cbn [bind].
    unfold Triangles._validate_distinct_vertices.
    rewrite distinct3_spec, negb_involutive.
    destruct ((i =? j) || (j =? k) || (i =? k)); [reflexivity|].
    cbn [bind]. unfold Triangles._validate_not_duplicate, Triangles.unpack3.
    cbn [bind]. rewrite (seen_lookup accepted seen [i; j; k] Hseen).
    destruct (existsb _ accepted); reflexivity.
  - cbn [length]. destruct (Z.eqb_spec (Z.of_nat (S (S (S (S (length r)))))) 3);
      [lia|reflexivity].
Qed.

Lemma validate_loop_spec : forall triangles accepted seen,
  seen_of accepted seen ->
  Triangles.validate_loop s pointset triangles seen
  = match first_error nb_points accepted triangles with
    | Some e => Raise e
    | None => Ok tt
    end.
Proof.
  induction triangles as [|t rest IH]; intros accepted seen Hseen.
  - reflexivity.
  - rewrite (validate_one accepted seen t rest Hseen). cbn [first_error].
    destruct (first_violation nb_points accepted t); [reflexivity|].
    apply IH. apply seen_of_add. exact Hseen.
Qed.

Lemma init_spec (triangles : list (list Z)) :
  Triangles.init s pointset triangles
  = match first_error nb_points [] triangles with
    | Some e => Raise e
    | None => Ok {| Triangles.pointset := pointset;
                    Triangles.triangles := triangles |}
    end.
Proof.
  unfold Triangles.init, Triangles._validate_triangles.
  rewrite (validate_loop_spec triangles [] [] seen_of_nil).
  destruct (first_error nb_points [] triangles); reflexivity.
Qed.

End Validation.

Lemma first_violation_none (nb : Z) (accepted : list (list Z)) (t : list Z) :
  first_violation nb accepted t = None <->
  valid_triangle nb t /\ Forall (fun u => ~ Permutation u t) accepted.
Proof.
  unfold first_violation, valid_triangle.
  destruct (Nat.eqb_spec (length t) 3) as [Hlen|Hlen]; cbn [negb].
  2: { split; [discriminate|]. intros [[H _] _]. contradiction. }
  destruct (existsb (fun v => (v <? 0) || (nb <=? v)) t) eqn:Er.
  { split; [discriminate|]. intros [(_ & Hr & _) _]. exfalso.
    apply existsb_exists in Er. destruct Er as (v & Hv & Hb).
    rewrite Forall_forall in Hr. specialize (Hr v Hv).
    apply orb_true_iff in Hb. destruct Hb as [Hb|Hb]; lia. }
  assert (Hrange : Forall (fun v => 0 <= v < nb) t).
  { apply Forall_forall. intros v Hv.
    destruct (Z.ltb_spec v 0) as [H0|H0], (Z.leb_spec nb v) as [H1|H1];
      try lia;
      exfalso; (assert (Ht : existsb (fun v => (v <? 0) || (nb <=? v)) t = true);
                [apply existsb_exists; exists v; split; [exact Hv|];
                 apply orb_true_iff; lia | congruence]). }
  destruct t as [|i [|j [|k [|l r]]]]; try discriminate Hlen.
  destruct ((i =? j) || (j =? k) || (i =? k)) eqn:Ed.
  { split; [discriminate|]. intros [(_ & _ & Hd) _]. exfalso.
    apply NoDup3 in Hd. rewrite !orb_true_iff, !Z.eqb_eq in Ed. tauto. }
  assert (Hnd : NoDup [i; j; k]).
  { apply NoDup3. rewrite !orb_false_iff, !Z.eqb_neq in Ed. tauto. }
  destruct (existsb _ accepted) eqn:Edup.
  - split; [discriminate|]. intros [_ Hacc]. exfalso.
    apply existsb_exists in Edup. destruct Edup as (u & Hu & E).
    destruct (list_eq_dec _ _ _) as [Eq|]; [|discriminate].
    rewrite Forall_forall in Hacc. apply (Hacc u Hu).
    apply sorted_eq_iff_perm. congruence.
  - split; [|reflexivity]. intros _. split; [tauto|].
    apply Forall_forall. intros u Hu Hp.
    assert (Ht : existsb (fun u => if list_eq_dec Z.eq_dec (sorted [i; j; k])
                                                  (sorted u)
                                   then true else false) accepted = true).
    { apply existsb_exists. exists u. split; [exact Hu|].
      apply sorted_eq_iff_perm in Hp.
      destruct (list_eq_dec _ _ _); congruence. }
    congruence.
Qed.

Lemma first_error_none (nb : Z) : forall triangles accepted,
  first_error nb accepted triangles = None <->
  Forall (valid_triangle nb) triangles /\
  ForallOrdPairs (fun t1 t2 => ~ Permutation t1 t2) triangles /\
  Forall (fun t => Forall (fun u => ~ Permutation u t) accepted) triangles.
Proof.
  induction triangles as [|t rest IH]; intros accepted.
  - split; [intros _|reflexivity]. repeat constructor.
  - cbn [first_error].
    destruct (first_violation nb accepted t) eqn:Ev.
    + split; [discriminate|]. intros (Hv & _ & Ha). exfalso.
      inversion Hv; subst. inversion Ha; subst.
      assert (first_violation nb accepted t = None)
        by (apply first_violation_none; split; assumption).
      congruence.
    + apply first_violation_none in Ev. destruct Ev as [Hvt Hat].
      rewrite IH. split.
      * intros (Hv & Hord & Ha). split; [constructor; assumption|]. split.
        -- constructor; [|exact Hord].
           eapply Forall_impl; [|exact Ha]. intros t' Ht'.
           apply Forall_app in Ht'. destruct Ht' as [_ Ht'].
           inversion Ht'; subst. assumption.
        -- constructor; [exact Hat|].
           eapply Forall_impl; [|exact Ha]. intros t' Ht'.
           apply Forall_app in Ht'. tauto.
      * intros (Hv & Hord & Ha).
        inversion Hv; subst. inversion Hord; subst. inversion Ha; subst.
        split; [assumption|]. split; [assumption|].
        apply Forall_forall. intros t' Ht'. apply Forall_app. split.
        -- match goal with
           | H : Forall (fun t => Forall _ accepted) rest |- _ =>
               rewrite Forall_forall in H; apply H; exact Ht'
           end.
        -- constructor; [|constructor].
           match goal with
           | H : Forall (fun t2 => ~ Permutation t _) rest |- _ =>
               rewrite Forall_forall in H; apply H; exact Ht'
           | H : Forall _ rest |- _ =>
               rewrite Forall_forall in H; apply H; exact Ht'
           end.
Qed.

(** The constructor accepts exactly the lists that satisfy the mesh
    invariants. *)
Lemma init_ok_iff (s : store) (pointset : PointSet.t) (pts : list Point)
      (triangles : list (list Z)) :
  store_get s (PointSet.points pointset) = Ok pts ->
  (mesh_invariants (Z.of_nat (length pts)) triangles <->
   Triangles.init s pointset triangles
   = Ok {| Triangles.pointset := pointset;
           Triangles.triangles := triangles |}).
Proof.
  intros Hget. rewrite (init_spec s pointset pts Hget).
  unfold mesh_invariants. split.
  - intros [Hv Hord].
    assert (E : first_error (Z.of_nat (length pts)) [] triangles = None).
    { apply first_error_none. split; [exact Hv|]. split; [exact Hord|].
      apply Forall_forall. intros; constructor. }
    rewrite E. reflexivity.
  - destruct (first_error _ [] triangles) eqn:E; [discriminate|].
    intros _. apply first_error_none in E. tauto.
Qed.

Lemma init_ok_inv (s : store) (pointset : PointSet.t) (pts : list Point)
      (triangles : list (list Z)) (m : Triangles.t) :
  store_get s (PointSet.points pointset) = Ok pts ->
  Triangles.init s pointset triangles = Ok m ->
  m = {| Triangles.pointset := pointset; Triangles.triangles := triangles |}
  /\ mesh_invariants (Z.of_nat (length pts)) triangles.
Proof.
  intros Hget Hinit.
  assert (Hm : m = {| Triangles.pointset := pointset;
                      Triangles.triangles := triangles |}).
  { rewrite (init_spec s pointset pts Hget) in Hinit.
    destruct (first_error _ _ _); congruence. }
  split; [exact Hm|]. apply (init_ok_iff s pointset pts triangles Hget).
  congruence.
Qed.

Lemma first_error_some (nb : Z) : forall triangles accepted e,
  first_error nb accepted triangles = Some e ->
  exists pre t post,
    triangles = pre ++ t :: post /\
    first_error nb accepted pre = None /\
    first_violation nb (accepted ++ pre) t = Some e.
Proof.
  induction triangles as [|t rest IH]; intros accepted e H.
  - discriminate.
  - cbn [first_error] in H.
    destruct (first_violation nb accepted t) as [e'|] eqn:Ev.
    + injection H as <-. exists [], t, rest. rewrite app_nil_r. auto.
    + destruct (IH _ _ H) as (pre & t' & post & -> & Hpre & Ht').
      exists (t :: pre), t', post. split; [reflexivity|]. split.
      * cbn [first_error]. rewrite Ev. exact Hpre.
      * rewrite <- app_assoc in Ht'. exact Ht'.
Qed.

(** C8 (amended): construction checks the candidates one after the other,
    each for the indices count, then the index range, then the distinctness
    of its vertices, then its sorted-index key against the keys of the
    candidates accepted before it, and stops at the first violation; the
    error it reports is the fixed message of the violated invariant, which
    tells why and not which triangle. *)
Theorem C8_validation_order_fail_fast
        (s : store) (pointset : PointSet.t) (pts : list Point)
        (triangles : list (list Z)) :
  store_get s (PointSet.points pointset) = Ok pts ->
  let nb_points := Z.of_nat (length pts) in
  Triangles.init s pointset triangles
  = match first_error nb_points [] triangles with
    | Some e => Raise e
    | None => Ok {| Triangles.pointset := pointset;
                    Triangles.triangles := triangles |}
    end
  /\ (forall e, Triangles.init s pointset triangles = Raise e ->
        (exists pre t post,
           triangles = pre ++ t :: post /\
           first_error nb_points [] pre = None /\
           first_violation nb_points pre t = Some e) /\
        (e = InvalidTriangleIndexCount \/ e = TriangleIndexOutOfRange \/
         e = TriangleNonDistinctVertices \/ e = DuplicateTriangle)).
Proof.
  intros Hget nb_points. split; [apply (init_spec s pointset pts Hget)|].
  intros e He. rewrite (init_spec s pointset pts Hget) in He.
  fold nb_points in He.
  destruct (first_error nb_points [] triangles) as [e'|] eqn:E; [|discriminate].
  injection He as ->.
  destruct (first_error_some _ _ _ _ E) as (pre & t & post & Ht & Hpre & Hv).
  cbn [app] in Hv. split; [exists pre, t, post; auto|].
  unfold first_violation in Hv.
  repeat match type of Hv with
         | (if ?c then _ else _) = _ => destruct c
         end; try discriminate; injection Hv as <-; tauto.
Qed.

Lemma C8_validation_order_fail_fast_witness :
  Triangles.init three_points_store three_points_ps [[0; 1; 2]; [0; 2; 1]]
  = Raise DuplicateTriangle.
Proof.
  destruct (C8_validation_order_fail_fast
              three_points_store three_points_ps three_points
              [[0; 1; 2]; [0; 2; 1]] eq_refl) as [H _].
  exact H.
Defined.

(** C8 as stated fails: the error does not name the triangle that violated
    the invariant.  Two candidate lists whose offending triangles differ
    raise the same error, so no function of the error gives the triangle. *)
Lemma C8_error_does_not_name_triangle :
  ~ exists which : exn -> list Z,
      forall triangles e,
        Triangles.init three_points_store three_points_ps triangles = Raise e ->
        offending_triangle 3 [] triangles = Some (which e).
Proof.
  intros (which & H).
  pose proof (H [[0; 1; 3]] TriangleIndexOutOfRange eq_refl) as H1.
  pose proof (H [[0; 1; 2]; [0; 2; 7]] TriangleIndexOutOfRange eq_refl) as H2.
  vm_compute in H1, H2. congruence.
Qed.

(* ================================================================== *)
(** * The mesh codec *)

Lemma pack_read_triangles : forall triangles,
  Forall (fun t => length t = 3%nat /\ Forall (fun v => 0 <= v < two32) t)
         triangles ->
  exists body,
    length body = (12 * length triangles)%nat /\
    (forall buf, Triangles.pack_triangles triangles buf = Ok (buf ++ body)) /\
    (forall pre tail acc,
       Mesh.read_triangles (pre ++ body ++ tail) (length triangles)
                           (length pre) acc
       = Ok (acc ++ triangles)).
Proof.
  induction triangles as [|t rest IH]; intros Hwf.
  - exists []. repeat split.
    + intros buf. simpl. rewrite app_nil_r. reflexivity.
    + intros pre tail acc. simpl. rewrite app_nil_r. reflexivity.
  - inversion Hwf as [|? ? [Hlen Hr] Hwf']; subst.
    destruct (IH Hwf') as (body & Hbl & Hpack & Hread).
    destruct t as [|i [|j [|k [|l r]]]]; try discriminate Hlen.
    inversion Hr as [|? ? Hi Hr1]; subst.
    inversion Hr1 as [|? ? Hj Hr2]; subst.
    inversion Hr2 as [|? ? Hk _]; subst.
    exists (le32_encode i ++ le32_encode j ++ le32_encode k ++ body).
    repeat split.
    + rewrite !length_app, !le32_encode_length, Hbl. simpl length. lia.
    + intros buf. cbn [Triangles.pack_triangles Triangles.unpack3 bind].
      unfold pack_III. rewrite !pack_I_ok by assumption. cbn [bind].
      rewrite Hpack, <- !app_assoc. reflexivity.
    + intros pre tail acc. cbn [Mesh.read_triangles length].
      assert (Hun : unpack_from_III
                      (pre ++ (le32_encode i ++ le32_encode j ++ le32_encode k
                               ++ body) ++ tail)
                      (length pre) = Ok (i, j, k)).
      { unfold unpack_from_III. rewrite skipn_length_app.
        unfold le32_encode. cbn [app].
        rewrite !le32_decode_encode by assumption. reflexivity. }
      rewrite Hun. cbn [bind].
      replace (pre ++ (le32_encode i ++ le32_encode j ++ le32_encode k ++ body)
                   ++ tail)
        with ((pre ++ le32_encode i ++ le32_encode j ++ le32_encode k)
                ++ body ++ tail)
        by (rewrite <- !app_assoc; reflexivity).
      replace (length pre + 12)%nat
        with (length (pre ++ le32_encode i ++ le32_encode j ++ le32_encode k))
        by (rewrite !length_app, !le32_encode_length; lia).
      rewrite Hread, <- app_assoc. reflexivity.
Qed.

Lemma valid_triangles_words (nb : Z) (triangles : list (list Z)) :
  nb <= two32 ->
  Forall (valid_triangle nb) triangles ->
  Forall (fun t => length t = 3%nat /\ Forall (fun v => 0 <= v < two32) t)
         triangles.
Proof.
  intros Hnb H. eapply Forall_impl; [|exact H].
  intros t (Hlen & Hr & _). split; [exact Hlen|].
  eapply Forall_impl; [|exact Hr]. simpl. intros v Hv. lia.
Qed.

(** C7: for a valid mesh [m] over a decoded point collection, encoding
    succeeds as soon as the number of triangles fits the 32-bit count field,
    and decoding any buffer the encoding gives (points through the point
    codec, then the count and the index triples, then the validating
    construction) rebuilds a mesh with the same points and the same
    triangles in the same order. *)
Theorem C7_mesh_round_trip
        (s : store) (pointset : PointSet.t) (pts : list Point)
        (triangles : list (list Z)) (m : Triangles.t) :
  store_get s (PointSet.points pointset) = Ok pts ->
  decoded_points pts ->
  Triangles.init s pointset triangles = Ok m ->
  (Z.of_nat (length triangles) < two32 ->
   exists buf, Triangles.to_bytes m s = Ok buf) /\
  (forall buf s0,
     Triangles.to_bytes m s = Ok buf ->
     exists m' s1,
       Mesh.decode buf s0 = (Ok m', s1) /\
       store_get s1 (PointSet.points (Triangles.pointset m')) = Ok pts /\
       Triangles.triangles m' = Triangles.triangles m).
Proof.
  intros Hget Hdec Hinit.
  destruct (init_ok_inv s pointset pts triangles m Hget Hinit) as [-> [Hv Hord]].
  destruct (encode_decoded_points pts Hdec) as (pbuf & Henc & Hplen & Hpdec).
  destruct (pack_read_triangles triangles) as (body & Hbl & Hpack & Hread).
  { apply (valid_triangles_words (Z.of_nat (length pts))); [|exact Hv].
    destruct Hdec as [Hn _]. lia. }
  assert (Hto : forall b, pack_I (Z.of_nat (length triangles)) = Ok b ->
                Triangles.to_bytes
                  {| Triangles.pointset := pointset;
                     Triangles.triangles := triangles |} s
                = Ok ((pbuf ++ b) ++ body)).
  { intros b Hb. unfold Triangles.to_bytes, PointSet.to_bytes.
    cbn [Triangles.pointset Triangles.triangles].
    run_steps. apply Hpack. }
  split.
  - intros Hn. eexists. apply Hto. apply pack_I_ok. lia.
  - intros buf s0 Hbuf.
    destruct (pack_I (Z.of_nat (length triangles))) as [b|e] eqn:Eb.
    2: { unfold Triangles.to_bytes, PointSet.to_bytes in Hbuf.
         cbn [Triangles.pointset Triangles.triangles] in Hbuf.
         rewrite Hget in Hbuf. cbn [bind] in Hbuf. rewrite Henc in Hbuf.
         cbn [bind] in Hbuf. rewrite Eb in Hbuf. discriminate. }
    rewrite (Hto b eq_refl) in Hbuf. injection Hbuf as <-.
    apply pack_I_inv in Eb. destruct Eb as [Hn ->].
    set (s1 := s0 ++ [pts]).
    set (ps' := {| PointSet.points := length s0 |}).
    assert (Hget' : store_get s1 (PointSet.points ps') = Ok pts).
    { apply (store_get_alloc s0 pts). }
    exists {| Triangles.pointset := ps'; Triangles.triangles := triangles |}, s1.
    split; [|split; [exact Hget'|reflexivity]].
    unfold Mesh.decode, PointSet.init.
    rewrite <- !app_assoc. rewrite Hpdec.
    cbn [store_alloc]. fold s1. fold ps'. rewrite Hget'. cbn [bind].
    f_equal.
    rewrite <- Hplen.
    rewrite (unpack_from_I_at pbuf body _ Hn).
    rewrite !length_app, le32_encode_length, Hbl.
    destruct (Z.ltb_spec (Z.of_nat (length pbuf + (4 + 12 * length triangles)))
                         (Z.of_nat (length pbuf) + 4)) as [H1|H1]; [lia|].
    cbn [bind].
    destruct (Z.ltb_spec (Z.of_nat (length pbuf + (4 + 12 * length triangles)))
                         (Z.of_nat (length pbuf) + 4
                          + Z.of_nat (length triangles) * 12)) as [H2|H2];
      [lia|].
    rewrite Nat2Z.id.
    replace (pbuf ++ le32_encode (Z.of_nat (length triangles)) ++ body)
      with ((pbuf ++ le32_encode (Z.of_nat (length triangles))) ++ body ++ [])
      by (rewrite app_nil_r, <- app_assoc; reflexivity).
    replace (length pbuf + 4)%nat
      with (length (pbuf ++ le32_encode (Z.of_nat (length triangles))))
      by (rewrite length_app, le32_encode_length; reflexivity).
    rewrite Hread. cbn [bind app].
    apply (init_ok_iff s1 ps' pts triangles Hget'). split; assumption.
Qed.

(* ================================================================== *)
(** * The preconditions of the triangulator *)

Lemma key_in_cons (q p : Point) (seen : list (float * float)) :
  Triangulator.key_in (coords q) (coords p :: seen)
  = points_equal q p || Triangulator.key_in (coords q) seen.
Proof. reflexivity. Qed.

Lemma no_duplicates_loop_spec : forall points seen,
  (Triangulator.no_duplicates_loop points seen = Raise DuplicatePoints /\
   (has_equal_points points \/
    exists q, In q points /\ Triangulator.key_in (coords q) seen = true))
  \/
  (Triangulator.no_duplicates_loop points seen = Ok tt /\
   ~ has_equal_points points /\
   forall q, In q points -> Triangulator.key_in (coords q) seen = false).
Proof.
  induction points as [|[x y] rest IH]; intros seen.
  - right. split; [reflexivity|]. split.
    + intros (i & j & p & q & _ & Hi & _). destruct i; discriminate.
    + intros q [].
  - cbn [Triangulator.no_duplicates_loop].
    change (fval x, fval y) with (coords (x, y)).
    destruct (Triangulator.key_in (coords (x, y)) seen) eqn:Ek.
    + left. split; [reflexivity|]. right. exists (x, y).
      split; [left; reflexivity|exact Ek].
    + destruct (IH (coords (x, y) :: seen))
        as [[E [Hd|(q & Hq & Hk)]]|(E & Hnd & Hk)].
      * left. split; [exact E|]. left.
        destruct Hd as (i & j & p & q & Hij & Hi & Hj & Heq).
        exists (S i), (S j), p, q. split; [lia|]. auto.
      * rewrite key_in_cons in Hk. apply orb_true_iff in Hk.
        left. split; [exact E|]. destruct Hk as [Hk|Hk].
        -- left. apply In_nth_error in Hq. destruct Hq as [j Hj].
           exists 0%nat, (S j), (x, y), q. split; [lia|]. auto.
        -- right. exists q. split; [right; exact Hq|exact Hk].
      * right. split; [exact E|]. split.
        -- intros (i & j & p & q & Hij & Hi & Hj & Heq).
           destruct j as [|j]; [lia|]. cbn [nth_error] in Hj.
           destruct i as [|i].
           ++ cbn [nth_error] in Hi. injection Hi as <-.
              apply nth_error_In in Hj. specialize (Hk q Hj).
              rewrite key_in_cons, Heq in Hk. discriminate.
           ++ apply Hnd. exists i, j, p, q. split; [lia|]. auto.
        -- intros q [<-|Hq]; [exact Ek|].
           specialize (Hk q Hq). rewrite key_in_cons in Hk.
           apply orb_false_iff in Hk. tauto.
Qed.

(** C3 (amended): with fewer than 3 points the construction fails with
    [InsufficientPoints]; with at least 3 points, two of which are equal
    under the float equality [==] on both coordinates (for which a NaN
    equals nothing, itself included, and 0.0 equals -0.0), it fails with
    [DuplicatePoints]; otherwise it succeeds.  The count is checked first,
    so a collection of fewer than 3 points is never reported as
    [DuplicatePoints]. *)
Theorem C3_preconditions_at_construction
        (s : store) (point_set : PointSet.t) (pts : list Point) :
  store_get s (PointSet.points point_set) = Ok pts ->
  (Z.of_nat (length pts) < 3 ->
   Triangulator.init point_set s = Raise InsufficientPoints) /\
  (3 <= Z.of_nat (length pts) -> has_equal_points pts ->
   Triangulator.init point_set s = Raise DuplicatePoints) /\
  (3 <= Z.of_nat (length pts) -> ~ has_equal_points pts ->
   Triangulator.init point_set s
   = Ok {| Triangulator.point_set := point_set |}).
Proof.
  intros Hget. unfold Triangulator.init, Triangulator._validate_min_points,
                 Triangulator._validate_no_duplicates.
  rewrite Hget. cbn [bind].
  destruct (Z.ltb_spec (Z.of_nat (length pts)) 3) as [Hn|Hn].
  - split; [reflexivity|]. split; intros; lia.
  - cbn [bind]. split; [intros; lia|].
    destruct (no_duplicates_loop_spec pts [])
      as [[E [Hd|(q & _ & Hk)]]|(E & Hnd & _)]; rewrite E; cbn [bind].
    + split; [reflexivity|]. intros _ Hnd. contradiction.
    + discriminate Hk.
    + split; [intros _ Hd; contradiction|reflexivity].
Qed.

Lemma C3_preconditions_at_construction_witness :
  Triangulator.init three_points_ps [two_equal_points]
  = Raise InsufficientPoints /\
  Triangulator.init three_points_ps [points_with_duplicate]
  = Raise DuplicatePoints /\
  Triangulator.init three_points_ps [three_points]
  = Ok {| Triangulator.point_set := three_points_ps |}.
Proof.
  split; [|split].
  - destruct (C3_preconditions_at_construction
                [two_equal_points] three_points_ps two_equal_points eq_refl)
      as (H & _ & _).
    apply H. cbn. lia.
  - destruct (C3_preconditions_at_construction
                [points_with_duplicate] three_points_ps points_with_duplicate
                eq_refl) as (_ & H & _).
    apply H; [cbn; lia|].
    exists 1%nat, 2%nat, (F32 1065353216, F32 0), (F32 1065353216, F32 0).
    split; [lia|]. split; [reflexivity|]. split; [reflexivity|].
    vm_compute. reflexivity.
  - destruct (C3_preconditions_at_construction
                [three_points] three_points_ps three_points eq_refl)
      as (_ & _ & H).
    apply H; [cbn; lia|].
    intros (i & j & p & q & Hij & Hi & Hj & Heq).
    assert (Hj3 : (j < 3)%nat)
      by (apply (nth_error_Some three_points j); congruence).
    destruct i as [|[|[|i]]], j as [|[|[|j]]]; try lia; cbn in Hi, Hj;
      injection Hi as <-; injection Hj as <-; vm_compute in Heq;
      discriminate.
Defined.

(** C3 as stated fails on a collection of two equal points: the construction
    fails with [InsufficientPoints], which is not [DuplicatePoints]. *)
Lemma C3_two_equal_points_insufficient :
  has_equal_points two_equal_points /\
  Triangulator.init three_points_ps [two_equal_points]
  = Raise InsufficientPoints /\
  Triangulator.init three_points_ps [two_equal_points]
  <> Raise DuplicatePoints.
Proof.
  split; [|split].
  - exists 0%nat, 1%nat, (F32 0, F32 0), (F32 0, F32 0).
    split; [lia|]. split; [reflexivity|]. split; [reflexivity|].
    vm_compute. reflexivity.
  - vm_compute. reflexivity.
  - vm_compute. discriminate.
Qed.

(* ================================================================== *)
(** * The loops of the triangulation *)

Lemma tri_eqb_spec (a b : Z * Z * Z) :
  Triangulator.tri_eqb a b = true <-> a = b.
Proof.
  destruct a as [[a0 a1] a2], b as [[b0 b1] b2]. unfold Triangulator.tri_eqb.
  rewrite !andb_true_iff, !Z.eqb_eq. split.
  - intros [[-> ->] ->]. reflexivity.
  - intros H. injection H as -> -> ->. auto.
Qed.

Lemma tri_eqb_neq (a b : Z * Z * Z) :
  a <> b -> Triangulator.tri_eqb a b = false.
Proof.
  intros H. destruct (Triangulator.tri_eqb a b) eqn:E; [|reflexivity].
  apply tri_eqb_spec in E. contradiction.
Qed.

Lemma edge_eqb_spec (a b : Z * Z) :
  Triangulator.edge_eqb a b = true <-> a = b.
Proof.
  destruct a as [a0 a1], b as [b0 b1]. unfold Triangulator.edge_eqb.
  cbn [fst snd]. rewrite andb_true_iff, !Z.eqb_eq. split.
  - intros [-> ->]. reflexivity.
  - intros H. injection H as -> ->. auto.
Qed.

Lemma edges_loop_spec (tri : Z * Z * Z) (bad : list (Z * Z * Z)) :
  forall edges polygon,
    Triangulator.edges_loop tri edges bad polygon
    = polygon ++ filter (fun edge =>
                           negb (Triangulator.is_shared
                                   tri (Triangulator.sorted_edge edge) bad))
                        edges.
Proof.
  induction edges as [|e rest IH]; intros polygon; cbn [Triangulator.edges_loop filter].
  - rewrite app_nil_r. reflexivity.
  - rewrite IH.
    destruct (negb (Triangulator.is_shared tri (Triangulator.sorted_edge e) bad)).
    + rewrite <- app_assoc. reflexivity.
    + reflexivity.
Qed.

Lemma polygon_loop_spec (bad : list (Z * Z * Z)) :
  forall todo polygon,
    Triangulator.polygon_loop todo bad polygon
    = polygon ++ flat_map (boundary_edges bad) todo.
Proof.
  induction todo as [|t rest IH]; intros polygon;
    cbn [Triangulator.polygon_loop flat_map].
  - rewrite app_nil_r. reflexivity.
  - rewrite IH, edges_loop_spec, <- app_assoc. reflexivity.
Qed.

Lemma append_loop_spec (i : Z) :
  forall polygon triangulation,
    Triangulator.append_loop polygon i triangulation
    = triangulation ++ map (new_triangle i) polygon.
Proof.
  induction polygon as [|e rest IH]; intros triangulation;
    cbn [Triangulator.append_loop map].
  - rewrite app_nil_r. reflexivity.
  - rewrite IH, <- app_assoc. reflexivity.
Qed.

Lemma cleanup_spec (n : Z) :
  forall triangulation final_triangles,
    Triangulator.cleanup triangulation n final_triangles
    = final_triangles ++ filter (within n) triangulation.
Proof.
  induction triangulation as [|[[t0 t1] t2] rest IH]; intros final;
    cbn [Triangulator.cleanup filter].
  - rewrite app_nil_r. reflexivity.
  - rewrite IH. unfold within at 2.
    destruct (negb (existsb (fun idx => idx >=? n) [t0; t1; t2])).
    + rewrite <- app_assoc. reflexivity.
    + reflexivity.
Qed.

Lemma list_remove_app (t : Z * Z * Z) : forall pre rest,
  ~ In t pre ->
  Triangulator.list_remove t (pre ++ t :: rest) = Ok (pre ++ rest).
Proof.
  induction pre as [|y pre IH]; intros rest Hnin; cbn [app Triangulator.list_remove].
  - assert (E : Triangulator.tri_eqb t t = true) by (apply tri_eqb_spec; reflexivity).
    rewrite E. reflexivity.
  - rewrite tri_eqb_neq by (intros ->; apply Hnin; left; reflexivity).
    rewrite IH by (intros H; apply Hnin; right; exact H). reflexivity.
Qed.

Lemma remove_loop_spec (f : Z * Z * Z -> bool) : forall triangulation pre,
  NoDup triangulation ->
  (forall t, In t triangulation -> f t = true -> ~ In t pre) ->
  Triangulator.remove_loop (filter f triangulation) (pre ++ triangulation)
  = Ok (pre ++ filter (fun t => negb (f t)) triangulation).
Proof.
  induction triangulation as [|t rest IH]; intros pre Hnd Hpre.
  - reflexivity.
  - inversion Hnd as [|? ? Hnin Hnd']; subst. cbn [filter].
    destruct (f t) eqn:Ef; cbn [negb Triangulator.remove_loop].
    + rewrite list_remove_app by (apply Hpre; [left; reflexivity|exact Ef]).
      cbn [bind]. apply IH; [exact Hnd'|].
      intros t' Ht' Hf. apply Hpre; [right; exact Ht'|exact Hf].
    + replace (pre ++ t :: rest) with ((pre ++ [t]) ++ rest)
        by (rewrite <- app_assoc; reflexivity).
      rewrite IH; [rewrite <- app_assoc; reflexivity|exact Hnd'|].
      intros t' Ht' Hf Hin. apply in_app_or in Hin.
      destruct Hin as [Hin|[->|[]]].
      * apply (Hpre t'); [right; exact Ht'|exact Hf|exact Hin].
      * contradiction.
Qed.

(* ================================================================== *)
(** * The working triangulation keeps its invariant *)

Lemma NoDup_map_filter {A B : Type} (g : A -> B) (f : A -> bool) (l : list A) :
  NoDup (map g l) -> NoDup (map g (filter f l)).
Proof.
  induction l as [|x l IH]; cbn [map filter]; intros H; [constructor|].
  inversion H as [|? ? Hnin Hnd]; subst.
  destruct (f x); cbn [map]; [|apply IH; exact Hnd].
  constructor; [|apply IH; exact Hnd].
  intros Hin. apply Hnin. apply in_map_iff in Hin.
  destruct Hin as (y & Hy & Hin). apply filter_In in Hin.
  apply in_map_iff. exists y. tauto.
Qed.

Lemma NoDup_map_coarser {A B C : Type} (g : A -> B) (h : A -> C) (l : list A) :
  (forall x y, In x l -> In y l -> h x = h y -> g x = g y) ->
  NoDup (map g l) -> NoDup (map h l).
Proof.
  induction l as [|x l IH]; cbn [map]; intros Hinj H; [constructor|].
  inversion H as [|? ? Hnin Hnd]; subst. constructor.
  - intros Hin. apply Hnin. apply in_map_iff in Hin.
    destruct Hin as (y & Hy & Hin). apply in_map_iff. exists y.
    split; [|exact Hin].
    apply Hinj; [right; exact Hin|left; reflexivity|exact Hy].
  - apply IH; [|exact Hnd]. intros a b Ha Hb. apply Hinj; right; assumption.
Qed.

Lemma sorted_edge_swap (u v : Z) :
  Triangulator.sorted_edge (u, v) = Triangulator.sorted_edge (v, u).
Proof.
  unfold Triangulator.sorted_edge.
  destruct (Z.ltb_spec v u), (Z.ltb_spec u v); try reflexivity; try lia.
  f_equal; lia.
Qed.

Lemma sorted_edge_pair (u v : Z) :
  Triangulator.sorted_edge (u, v) = (u, v) \/
  Triangulator.sorted_edge (u, v) = (v, u).
Proof.
  unfold Triangulator.sorted_edge. destruct (v <? u); auto.
Qed.

(** Two new triangles over the same point have the same key only if their
    edges are the same unordered pair. *)
Lemma new_triangle_key (i : Z) (e1 e2 : Z * Z) :
  key3 (new_triangle i e1) = key3 (new_triangle i e2) ->
  Triangulator.sorted_edge e1 = Triangulator.sorted_edge e2.
Proof.
  destruct e1 as [u v], e2 as [u' v']. unfold key3, new_triangle.
  cbn [fst snd Triangulator.as_tuple]. intros H.
  apply sorted_eq_iff_perm in H.
  change [u; v; i] with ([u; v] ++ [i]) in H.
  change [u'; v'; i] with ([u'; v'] ++ [i]) in H.
  apply Permutation_app_inv_r in H. apply Permutation_length_2 in H.
  destruct H as [[-> ->]|[-> ->]]; [reflexivity|apply sorted_edge_swap].
Qed.

Lemma key3_In (t : Z * Z * Z) (v : Z) :
  In v (key3 t) <-> In v (Triangulator.as_tuple t).
Proof.
  unfold key3. split; apply Permutation_in;
    [apply sorted_perm|symmetry; apply sorted_perm].
Qed.

Lemma tri_edges_nodup (a b c : Z) :
  a <> b -> b <> c -> a <> c ->
  NoDup (map Triangulator.sorted_edge (Triangulator.tri_edges (a, b, c))).
Proof.
  intros Hab Hbc Hac. cbn [Triangulator.tri_edges map].
  destruct (sorted_edge_pair a b) as [E1|E1],
           (sorted_edge_pair b c) as [E2|E2],
           (sorted_edge_pair c a) as [E3|E3];
    rewrite E1, E2, E3;
    repeat constructor; cbn [In]; intuition congruence.
Qed.

Lemma is_shared_true (t : Z * Z * Z) (x : Z * Z) : forall bad o,
  In o bad -> o <> t ->
  In x (map Triangulator.sorted_edge (Triangulator.tri_edges o)) ->
  Triangulator.is_shared t x bad = true.
Proof.
  induction bad as [|o' rest IH]; intros o Hin Hne Hx; [contradiction|].
  cbn [Triangulator.is_shared].
  destruct (Triangulator.tri_eqb t o') eqn:Et.
  - apply tri_eqb_spec in Et. subst o'. destruct Hin as [->|Hin]; [congruence|].
    eapply IH; eassumption.
  - destruct (existsb (Triangulator.edge_eqb x)
                      (map Triangulator.sorted_edge (Triangulator.tri_edges o')))
             eqn:Ee; [reflexivity|].
    destruct Hin as [->|Hin]; [|eapply IH; eassumption].
    exfalso.
    assert (Ht : existsb (Triangulator.edge_eqb x)
                         (map Triangulator.sorted_edge (Triangulator.tri_edges o))
                 = true).
    { apply existsb_exists. exists x. split; [exact Hx|].
      apply edge_eqb_spec. reflexivity. }
    congruence.
Qed.

Lemma boundary_edges_In (bad : list (Z * Z * Z)) (t : Z * Z * Z) (e : Z * Z) :
  In e (boundary_edges bad t) <->
  In e (Triangulator.tri_edges t) /\
  Triangulator.is_shared t (Triangulator.sorted_edge e) bad = false.
Proof.
  unfold boundary_edges. rewrite filter_In, negb_true_iff. reflexivity.
Qed.

Lemma distinct_of_ok (i n : Z) (t : Z * Z * Z) :
  tri_ok i n t ->
  NoDup (map Triangulator.sorted_edge (Triangulator.tri_edges t)).
Proof.
  destruct t as [[a b] c]. intros [(Hab & Hbc & Hac) _].
  apply tri_edges_nodup; assumption.
Qed.

(** The sorted forms of the boundary edges are all different. *)
Lemma polygon_nodup (i n : Z) (bad : list (Z * Z * Z)) : forall todo,
  NoDup todo -> incl todo bad -> Forall (tri_ok i n) todo ->
  NoDup (map Triangulator.sorted_edge (flat_map (boundary_edges bad) todo)).
Proof.
  induction todo as [|t rest IH]; intros Hnd Hincl Hok; [constructor|].
  inversion Hnd as [|? ? Hnin Hnd']; subst.
  inversion Hok as [|? ? Ht Hok']; subst.
  cbn [flat_map]. rewrite map_app. apply NoDup_app.
  - unfold boundary_edges. apply NoDup_map_filter.
    apply (distinct_of_ok i n). exact Ht.
  - apply IH; [exact Hnd'| |exact Hok'].
    intros x Hx. apply Hincl. right. exact Hx.
  - intros x Hx1 Hx2.
    apply in_map_iff in Hx1. destruct Hx1 as (e1 & <- & He1).
    apply boundary_edges_In in He1. destruct He1 as [_ Hns].
    apply in_map_iff in Hx2. destruct Hx2 as (e2 & E & He2).
    apply in_flat_map in He2. destruct He2 as (t2 & Ht2 & He2).
    apply boundary_edges_In in He2. destruct He2 as [He2 _].
    rewrite (is_shared_true t (Triangulator.sorted_edge e1) bad t2) in Hns.
    + discriminate.
    + apply Hincl. right. exact Ht2.
    + intros ->. contradiction.
    + rewrite <- E. apply in_map. exact He2.
Qed.

Lemma vertex_ok_mono (i n v : Z) : vertex_ok i n v -> vertex_ok (i + 1) n v.
Proof. unfold vertex_ok. lia. Qed.

Lemma tri_ok_mono (i n : Z) (t : Z * Z * Z) : tri_ok i n t -> tri_ok (i + 1) n t.
Proof.
  destruct t as [[a b] c]. intros (Hd & Ha & Hb & Hc).
  split; [exact Hd|]. auto using vertex_ok_mono.
Qed.

Lemma edge_of_ok (i n : Z) (t : Z * Z * Z) (e : Z * Z) :
  tri_ok i n t -> In e (Triangulator.tri_edges t) ->
  fst e <> snd e /\ vertex_ok i n (fst e) /\ vertex_ok i n (snd e).
Proof.
  destruct t as [[a b] c]. intros ((Hab & Hbc & Hac) & Ha & Hb & Hc).
  cbn [Triangulator.tri_edges In].
  intros [<-|[<-|[<-|[]]]]; cbn [fst snd]; auto.
Qed.

Lemma vertices_of_ok (i n : Z) (t : Z * Z * Z) (v : Z) :
  tri_ok i n t -> In v (Triangulator.as_tuple t) -> vertex_ok i n v.
Proof.
  destruct t as [[a b] c]. intros (_ & Ha & Hb & Hc).
  cbn [Triangulator.as_tuple In]. intros [<-|[<-|[<-|[]]]]; assumption.
Qed.

(** One insertion: removing any set of working triangles and connecting
    the boundary edges of the removed ones to the new point keeps the
    invariant. *)
Lemma working_inv_step (f : Z * Z * Z -> bool) (i n : Z)
      (triangulation : list (Z * Z * Z)) :
  0 <= i < n ->
  working_inv i n triangulation ->
  working_inv (i + 1) n
    (filter (fun t => negb (f t)) triangulation
     ++ map (new_triangle i) (polygon_of (filter f triangulation))).
Proof.
  intros Hi [Hok Hnd].
  assert (HndT : NoDup triangulation) by (eapply NoDup_map_inv; exact Hnd).
  assert (Hbad_ok : Forall (tri_ok i n) (filter f triangulation)).
  { rewrite Forall_forall in *. intros t Ht. apply Hok.
    apply filter_In in Ht. tauto. }
  assert (Hedge : forall e, In e (polygon_of (filter f triangulation)) ->
                  fst e <> snd e /\ vertex_ok i n (fst e) /\ vertex_ok i n (snd e)).
  { intros e He. unfold polygon_of in He. apply in_flat_map in He.
    destruct He as (t & Ht & He). apply boundary_edges_In in He.
    rewrite Forall_forall in Hbad_ok.
    apply (edge_of_ok i n t); [apply Hbad_ok; exact Ht|tauto]. }
  split.
  - apply Forall_app. split.
    + rewrite Forall_forall in *. intros t Ht. apply tri_ok_mono, Hok.
      apply filter_In in Ht. tauto.
    + rewrite Forall_forall. intros t Ht. apply in_map_iff in Ht.
      destruct Ht as ([u v] & <- & He). destruct (Hedge _ He) as (Hd & Hu & Hv).
      cbn [fst snd] in *. unfold new_triangle, tri_ok. cbn [fst snd].
      unfold vertex_ok in *. repeat split; lia.
  - rewrite map_app. apply NoDup_app.
    + apply NoDup_map_filter. exact Hnd.
    + rewrite map_map.
      apply (NoDup_map_coarser Triangulator.sorted_edge).
      * intros x y _ _. apply new_triangle_key.
      * apply (polygon_nodup i n).
        -- apply NoDup_filter. exact HndT.
        -- apply incl_refl.
        -- exact Hbad_ok.
    + intros k Hk1 Hk2.
      apply in_map_iff in Hk1. destruct Hk1 as (t & <- & Ht).
      apply in_map_iff in Hk2. destruct Hk2 as (t' & E & Ht').
      apply in_map_iff in Ht'. destruct Ht' as ([u v] & <- & _).
      assert (Hin : In i (key3 t)).
      { rewrite <- E. apply key3_In. cbn. auto. }
      apply key3_In in Hin. apply filter_In in Ht. destruct Ht as [Ht _].
      rewrite Forall_forall in Hok.
      pose proof (vertices_of_ok i n t i (Hok t Ht) Hin) as Hv.
      unfold vertex_ok in Hv. lia.
Qed.


(* ================================================================== *)
(** * Magnitudes of floats

    How far the result of a float operation can be from zero, from the
    definitions of the operations in [SpecFloat]: what the run needs to
    know that a square stays in range. *)

(** ** Digits *)

Lemma digits2_pos_size (p : positive) : digits2_pos p = Pos.size p.
Proof. induction p as [p IH|p IH|]; cbn; congruence. Qed.

Lemma Zdigits2_nonneg (m : Z) : 0 <= Zdigits2 m.
Proof. destruct m; cbn; lia. Qed.

Lemma Zdigits2_lt (m : Z) : 0 <= m -> m < 2 ^ Zdigits2 m.
Proof.
  destruct m as [|p|p]; intros H; [cbn; lia| |lia].
  cbn [Zdigits2]. rewrite digits2_pos_size.
  pose proof (Pos.size_gt p) as Hs.
  rewrite <- Pos2Z.inj_pow. apply Pos2Z.pos_lt_pos. exact Hs.
Qed.

Lemma Zdigits2_ge (p : positive) : 2 ^ (Zdigits2 (Zpos p) - 1) <= Zpos p.
Proof.
  cbn [Zdigits2]. rewrite digits2_pos_size.
  pose proof (Pos.size_le p) as Hs.
  assert (E : 2 ^ Z.pos (Pos.size p) = 2 * 2 ^ (Z.pos (Pos.size p) - 1)).
  { rewrite <- Z.pow_succ_r by lia. f_equal. lia. }
  assert (H2 : 2 ^ Z.pos (Pos.size p) <= Z.pos p~0).
  { rewrite <- Pos2Z.inj_pow. apply Pos2Z.pos_le_pos. exact Hs. }
  rewrite E in H2. lia.
Qed.

Lemma Zdigits2_le (m k : Z) : 0 <= k -> 0 <= m < 2 ^ k -> Zdigits2 m <= k.
Proof.
  intros Hk [H0 Hm]. destruct m as [|p|p]; [cbn; lia| |lia].
  pose proof (Zdigits2_ge p) as Hge.
  assert (Hlt : 2 ^ (Zdigits2 (Z.pos p) - 1) < 2 ^ k) by lia.
  apply Z.pow_lt_mono_r_iff in Hlt; lia.
Qed.

Lemma Zdigits2_succ (m : Z) : 0 <= m -> Zdigits2 (m + 1) <= Zdigits2 m + 1.
Proof.
  intros H. pose proof (Zdigits2_nonneg m) as Hn.
  apply Zdigits2_le; [lia|]. split; [lia|].
  pose proof (Zdigits2_lt m H). rewrite Z.pow_add_r by lia.
  change (2 ^ 1) with 2. lia.
Qed.

Lemma Zdigits2_div (m n : Z) :
  0 <= m -> 0 < n -> Zdigits2 (m / 2 ^ n) <= Z.max 0 (Zdigits2 m - n).
Proof.
  intros Hm Hn. pose proof (Zdigits2_nonneg m) as Hd.
  pose proof (Zdigits2_lt m Hm) as Hlt.
  assert (Hp : 0 < 2 ^ n) by (apply Z.pow_pos_nonneg; lia).
  destruct (Z.le_gt_cases n (Zdigits2 m)) as [Hle|Hgt].
  - rewrite Z.max_r by lia. apply Zdigits2_le; [lia|]. split.
    + apply Z.div_pos; lia.
    + apply Z.div_lt_upper_bound; [exact Hp|].
      rewrite <- Z.pow_add_r by lia.
      replace (n + (Zdigits2 m - n)) with (Zdigits2 m) by lia. exact Hlt.
  - rewrite Z.div_small; [cbn; lia|]. split; [exact Hm|].
    apply (Z.lt_le_trans _ _ _ Hlt). apply Z.pow_le_mono_r; lia.
Qed.

Lemma Zdigits2_mul (a b : Z) :
  0 <= a -> 0 <= b -> Zdigits2 (a * b) <= Zdigits2 a + Zdigits2 b.
Proof.
  intros Ha Hb. pose proof (Zdigits2_nonneg a). pose proof (Zdigits2_nonneg b).
  apply Zdigits2_le; [lia|]. split; [lia|].
  rewrite Z.pow_add_r by lia.
  pose proof (Zdigits2_lt a Ha). pose proof (Zdigits2_lt b Hb).
  apply Z.mul_lt_mono_nonneg; lia.
Qed.

(** ** Shifts *)

Lemma shr_1_m (mrs : shr_record) :
  0 <= shr_m mrs -> shr_m (shr_1 mrs) = shr_m mrs / 2.
Proof.
  destruct mrs as [m r s]. cbn [shr_m]. intros H.
  destruct m as [|[p|p|]|p]; cbn [shr_1 shr_m]; try lia.
  - reflexivity.
  - apply (Z.div_unique (Z.pos p~1) 2 (Z.pos p) 1); lia.
  - apply (Z.div_unique (Z.pos p~0) 2 (Z.pos p) 0); lia.
  - reflexivity.
Qed.

Lemma iter_shr_1_m (p : positive) : forall mrs,
  0 <= shr_m mrs ->
  shr_m (iter_pos shr_1 p mrs) = shr_m mrs / 2 ^ Zpos p.
Proof.
  induction p as [p IH|p IH|]; intros mrs H; cbn [iter_pos].
  - assert (H1 : 0 <= shr_m (shr_1 mrs))
      by (rewrite shr_1_m by exact H; apply Z.div_pos; lia).
    assert (H2 : 0 <= shr_m (iter_pos shr_1 p (shr_1 mrs)))
      by (rewrite IH by exact H1; apply Z.div_pos;
          [exact H1|apply Z.pow_pos_nonneg; lia]).
    rewrite IH by exact H2. rewrite IH by exact H1. rewrite shr_1_m by exact H.
    rewrite !Z.div_div by (try apply Z.pow_pos_nonneg; lia).
    f_equal. change 2 with (2 ^ 1) at 1.
    rewrite <- !Z.pow_add_r by lia. f_equal. lia.
  - assert (H2 : 0 <= shr_m (iter_pos shr_1 p mrs))
      by (rewrite IH by exact H; apply Z.div_pos;
          [exact H|apply Z.pow_pos_nonneg; lia]).
    rewrite IH by exact H2. rewrite IH by exact H.
    rewrite !Z.div_div by (try apply Z.pow_pos_nonneg; lia).
    f_equal. rewrite <- !Z.pow_add_r by lia. f_equal. lia.
  - rewrite shr_1_m by exact H. reflexivity.
Qed.

Lemma shr_record_of_loc_m (m : Z) (l : location) :
  shr_m (shr_record_of_loc m l) = m.
Proof. destruct l as [|[| |]]; reflexivity. Qed.

(** One [shr_fexp]: the mantissa stays non-negative, the magnitude stays
    below [K] or comes to the least exponent, and the exponent is the one
    given or [fexp] of the magnitude. *)
Lemma shr_fexp_spec (m e : Z) (l : location) (K : Z) :
  0 <= m -> Zdigits2 m + e <= K ->
  let '(mrs, e') := shr_fexp prec emax m e l in
  0 <= shr_m mrs /\
  Zdigits2 (shr_m mrs) + e' <= Z.max K (emin prec emax) /\
  e' <= Z.max e (fexp prec emax K).
Proof.
  intros Hm HK. unfold shr_fexp, shr.
  set (n := fexp prec emax (Zdigits2 m + e) - e).
  pose proof (Zdigits2_nonneg m) as Hd.
  assert (Hf : fexp prec emax (Zdigits2 m + e) <= fexp prec emax K)
    by (unfold fexp; lia).
  assert (Hf2 : fexp prec emax K <= Z.max K (emin prec emax))
    by (unfold fexp, prec; lia).
  destruct n as [|p|p] eqn:En.
  - rewrite shr_record_of_loc_m. lia.
  - rewrite iter_shr_1_m by (rewrite shr_record_of_loc_m; exact Hm).
    rewrite shr_record_of_loc_m.
    split; [apply Z.div_pos; [exact Hm|apply Z.pow_pos_nonneg; lia]|].
    pose proof (Zdigits2_div m (Z.pos p) Hm ltac:(lia)) as Hdiv.
    lia.
  - rewrite shr_record_of_loc_m. lia.
Qed.

Lemma round_nearest_even_bound (m : Z) (l : location) :
  0 <= m -> m <= round_nearest_even m l <= m + 1.
Proof.
  intros H. destruct l as [|[| |]]; cbn [round_nearest_even]; try lia.
  destruct (Z.even m); lia.
Qed.

(** What [binary_round_aux] comes to. *)
Lemma binary_round_aux_spec (sx : bool) (m e : Z) (l : location) (K : Z) :
  0 <= m -> Zdigits2 m + e <= K ->
  exists m' e',
    0 <= m' /\
    Zdigits2 m' + e' <= Z.max K (emin prec emax) + 1 /\
    e' <= Z.max (Z.max e (fexp prec emax K))
                (fexp prec emax (Z.max K (emin prec emax) + 1)) /\
    binary_round_aux prec emax sx m e l
    = match m' with
      | Z0 => S754_zero sx
      | Zpos p => if e' <=? emax - prec then S754_finite sx p e'
                  else S754_infinity sx
      | Zneg _ => S754_nan
      end.
Proof.
  intros Hm HK. unfold binary_round_aux.
  pose proof (shr_fexp_spec m e l K Hm HK) as H1.
  destruct (shr_fexp prec emax m e l) as [mrs1 e1].
  destruct H1 as (Hm1 & HK1 & He1).
  set (m1 := round_nearest_even (shr_m mrs1) (loc_of_shr_record mrs1)).
  pose proof (round_nearest_even_bound (shr_m mrs1) (loc_of_shr_record mrs1) Hm1)
    as Hr. fold m1 in Hr.
  assert (HK1' : Zdigits2 m1 + e1 <= Z.max K (emin prec emax) + 1).
  { assert (Hcase : m1 = shr_m mrs1 \/ m1 = shr_m mrs1 + 1) by lia.
    destruct Hcase as [->| ->]; [lia|].
    pose proof (Zdigits2_succ (shr_m mrs1) Hm1). lia. }
  pose proof (shr_fexp_spec m1 e1 loc_Exact _ ltac:(lia) HK1') as H2.
  destruct (shr_fexp prec emax m1 e1 loc_Exact) as [mrs2 e2].
  destruct H2 as (Hm2 & HK2 & He2).
  exists (shr_m mrs2), e2. split; [exact Hm2|]. split; [lia|]. split; [lia|].
  reflexivity.
Qed.

(** ** Bounds through the operations *)

Lemma sf_below_mono (k k' : Z) (f : spec_float) :
  k <= k' -> sf_below k f -> sf_below k' f.
Proof. destruct f; cbn; lia. Qed.

Lemma binary_round_aux_below (sx : bool) (m e : Z) (l : location) (K : Z) :
  0 <= m -> Zdigits2 m + e <= K -> emin prec emax <= K ->
  sf_below (K + 1) (binary_round_aux prec emax sx m e l).
Proof.
  intros Hm HK Hmin.
  destruct (binary_round_aux_spec sx m e l K Hm HK)
    as (m' & e' & Hm' & HK' & _ & ->).
  destruct m' as [|p|p]; cbn [sf_below]; [exact I| |exact I].
  destruct (e' <=? emax - prec); cbn [sf_below]; [|exact I].
  cbn [Zdigits2] in HK'. lia.
Qed.

Lemma digits_iter_xO (m d : positive) :
  Z.pos (digits2_pos (Pos.iter xO m d)) = Z.pos (digits2_pos m) + Z.pos d.
Proof.
  induction d as [|d IH] using Pos.peano_ind.
  - cbn. lia.
  - rewrite Pos.iter_succ. cbn [digits2_pos]. lia.
Qed.

Lemma iter_xO_val (m d : positive) :
  Z.pos (Pos.iter xO m d) = Z.pos m * 2 ^ Z.pos d.
Proof.
  induction d as [|d IH] using Pos.peano_ind.
  - cbn. lia.
  - rewrite Pos.iter_succ, Pos2Z.inj_xO, IH, Pos2Z.inj_succ.
    rewrite Z.pow_succ_r by lia. lia.
Qed.

Lemma shl_align_digits (mx : positive) (ex ex' : Z) :
  Z.pos (digits2_pos (fst (shl_align mx ex ex'))) + snd (shl_align mx ex ex')
  = Z.pos (digits2_pos mx) + ex.
Proof.
  unfold shl_align. destruct (ex' - ex) as [|d|d] eqn:E; cbn [fst snd];
    try reflexivity.
  rewrite digits_iter_xO. lia.
Qed.

Lemma binary_round_below (sx : bool) (mx : positive) (ex K : Z) :
  Z.pos (digits2_pos mx) + ex <= K -> emin prec emax <= K ->
  sf_below (K + 1) (binary_round prec emax sx mx ex).
Proof.
  intros HK Hmin. unfold binary_round.
  pose proof (shl_align_digits mx ex
                (fexp prec emax (Z.pos (digits2_pos mx) + ex))) as Hd.
  destruct (shl_align mx ex _) as [mz ez]. cbn [fst snd] in Hd.
  apply binary_round_aux_below; [lia| |exact Hmin].
  cbn [Zdigits2]. lia.
Qed.

Lemma binary_normalize_below (m e K : Z) (szero : bool) :
  Zdigits2 m + e <= K -> emin prec emax <= K ->
  sf_below (K + 1) (binary_normalize prec emax m e szero).
Proof.
  intros HK Hmin. destruct m as [|p|p]; cbn [binary_normalize];
    [exact I| |]; apply binary_round_below; assumption.
Qed.

(** ** Multiplication *)

Lemma SFmul_below (a b : Z) (x y : spec_float) :
  sf_below a x -> sf_below b y -> emin prec emax <= a + b ->
  sf_below (a + b + 1) (SFmul prec emax x y).
Proof.
  intros Hx Hy Hmin.
  destruct x as [sx|sx| |sx mx ex], y as [sy|sy| |sy my ey];
    try exact I.
  cbn [SFmul sf_below] in *.
  apply binary_round_aux_below; [lia| |exact Hmin].
  pose proof (Zdigits2_mul (Z.pos mx) (Z.pos my) ltac:(lia) ltac:(lia)) as H.
  cbn [Zdigits2 Z.mul] in *. lia.
Qed.

(** ** Addition and subtraction *)

Lemma shl_align_min (mx : positive) (ex ez : Z) :
  ez <= ex ->
  Z.pos (fst (shl_align mx ex ez)) < 2 ^ (Z.pos (digits2_pos mx) + ex - ez).
Proof.
  intros H. unfold shl_align.
  pose proof (Zdigits2_lt (Z.pos mx) ltac:(lia)) as Hlt. cbn [Zdigits2] in Hlt.
  destruct (ez - ex) as [|d|d] eqn:E; cbn [fst]; try lia.
  - replace (Z.pos (digits2_pos mx) + ex - ez) with (Z.pos (digits2_pos mx))
      by lia. exact Hlt.
  - rewrite iter_xO_val.
    replace (Z.pos (digits2_pos mx) + ex - ez)
      with (Z.pos (digits2_pos mx) + Z.pos d) by lia.
    rewrite Z.pow_add_r by lia.
    apply Z.mul_lt_mono_pos_r; [apply Z.pow_pos_nonneg; lia|exact Hlt].
Qed.

Lemma sum_digits (u v ez k : Z) :
  Z.abs u < 2 ^ (k - ez) -> Z.abs v < 2 ^ (k - ez) ->
  Zdigits2 (u + v) + ez <= k + 1 /\ Zdigits2 (u - v) + ez <= k + 1.
Proof.
  intros Hu Hv.
  assert (Hk : 0 <= k - ez).
  { destruct (Z.le_gt_cases 0 (k - ez)) as [H|H]; [exact H|].
    rewrite Z.pow_neg_r in Hu by exact H. lia. }
  assert (Hd : forall w, Z.abs w < 2 ^ (k - ez + 1) ->
                         Zdigits2 w + ez <= k + 1).
  { intros w Hw.
    assert (E : Zdigits2 w = Zdigits2 (Z.abs w)) by (destruct w; reflexivity).
    rewrite E. pose proof (Zdigits2_le (Z.abs w) (k - ez + 1)). lia. }
  rewrite Z.pow_add_r in Hd by lia. change (2 ^ 1) with 2 in Hd.
  split; apply Hd; lia.
Qed.

Lemma cond_Zopp_abs (sg : bool) (m : Z) : Z.abs (cond_Zopp sg m) = Z.abs m.
Proof. destruct sg; cbn; lia. Qed.

Lemma SFadd_below (a b : Z) (x y : spec_float) :
  sf_below a x -> sf_below b y -> emin prec emax <= Z.max a b + 1 ->
  sf_below (Z.max a b + 2) (SFadd prec emax x y) /\
  sf_below (Z.max a b + 2) (SFsub prec emax x y).
Proof.
  intros Hx Hy Hmin.
  destruct x as [sx|sx| |sx mx ex], y as [sy|sy| |sy my ey];
    try (split; exact I);
    try (split; cbn [SFadd SFsub sf_below] in *;
         repeat match goal with |- context [match ?s with _ => _ end] =>
                  destruct s end; cbn [sf_below]; (exact I || lia)).
  cbn [SFadd SFsub sf_below] in *.
  set (ez := Z.min ex ey).
  pose proof (shl_align_min mx ex ez ltac:(lia)) as Hmx.
  pose proof (shl_align_min my ey ez ltac:(lia)) as Hmy.
  set (k := Z.max (Z.pos (digits2_pos mx) + ex) (Z.pos (digits2_pos my) + ey)).
  assert (Hu : Z.abs (cond_Zopp sx (Z.pos (fst (shl_align mx ex ez))))
               < 2 ^ (k - ez)).
  { rewrite cond_Zopp_abs. cbn [Z.abs].
    apply (Z.lt_le_trans _ _ _ Hmx). apply Z.pow_le_mono_r; lia. }
  assert (Hv : Z.abs (cond_Zopp sy (Z.pos (fst (shl_align my ey ez))))
               < 2 ^ (k - ez)).
  { rewrite cond_Zopp_abs. cbn [Z.abs].
    apply (Z.lt_le_trans _ _ _ Hmy). apply Z.pow_le_mono_r; lia. }
  destruct (sum_digits _ _ ez k Hu Hv) as [Hs Hd].
  assert (Hk : k + 1 <= Z.max a b + 1) by lia.
  split.
  - replace (Z.max a b + 2) with (Z.max a b + 1 + 1) by lia.
    apply binary_normalize_below; [lia|exact Hmin].
  - replace (Z.max a b + 2) with (Z.max a b + 1 + 1) by lia.
    apply binary_normalize_below; [lia|exact Hmin].
Qed.

(** ** Division *)

Lemma SFdiv_core_below (m1 m2 : positive) (e1 e2 : Z) :
  let '(q, e', _) := SFdiv_core_binary prec emax (Z.pos m1) e1 (Z.pos m2) e2 in
  0 <= q /\
  Zdigits2 q + e'
  <= Z.max (Z.pos (digits2_pos m1) + e1 - (Z.pos (digits2_pos m2) + e2) + 1)
           (emin prec emax).
Proof.
  unfold SFdiv_core_binary. cbn [Zdigits2].
  set (d1 := Z.pos (digits2_pos m1)). set (d2 := Z.pos (digits2_pos m2)).
  set (e' := Z.min (fexp prec emax (d1 + e1 - (d2 + e2))) (e1 - e2)).
  set (s := e1 - e2 - e').
  set (m' := match s with 0 => Z.pos m1 | Z.pos _ => Z.shiftl (Z.pos m1) s
                     | Z.neg _ => 0 end).
  assert (Hs : 0 <= s) by (unfold s, e'; lia).
  assert (Hm' : m' = Z.pos m1 * 2 ^ s).
  { unfold m'. destruct s as [|p|p] eqn:E; [cbn; lia| |lia].
    rewrite Z.shiftl_mul_pow2 by lia. reflexivity. }
  assert (Hq : Z.div_eucl m' (Z.pos m2) = (m' / Z.pos m2, m' mod Z.pos m2)).
  { unfold Z.div, Z.modulo. destruct (Z.div_eucl m' (Z.pos m2)). reflexivity. }
  change (IntDef.Z.div_eucl m' (Z.pos m2)) with (Z.div_eucl m' (Z.pos m2)).
  rewrite Hq.
  assert (H2s : 0 < 2 ^ s) by (apply Z.pow_pos_nonneg; lia).
  assert (Hm0 : 0 <= m') by nia.
  split; [apply Z.div_pos; lia|].
  pose proof (Zdigits2_lt (Z.pos m1) ltac:(lia)) as H1. cbn [Zdigits2] in H1.
  pose proof (Zdigits2_ge m2) as H2. cbn [Zdigits2] in H2.
  fold d1 in H1. fold d2 in H2.
  assert (Hd2 : 1 <= d2) by (unfold d2; lia).
  assert (Hd1 : 1 <= d1) by (unfold d1; lia).
  destruct (Z.le_gt_cases 0 (d1 + s - d2 + 1)) as [Ht|Ht].
  - assert (Hlt : m' / Z.pos m2 < 2 ^ (d1 + s - d2 + 1)).
    { apply Z.div_lt_upper_bound; [lia|].
      apply (Z.lt_le_trans _ (2 ^ d1 * 2 ^ s));
        [rewrite Hm'; apply Z.mul_lt_mono_pos_r; [exact H2s|exact H1]|].
      apply (Z.le_trans _ (2 ^ (d2 - 1) * 2 ^ (d1 + s - d2 + 1))).
      - rewrite <- !Z.pow_add_r by lia. apply Z.pow_le_mono_r; lia.
      - apply Z.mul_le_mono_nonneg_r; [apply Z.pow_nonneg; lia|exact H2]. }
    pose proof (Zdigits2_le (m' / Z.pos m2) (d1 + s - d2 + 1) Ht
                  (conj (Z.div_pos m' (Z.pos m2) Hm0 (Pos2Z.is_pos m2)) Hlt)).
    unfold s in *. lia.
  - assert (Hz : m' / Z.pos m2 = 0).
    { apply Z.div_small. split; [exact Hm0|].
      apply (Z.lt_le_trans _ (2 ^ d1 * 2 ^ s));
        [rewrite Hm'; apply Z.mul_lt_mono_pos_r; [exact H2s|exact H1]|].
      apply (Z.le_trans _ (2 ^ (d2 - 1))); [|exact H2].
      rewrite <- Z.pow_add_r by lia. apply Z.pow_le_mono_r; lia. }
    rewrite Hz. cbn [Zdigits2].
    unfold e', fexp, emin, prec, emax. lia.
Qed.

Lemma SFdiv_below (a b : Z) (x y : spec_float) :
  sf_below a x -> sf_above b y -> emin prec emax <= a - b + 1 ->
  sf_below (a - b + 2) (SFdiv prec emax x y).
Proof.
  intros Hx Hy Hmin.
  destruct x as [sx|sx| |sx mx ex], y as [sy|sy| |sy my ey];
    try exact I.
  cbn [SFdiv sf_below sf_above] in *.
  pose proof (SFdiv_core_below mx my ex ey) as H.
  destruct (SFdiv_core_binary prec emax (Z.pos mx) ex (Z.pos my) ey)
    as [[q e'] l].
  destruct H as [Hq Hd].
  replace (a - b + 2) with (a - b + 1 + 1) by lia.
  apply binary_round_aux_below; [exact Hq|lia|exact Hmin].
Qed.

(** ** The operations on floats *)

Lemma below_mono (k k' : Z) (x : float) : k <= k' -> below k x -> below k' x.
Proof. apply sf_below_mono. Qed.

Lemma mul_below (a b : Z) (x y : float) :
  below a x -> below b y -> emin prec emax <= a + b ->
  below (a + b + 1) (x * y).
Proof. unfold below. rewrite mul_spec. apply SFmul_below. Qed.

Lemma add_below (a b : Z) (x y : float) :
  below a x -> below b y -> emin prec emax <= Z.max a b + 1 ->
  below (Z.max a b + 2) (x + y).
Proof.
  unfold below. rewrite add_spec. intros Hx Hy Hm.
  apply (SFadd_below a b _ _ Hx Hy Hm).
Qed.

Lemma sub_below (a b : Z) (x y : float) :
  below a x -> below b y -> emin prec emax <= Z.max a b + 1 ->
  below (Z.max a b + 2) (x - y).
Proof.
  unfold below. rewrite sub_spec. intros Hx Hy Hm.
  apply (SFadd_below a b _ _ Hx Hy Hm).
Qed.

Lemma div_below (a b : Z) (x y : float) :
  below a x -> above b y -> emin prec emax <= a - b + 1 ->
  below (a - b + 2) (x / y).
Proof. unfold below, above. rewrite div_spec. apply SFdiv_below. Qed.

Lemma opp_below (k : Z) (x : float) : below k x -> below k (- x).
Proof.
  unfold below. rewrite opp_spec. destruct (Prim2SF x); cbn; auto.
Qed.

Lemma ldexp_below (a ex : Z) (x : float) :
  below a x -> emin prec emax <= a + ex -> below (a + ex + 1) (Z.ldexp x ex).
Proof.
  unfold below. rewrite Z_ldexp_spec. intros Hx Hm.
  destruct (Prim2SF x) as [sx|sx| |sx mx e]; cbn [SFldexp]; try exact I.
  cbn [sf_below] in Hx. apply binary_round_below; [lia|exact Hm].
Qed.

Lemma of_uint63_below (m : Z) :
  0 <= m < 16777216 -> below 25 (of_uint63 (Uint63Axioms.of_Z m)).
Proof.
  intros Hm. unfold below. rewrite of_uint63_spec, Uint63.of_Z_spec.
  rewrite Z.mod_small
    by (change Uint63.wB with 9223372036854775808; lia).
  apply (binary_normalize_below m 0 24).
  - pose proof (Zdigits2_le m 24 ltac:(lia) ltac:(lia)). lia.
  - unfold emin, prec, emax. lia.
Qed.

(** The value of a binary32 word is below [2 ^ 130]. *)
Lemma f32_to_float_below (w : Z) : below 130 (f32_to_float w).
Proof.
  unfold f32_to_float.
  set (e := (w / 8388608) mod 256). set (m := w mod 8388608).
  assert (He : 0 <= e < 256) by (apply Z.mod_pos_bound; lia).
  assert (Hm : 0 <= m < 8388608) by (apply Z.mod_pos_bound; lia).
  assert (H : below 130
                (if e =? 255 then if m =? 0 then infinity else nan
                 else if e =? 0
                      then Z.ldexp (of_uint63 (Uint63Axioms.of_Z m)) (-149)
                      else Z.ldexp (of_uint63 (Uint63Axioms.of_Z (m + 8388608)))
                                   (e - 150))).
  { destruct (e =? 255) eqn:E255.
    - destruct (m =? 0); vm_compute; exact I.
    - apply Z.eqb_neq in E255. destruct (e =? 0).
      + apply (below_mono (25 + -149 + 1)); [lia|].
        apply ldexp_below; [apply of_uint63_below; lia|].
        unfold emin, prec, emax. lia.
      + apply (below_mono (25 + (e - 150) + 1)); [lia|].
        apply ldexp_below; [apply of_uint63_below; lia|].
        unfold emin, prec, emax. lia. }
  destruct (Z.testbit w 31); [apply opp_below|]; exact H.
Qed.

(** A float that passes the guard [abs d < 1e-9] is at least [2 ^ -30]. *)
Lemma Prim2SF_canonical (x : float) (s : bool) (m : positive) (e : Z) :
  Prim2SF x = S754_finite s m e ->
  fexp prec emax (Z.pos (digits2_pos m) + e) = e /\ e <= emax - prec.
Proof.
  intros E. pose proof (Prim2SF_valid x) as H. rewrite E in H.
  cbn [SpecFloat.valid_binary] in H. unfold bounded, canonical_mantissa in H.
  apply andb_true_iff in H. destruct H as [H1 H2].
  split; [apply Z.eqb_eq; exact H1|apply Z.leb_le; exact H2].
Qed.

Lemma above_eps (d : float) : ltb (abs d) eps = false -> above (-29) d.
Proof.
  intros H. unfold above. destruct (Prim2SF d) as [s|s| |s m e] eqn:E;
    try exact I.
  cbn [sf_above]. destruct (Prim2SF_canonical d s m e E) as [Hc _].
  rewrite ltb_spec, abs_spec, E in H. cbn [SFabs] in H.
  change (Prim2SF eps) with (S754_finite false 4835703278458517 (-82)) in H.
  unfold SFltb, SFcompare in H.
  destruct (Z.compare_spec e (-82)) as [He|He|He]; [| discriminate H |];
    unfold fexp, emin, prec, emax in Hc; lia.
Qed.
(* ================================================================== *)
(** * A whole run *)

Lemma py_getitem_ok {A : Type} (l : list A) (v : Z) :
  0 <= v < Z.of_nat (length l) -> exists a, py_getitem l v = Ok a.
Proof.
  intros Hv. unfold py_getitem.
  destruct (Z.ltb_spec v 0) as [H0|H0]; [lia|].
  destruct (Z.ltb_spec v 0) as [H1|H1]; [lia|].
  destruct (Z.leb_spec (Z.of_nat (length l)) v) as [H2|H2]; [lia|].
  cbn [orb].
  destruct (nth_error l (Z.to_nat v)) as [a|] eqn:E; [eauto|].
  apply nth_error_None in E. lia.
Qed.

Lemma py_getitem_nth {A : Type} (l : list A) (v : Z) (a : A) :
  0 <= v -> nth_error l (Z.to_nat v) = Some a -> py_getitem l v = Ok a.
Proof.
  intros Hv Hn. unfold py_getitem.
  assert (Hlt : (Z.to_nat v < length l)%nat)
    by (apply nth_error_Some; congruence).
  destruct (Z.ltb_spec v 0) as [H0|H0]; [lia|].
  destruct (Z.ltb_spec v 0) as [H1|H1]; [lia|].
  destruct (Z.leb_spec (Z.of_nat (length l)) v) as [H2|H2]; [lia|].
  cbn [orb]. rewrite Hn. reflexivity.
Qed.

Lemma py_min_ok (l : list float) : l <> [] -> exists m, py_min l = Ok m.
Proof.
  destruct l as [|x rest]; [congruence|]. intros _. eexists. reflexivity.
Qed.

Lemma py_max_ok (l : list float) : l <> [] -> exists m, py_max l = Ok m.
Proof.
  destruct l as [|x rest]; [congruence|]. intros _. eexists. reflexivity.
Qed.

Lemma super_triangle_ok (points : list Point) :
  points <> [] ->
  exists p1 p2 p3, Triangulator.super_triangle points = Ok (p1, p2, p3).
Proof.
  intros Hne. unfold Triangulator.super_triangle.
  destruct (py_min_ok (map (fun p : Point => fval (fst p)) points)) as [a Ea];
    [destruct points; [congruence|discriminate]|].
  destruct (py_max_ok (map (fun p : Point => fval (fst p)) points)) as [b Eb];
    [destruct points; [congruence|discriminate]|].
  destruct (py_min_ok (map (fun p : Point => fval (snd p)) points)) as [c Ec];
    [destruct points; [congruence|discriminate]|].
  destruct (py_max_ok (map (fun p : Point => fval (snd p)) points)) as [d Ed];
    [destruct points; [congruence|discriminate]|].
  rewrite Ea, Eb, Ec, Ed. cbn [bind]. do 3 eexists. reflexivity.
Qed.

Lemma NoDup_keys_ord_pairs (triangles : list (list Z)) :
  NoDup (map sorted triangles) ->
  ForallOrdPairs (fun t1 t2 => ~ Permutation t1 t2) triangles.
Proof.
  induction triangles as [|t rest IH]; cbn [map]; intros H; [constructor|].
  inversion H as [|? ? Hnin Hnd]; subst. constructor; [|apply IH; exact Hnd].
  apply Forall_forall. intros t2 Ht2 Hp. apply Hnin.
  apply sorted_eq_iff_perm in Hp. rewrite Hp. apply in_map. exact Ht2.
Qed.

(** The triangles of a finished working triangulation that step 3 keeps
    satisfy the mesh invariants. *)
Lemma final_triangles_invariants (n : Z) (triangulation : list (Z * Z * Z)) :
  working_inv n n triangulation ->
  mesh_invariants n (map Triangulator.as_tuple (filter (within n) triangulation)).
Proof.
  intros [Hok Hnd]. split.
  - apply Forall_forall. intros t Ht. apply in_map_iff in Ht.
    destruct Ht as ([[a b] c] & <- & Ht). apply filter_In in Ht.
    destruct Ht as [Ht Hw]. rewrite Forall_forall in Hok.
    destruct (Hok _ Ht) as (Hd & Ha & Hb & Hc).
    unfold within in Hw. apply negb_true_iff in Hw. cbn [existsb] in Hw.
    rewrite !orb_false_iff, !Z.geb_leb, !Z.leb_gt in Hw.
    unfold vertex_ok in *. cbn [Triangulator.as_tuple].
    split; [reflexivity|]. split.
    + repeat constructor; lia.
    + apply NoDup3. exact Hd.
  - apply NoDup_keys_ord_pairs. rewrite map_map.
    apply (NoDup_map_filter key3 (within n)) in Hnd. exact Hnd.
Qed.

Lemma triangulator_init_ok (point_set : PointSet.t) (s : store)
      (self : Triangulator.t) :
  Triangulator.init point_set s = Ok self ->
  exists pts,
    store_get s (PointSet.points point_set) = Ok pts /\
    3 <= Z.of_nat (length pts) /\
    ~ has_equal_points pts /\
    self = {| Triangulator.point_set := point_set |}.
Proof.
  unfold Triangulator.init, Triangulator._validate_min_points,
    Triangulator._validate_no_duplicates.
  destruct (store_get s (PointSet.points point_set)) as [pts|e]; [|discriminate].
  cbn [bind]. destruct (Z.ltb_spec (Z.of_nat (length pts)) 3) as [Hn|Hn];
    [discriminate|].
  cbn [bind].
  destruct (no_duplicates_loop_spec pts []) as [[E _]|(E & Hnd & _)];
    rewrite E; cbn [bind]; [discriminate|].
  intros H. injection H as <-. exists pts. auto.
Qed.

Lemma triangulator_init_spec (s : store) (point_set : PointSet.t)
      (pts : list Point) :
  store_get s (PointSet.points point_set) = Ok pts ->
  (Z.of_nat (length pts) < 3 /\
   Triangulator.init point_set s = Raise InsufficientPoints) \/
  (3 <= Z.of_nat (length pts) /\ has_equal_points pts /\
   Triangulator.init point_set s = Raise DuplicatePoints) \/
  (3 <= Z.of_nat (length pts) /\ ~ has_equal_points pts /\
   Triangulator.init point_set s
   = Ok {| Triangulator.point_set := point_set |}).
Proof.
  intros Hget. unfold Triangulator.init, Triangulator._validate_min_points,
                 Triangulator._validate_no_duplicates.
  rewrite Hget. cbn [bind].
  destruct (Z.ltb_spec (Z.of_nat (length pts)) 3) as [Hn|Hn].
  - left. split; [exact Hn|reflexivity].
  - right. cbn [bind].
    destruct (no_duplicates_loop_spec pts [])
      as [[E [Hd|(q & _ & Hk)]]|(E & Hnd & _)]; rewrite E; cbn [bind].
    + left. auto.
    + discriminate Hk.
    + right. auto.
Qed.

Lemma skipn_cons_nth {A : Type} : forall (k : nat) (l : list A) x r,
  skipn k l = x :: r -> nth_error l k = Some x /\ skipn (S k) l = r.
Proof.
  induction k as [|k IH]; intros l x r H.
  - destruct l; [discriminate|]. cbn in H. injection H as -> ->. auto.
  - destruct l as [|y l]; [discriminate|]. cbn [skipn] in H.
    apply IH in H. exact H.
Qed.

Lemma polygon_edge (f : Z * Z * Z -> bool) (i n : Z)
      (triangulation : list (Z * Z * Z)) (e : Z * Z) :
  Forall (tri_ok i n) triangulation ->
  In e (polygon_of (filter f triangulation)) ->
  exists t, In t triangulation /\ f t = true /\
            In e (Triangulator.tri_edges t) /\
            fst e <> snd e /\ vertex_ok i n (fst e) /\ vertex_ok i n (snd e).
Proof.
  intros Hok He. unfold polygon_of in He. apply in_flat_map in He.
  destruct He as (t & Ht & He). apply boundary_edges_In in He.
  apply filter_In in Ht. destruct Ht as [Ht Hf]. destruct He as [He _].
  rewrite Forall_forall in Hok.
  exists t. repeat split; try assumption;
    apply (edge_of_ok i n t e (Hok t Ht) He).
Qed.

Lemma edge_vertices (t : Z * Z * Z) (e : Z * Z) :
  In e (Triangulator.tri_edges t) ->
  In (fst e) (Triangulator.as_tuple t) /\ In (snd e) (Triangulator.as_tuple t).
Proof.
  destruct t as [[a b] c]. cbn [Triangulator.tri_edges Triangulator.as_tuple In].
  intros [<-|[<-|[<-|[]]]]; cbn [fst snd]; auto.
Qed.

Lemma within_spec (n : Z) (t : Z * Z * Z) :
  within n t = true <->
  (let '(a, b, c) := t in a < n /\ b < n /\ c < n).
Proof.
  destruct t as [[a b] c]. unfold within. cbn [existsb].
  rewrite negb_true_iff, orb_false_r, !orb_false_iff.
  rewrite !Z.geb_leb, !Z.leb_gt. tauto.
Qed.

(* ================================================================== *)
(** * Floats that are not numbers *)

Lemma SFeqb_refl (f : spec_float) : f <> S754_nan -> SFeqb f f = true.
Proof.
  unfold SFeqb, SFcompare. destruct f as [sg|sg| |sg m e]; intros H.
  - destruct sg; reflexivity.
  - destruct sg; reflexivity.
  - congruence.
  - destruct sg; rewrite Z.compare_refl, ?Pos.compare_cont_refl;
      try reflexivity.
    all: rewrite ?Pos.compare_refl; reflexivity.
Qed.

Lemma is_nan_spec (x : float) : is_nan x = true <-> Prim2SF x = S754_nan.
Proof.
  unfold is_nan. rewrite eqb_spec. split.
  - intros H. destruct (Prim2SF x) eqn:E; try reflexivity;
      rewrite SFeqb_refl in H by discriminate; discriminate.
  - intros ->. reflexivity.
Qed.

Lemma is_finite_false (x : float) :
  is_finite x = false -> non_finite (Prim2SF x).
Proof.
  unfold is_finite. intros H. apply negb_false_iff, orb_true_iff in H.
  destruct H as [H|H].
  - left. apply is_nan_spec. exact H.
  - unfold is_infinity in H. rewrite eqb_spec, abs_spec in H.
    change (Prim2SF infinity) with (S754_infinity false) in H.
    destruct (Prim2SF x) as [sg|sg| |sg m e]; try discriminate.
    right. eauto.
Qed.

Lemma sub_non_finite (x y : float) :
  non_finite (Prim2SF y) -> non_finite (Prim2SF (x - y)).
Proof.
  rewrite sub_spec. unfold SF64sub, SFsub, non_finite.
  intros [-> | [sg ->]]; destruct (Prim2SF x) as [sx|sx| |sx mx ex]; eauto.
  destruct sx, sg; eauto.
Qed.

Lemma add_top_l (a b : float) : top (Prim2SF a) -> top (Prim2SF (a + b)).
Proof.
  rewrite add_spec. unfold SF64add, SFadd, top.
  intros [-> | ->]; [auto|].
  destruct (Prim2SF b) as [sb|sb| |sb mb eb]; auto. destruct sb; auto.
Qed.

Lemma add_top_r (a b : float) : top (Prim2SF b) -> top (Prim2SF (a + b)).
Proof.
  rewrite add_spec. unfold SF64add, SFadd, top.
  intros [-> | ->]; destruct (Prim2SF a) as [sa|sa| |sa ma ea]; auto.
  destruct sa; auto.
Qed.

Lemma ltb_top (a b : float) : top (Prim2SF a) -> ltb a b = false.
Proof.
  rewrite FloatAxioms.ltb_spec. unfold SFltb, SFcompare.
  intros [-> | ->]; [reflexivity|].
  destruct (Prim2SF b) as [sb|sb| |sb mb eb]; try reflexivity.
  destruct sb; reflexivity.
Qed.

Lemma eqb_true_not_nan (x y : float) :
  eqb x y = true -> is_nan x = false /\ is_nan y = false.
Proof.
  rewrite eqb_spec. intros H.
  split; apply not_true_is_false; rewrite is_nan_spec; intros E;
    rewrite E in H; [|destruct (Prim2SF x)]; discriminate.
Qed.

Lemma eqb_refl_not_nan (x : float) : is_nan x = false -> eqb x x = true.
Proof. unfold is_nan. intros H. apply negb_false_iff in H. exact H. Qed.

Lemma is_infinity_spec (x : float) :
  is_infinity x = true <-> exists sg, Prim2SF x = S754_infinity sg.
Proof.
  unfold is_infinity. rewrite eqb_spec, abs_spec.
  change (Prim2SF infinity) with (S754_infinity false).
  destruct (Prim2SF x) as [sg|sg| |sg m e]; split;
    try discriminate; try (intros [? ?]; discriminate); eauto.
Qed.

Lemma abs_infinity_top (x : float) :
  is_infinity x = true -> top (Prim2SF (abs x)).
Proof.
  intros H. apply is_infinity_spec in H. destruct H as [sg H].
  rewrite abs_spec, H. right. reflexivity.
Qed.

(* ================================================================== *)
(** * More on the codecs *)

Lemma C7_mesh_round_trip_witness :
  (Z.of_nat (length [[1; 0; 2]]) < two32 ->
   exists buf,
     Triangles.to_bytes {| Triangles.pointset := three_points_ps;
                           Triangles.triangles := [[1; 0; 2]] |}
                        three_points_store = Ok buf) /\
  (forall buf s0,
     Triangles.to_bytes {| Triangles.pointset := three_points_ps;
                           Triangles.triangles := [[1; 0; 2]] |}
                        three_points_store = Ok buf ->
     exists m' s1,
       Mesh.decode buf s0 = (Ok m', s1) /\
       store_get s1 (PointSet.points (Triangles.pointset m')) = Ok three_points /\
       Triangles.triangles m' = [[1; 0; 2]]).
Proof.
  apply (C7_mesh_round_trip three_points_store three_points_ps three_points
                            [[1; 0; 2]]).
  - reflexivity.
  - split; [vm_compute; reflexivity|].
    repeat constructor; vm_compute; intuition discriminate.
  - vm_compute. reflexivity.
Defined.

(** Decoding reads the buffer up to the last declared point only. *)
Lemma unpack_from_ff_app (data tail : bytes) (offset : nat) :
  (offset + 8 <= length data)%nat ->
  unpack_from_ff (data ++ tail) offset = unpack_from_ff data offset.
Proof.
  intros H. unfold unpack_from_ff. rewrite skipn_app.
  replace (offset - length data)%nat with 0%nat by lia. cbn [skipn].
  pose proof (length_skipn offset data) as Hl.
  destruct (skipn offset data)
    as [|a0 [|a1 [|a2 [|a3 [|b0 [|b1 [|b2 [|b3 r]]]]]]]];
    cbn [length] in Hl; try lia.
  reflexivity.
Qed.

Lemma read_points_app (tail : bytes) : forall count data offset acc,
  (offset + 8 * count <= length data)%nat ->
  PointSet.read_points (data ++ tail) count offset acc
  = PointSet.read_points data count offset acc.
Proof.
  induction count as [|count IH]; intros data offset acc H;
    cbn [PointSet.read_points]; [reflexivity|].
  rewrite unpack_from_ff_app by lia.
  destruct (unpack_from_ff data offset) as [p|e]; cbn [bind]; [|reflexivity].
  apply IH. lia.
Qed.

Lemma build_from_bytes_app (data tail : bytes) (p : list Point) :
  PointSet._build_from_bytes data = Ok p ->
  PointSet._build_from_bytes (data ++ tail) = Ok p.
Proof.
  intros Hb.
  destruct (build_from_bytes_spec data)
    as [[_ E]|(count & Hc & Hr & Hl & [[_ E]|[Hlen E]])]; try congruence.
  rewrite <- Hb, E. unfold PointSet._build_from_bytes.
  rewrite length_app.
  destruct (Z.ltb_spec (Z.of_nat (length data + length tail)) 4); [lia|].
  assert (Hc' : unpack_from_I (data ++ tail) 0 = Ok count).
  { revert Hc. unfold unpack_from_I. cbn [skipn].
    destruct data as [|b0 [|b1 [|b2 [|b3 r]]]]; cbn [length] in Hl; try lia.
    intros Hc. exact Hc. }
  rewrite Hc'. cbn [bind].
  destruct (Z.ltb_spec (Z.of_nat (length data + length tail))
                       (Z.of_nat 4 + count * 8)); [lia|].
  apply read_points_app. lia.
Qed.

(** X1, trailing bytes: a buffer that decodes still decodes, to the same
    [PointSet] in the same store, when bytes are appended to it, and
    [to_bytes] gives back the first 4 + 8*count bytes of the buffer, a
    signalling NaN among the coordinate words made quiet, without what
    followed them; these are the bytes of the buffer themselves when no
    coordinate word is a signalling NaN. *)
Theorem pointset_trailing_bytes
        (data : bytes) (s s' : store) (ps : PointSet.t) :
  PointSet.init data s = (Ok ps, s') ->
  exists p,
    store_get s' (PointSet.points ps) = Ok p /\
    PointSet.to_bytes ps s'
    = Ok (quiet_buffer (firstn (4 + 8 * length p) data)) /\
    (no_signalling_nan (firstn (4 + 8 * length p) data) ->
     PointSet.to_bytes ps s' = Ok (firstn (4 + 8 * length p) data)) /\
    forall tail, PointSet.init (data ++ tail) s = (Ok ps, s').
Proof.
  intros Hinit.
  destruct (PointSet_init_ok _ _ _ _ Hinit) as (p & Hb & Hget & Hs').
  destruct (build_from_bytes_ok data p Hb)
    as (count & _ & _ & _ & Hdec & Henc & _).
  assert (Hto : PointSet.to_bytes ps s'
                = Ok (quiet_buffer (firstn (4 + 8 * length p) data))).
  { unfold PointSet.to_bytes. rewrite Hget. exact Henc. }
  exists p. split; [exact Hget|]. split; [exact Hto|]. split.
  - intros Hq. rewrite Hto. unfold no_signalling_nan in Hq. rewrite Hq.
    reflexivity.
  - intros tail. unfold PointSet.init in *.
    rewrite (build_from_bytes_app data tail p Hb). rewrite Hb in Hinit.
    exact Hinit.
Qed.

Lemma pointset_trailing_bytes_witness :
  (exists p,
     store_get [[(F32 2145386496, F32 0)]] (PointSet.points three_points_ps)
     = Ok p /\
     PointSet.to_bytes three_points_ps [[(F32 2145386496, F32 0)]]
     = Ok (quiet_buffer (firstn (4 + 8 * length p) snan_buf)) /\
     forall tail, PointSet.init (snan_buf ++ tail) []
                  = (Ok three_points_ps, [[(F32 2145386496, F32 0)]])) /\
  (PointSet.to_bytes three_points_ps three_points_store
   = Ok three_points_buf /\
   forall tail, PointSet.init (three_points_buf ++ tail) []
                = (Ok three_points_ps, three_points_store)).
Proof.
  split.
  - destruct (pointset_trailing_bytes snan_buf [] [[(F32 2145386496, F32 0)]]
                                      three_points_ps)
      as (p & Hget & Hto & _ & Htail); [vm_compute; reflexivity|].
    exists p. auto.
  - destruct (pointset_trailing_bytes three_points_buf [] three_points_store
                                      three_points_ps)
      as (p & Hget & _ & Hto & Htail); [vm_compute; reflexivity|].
    injection Hget as <-. split; [|exact Htail].
    apply Hto. vm_compute. reflexivity.
Defined.

Lemma pack_triangles_words : forall triangles buf,
  Forall (fun t => length t = 3%nat /\ Forall (fun v => 0 <= v < two32) t)
         triangles ->
  Triangles.pack_triangles triangles buf
  = Ok (buf ++ flat_map triangle_words triangles).
Proof.
  induction triangles as [|t rest IH]; intros buf Hwf.
  - cbn. rewrite app_nil_r. reflexivity.
  - inversion Hwf as [|? ? [Hlen Hr] Hwf']; subst.
    destruct t as [|i [|j [|k [|l r]]]]; try discriminate Hlen.
    inversion Hr as [|? ? Hi Hr1]; subst.
    inversion Hr1 as [|? ? Hj Hr2]; subst.
    inversion Hr2 as [|? ? Hk _]; subst.
    cbn [Triangles.pack_triangles Triangles.unpack3 bind].
    unfold pack_III. rewrite !pack_I_ok by assumption. cbn [bind].
    rewrite IH by exact Hwf'.
    cbn [flat_map triangle_words]. rewrite app_nil_r, <- !app_assoc.
    reflexivity.
Qed.

(** X2, the layout of an encoded mesh: for a valid mesh over a decoded point
    collection, [to_bytes] gives the encoding of the point set, then the
    number of triangles, then the triangles in the order given, each as its
    three indices in the order given; it raises [struct.error] exactly when
    the number of triangles does not fit the 32-bit count, with the message
    of the format below 2^64 triangles. *)
Theorem mesh_to_bytes_layout
        (s : store) (pointset : PointSet.t) (pts : list Point)
        (triangles : list (list Z)) (m : Triangles.t) :
  store_get s (PointSet.points pointset) = Ok pts ->
  decoded_points pts ->
  Triangles.init s pointset triangles = Ok m ->
  exists pbuf,
    PointSet.to_bytes pointset s = Ok pbuf /\
    length pbuf = (4 + 8 * length pts)%nat /\
    (Z.of_nat (length triangles) < two32 ->
     Triangles.to_bytes m s
     = Ok (pbuf ++ le32_encode (Z.of_nat (length triangles))
                ++ flat_map triangle_words triangles)) /\
    (two32 <= Z.of_nat (length triangles) ->
     Triangles.to_bytes m s
     = Raise (StructError
                (if Z.of_nat (length triangles) <? 18446744073709551616
                 then "'I' format requires 0 <= number <= 4294967295"
                 else "argument out of range"))).
Proof.
  intros Hget Hdec Hinit.
  destruct (init_ok_inv s pointset pts triangles m Hget Hinit) as [-> [Hv _]].
  destruct (encode_decoded_points pts Hdec) as (pbuf & Henc & Hplen & _).
  assert (Hpb : PointSet.to_bytes pointset s = Ok pbuf).
  { unfold PointSet.to_bytes. rewrite Hget. exact Henc. }
  exists pbuf. split; [exact Hpb|]. split; [exact Hplen|].
  unfold Triangles.to_bytes. cbn [Triangles.pointset Triangles.triangles].
  rewrite Hpb. cbn [bind]. split.
  - intros Hn. rewrite pack_I_ok by lia. cbn [bind].
    rewrite pack_triangles_words, <- app_assoc; [reflexivity|].
    apply (valid_triangles_words (Z.of_nat (length pts))); [|exact Hv].
    destruct Hdec as [Hlt _]. lia.
  - intros Hn. rewrite (pack_I_large _ Hn). reflexivity.
Qed.

Lemma mesh_to_bytes_layout_witness :
  exists pbuf,
    PointSet.to_bytes three_points_ps three_points_store = Ok pbuf /\
    length pbuf = (4 + 8 * length three_points)%nat /\
    (Z.of_nat (length [[1; 0; 2]]) < two32 ->
     Triangles.to_bytes {| Triangles.pointset := three_points_ps;
                           Triangles.triangles := [[1; 0; 2]] |}
                        three_points_store
     = Ok (pbuf ++ le32_encode (Z.of_nat (length [[1; 0; 2]]))
                ++ flat_map triangle_words [[1; 0; 2]])) /\
    (two32 <= Z.of_nat (length [[1; 0; 2]]) ->
     Triangles.to_bytes {| Triangles.pointset := three_points_ps;
                           Triangles.triangles := [[1; 0; 2]] |}
                        three_points_store
     = Raise (StructError
                (if Z.of_nat (length [[1; 0; 2]]) <? 18446744073709551616
                 then "'I' format requires 0 <= number <= 4294967295"
                 else "argument out of range"))).
Proof.
  apply (mesh_to_bytes_layout three_points_store three_points_ps three_points
                              [[1; 0; 2]]).
  - reflexivity.
  - split; [vm_compute; reflexivity|].
    repeat constructor; vm_compute; intuition discriminate.
  - vm_compute. reflexivity.
Defined.

(* ================================================================== *)
(** * More on the validation *)

(** * More on the validation *)

Lemma ord_pairs_keys (triangles : list (list Z)) :
  ForallOrdPairs (fun t1 t2 => ~ Permutation t1 t2) triangles ->
  NoDup (map sorted triangles).
Proof.
  induction 1 as [|t rest Hall _ IH]; cbn [map]; constructor; [|exact IH].
  intros Hin. apply in_map_iff in Hin. destruct Hin as (t2 & E & Ht2).
  rewrite Forall_forall in Hall. apply (Hall t2 Ht2).
  apply sorted_eq_iff_perm. congruence.
Qed.

Lemma mesh_invariants_keys (n : Z) (triangles : list (list Z)) :
  mesh_invariants n triangles <->
  Forall (valid_triangle n) triangles /\ NoDup (map sorted triangles).
Proof.
  unfold mesh_invariants. split; intros [Hv H]; split; try exact Hv.
  - apply ord_pairs_keys. exact H.
  - apply NoDup_keys_ord_pairs. exact H.
Qed.

Lemma valid_triangle_perm (n : Z) (t t' : list Z) :
  Permutation t t' -> valid_triangle n t -> valid_triangle n t'.
Proof.
  intros Hp (Hlen & Hr & Hd). split; [|split].
  - rewrite <- Hlen. symmetry. apply Permutation_length. exact Hp.
  - eapply Permutation_Forall; eassumption.
  - eapply Permutation_NoDup; eassumption.
Qed.

Lemma valid_triangles_perm (n : Z) (l l' : list (list Z)) :
  Forall2 (@Permutation Z) l l' ->
  Forall (valid_triangle n) l -> Forall (valid_triangle n) l'.
Proof.
  induction 1 as [|t t' l l' Hp _ IH]; intros Hv; [constructor|].
  inversion Hv; subst. constructor.
  - eapply valid_triangle_perm; eassumption.
  - apply IH. assumption.
Qed.

Lemma keys_perm (l l' : list (list Z)) :
  Forall2 (@Permutation Z) l l' -> map sorted l = map sorted l'.
Proof.
  induction 1 as [|t t' l l' Hp _ IH]; [reflexivity|].
  cbn [map]. f_equal; [apply sorted_eq_iff_perm; exact Hp|exact IH].
Qed.

(** X3: acceptance does not depend on which candidates are left out, nor on
    the order of the candidates, nor on the order of the indices in a
    candidate:
    when the constructor accepts a list, it accepts the list with candidates
    removed, the list reordered, and the list with the indices of any
    candidate permuted. *)
Theorem validation_stable
        (s : store) (pointset : PointSet.t) (pts : list Point)
        (triangles : list (list Z)) (m : Triangles.t) :
  store_get s (PointSet.points pointset) = Ok pts ->
  Triangles.init s pointset triangles = Ok m ->
  (forall keep, exists m', Triangles.init s pointset (filter keep triangles)
                           = Ok m') /\
  (forall triangles', Permutation triangles triangles' ->
     exists m', Triangles.init s pointset triangles' = Ok m') /\
  (forall triangles', Forall2 (@Permutation Z) triangles triangles' ->
     exists m', Triangles.init s pointset triangles' = Ok m').
Proof.
  intros Hget Hinit.
  destruct (init_ok_inv s pointset pts triangles m Hget Hinit) as [_ Hinv].
  apply mesh_invariants_keys in Hinv. destruct Hinv as [Hv Hnd].
  assert (Hok : forall l, Forall (valid_triangle (Z.of_nat (length pts))) l ->
                          NoDup (map sorted l) ->
                          exists m', Triangles.init s pointset l = Ok m').
  { intros l H1 H2. eexists.
    apply (init_ok_iff s pointset pts l Hget).
    apply mesh_invariants_keys. split; assumption. }
  split; [|split].
  - intros keep. apply Hok.
    + rewrite Forall_forall in *. intros t Ht. apply Hv.
      apply filter_In in Ht. tauto.
    + apply NoDup_map_filter. exact Hnd.
  - intros triangles' Hp. apply Hok.
    + eapply Permutation_Forall; eassumption.
    + eapply Permutation_NoDup; [|exact Hnd]. apply Permutation_map. exact Hp.
  - intros triangles' H2. apply Hok.
    + eapply valid_triangles_perm; eassumption.
    + rewrite <- (keys_perm _ _ H2). exact Hnd.
Qed.

Lemma validation_stable_witness :
  (forall keep, exists m', Triangles.init three_points_store three_points_ps
                                          (filter keep [[1; 0; 2]]) = Ok m') /\
  (forall triangles', Permutation [[1; 0; 2]] triangles' ->
     exists m', Triangles.init three_points_store three_points_ps triangles'
                = Ok m') /\
  (forall triangles', Forall2 (@Permutation Z) [[1; 0; 2]] triangles' ->
     exists m', Triangles.init three_points_store three_points_ps triangles'
                = Ok m').
Proof.
  apply (validation_stable three_points_store three_points_ps three_points
                           [[1; 0; 2]]
                           {| Triangles.pointset := three_points_ps;
                              Triangles.triangles := [[1; 0; 2]] |});
    reflexivity.
Defined.

(** X4: over fewer than 3 points the constructor accepts the empty list only,
    and it never rejects a list as holding a duplicate triangle. *)
Theorem validation_under_three_points
        (s : store) (pointset : PointSet.t) (pts : list Point)
        (triangles : list (list Z)) :
  store_get s (PointSet.points pointset) = Ok pts ->
  Z.of_nat (length pts) < 3 ->
  (forall m, Triangles.init s pointset triangles = Ok m -> triangles = []) /\
  Triangles.init s pointset triangles <> Raise DuplicateTriangle.
Proof.
  intros Hget Hn.
  assert (Hnone : forall t, ~ valid_triangle (Z.of_nat (length pts)) t).
  { intros t (Hlen & Hr & Hd).
    destruct t as [|a [|b [|c [|d r]]]]; try discriminate Hlen.
    apply NoDup3 in Hd.
    inversion Hr as [|? ? Ha Hr1]; subst. inversion Hr1 as [|? ? Hb Hr2]; subst.
    inversion Hr2 as [|? ? Hc _]; subst. lia. }
  assert (Hempty : forall l, first_error (Z.of_nat (length pts)) [] l = None ->
                             l = []).
  { intros l E. apply first_error_none in E. destruct E as (Hv & _).
    destruct l as [|t l]; [reflexivity|].
    inversion Hv; subst. exfalso. eapply Hnone. eassumption. }
  rewrite (init_spec s pointset pts Hget). split.
  - intros m Hm. apply Hempty.
    destruct (first_error _ [] triangles); [discriminate|reflexivity].
  - destruct (first_error _ [] triangles) as [e|] eqn:E; [|discriminate].
    intros He. injection He as ->.
    destruct (first_error_some _ _ _ _ E) as (pre & t & post & _ & Hpre & Hv).
    apply Hempty in Hpre. subst pre. cbn [app] in Hv.
    unfold first_violation in Hv. cbn [existsb] in Hv.
    repeat match type of Hv with
           | (if ?c then _ else _) = _ => destruct c
           end; discriminate.
Qed.

Lemma validation_under_three_points_witness :
  (forall m, Triangles.init [two_equal_points] three_points_ps [[0; 1; 1]]
             = Ok m -> [[0; 1; 1]] = []) /\
  Triangles.init [two_equal_points] three_points_ps [[0; 1; 1]]
  <> Raise DuplicateTriangle.
Proof.
  apply (validation_under_three_points [two_equal_points] three_points_ps
                                       two_equal_points [[0; 1; 1]]).
  - reflexivity.
  - vm_compute. reflexivity.
Defined.

(* ================================================================== *)
(** * More on the preconditions *)

Lemma points_equal_not_nan (q p : Point) :
  points_equal q p = true -> has_nan q = false /\ has_nan p = false.
Proof.
  unfold points_equal, has_nan. intros H. apply andb_true_iff in H.
  destruct H as [Hx Hy].
  apply eqb_true_not_nan in Hx. apply eqb_true_not_nan in Hy.
  destruct Hx as [-> ->], Hy as [-> ->]. auto.
Qed.

Lemma points_equal_refl (p : Point) :
  has_nan p = false -> points_equal p p = true.
Proof.
  unfold points_equal, has_nan. intros H. apply orb_false_iff in H.
  destruct H as [Hx Hy]. rewrite !eqb_refl_not_nan by assumption. reflexivity.
Qed.

(** X7: what the duplicate check takes for equal points.  With at least 3
    points, the construction fails with "duplicate points in point set" when
    a point without a NaN coordinate occurs twice, and also when (0.0, y) and
    (-0.0, y) both occur, whose bytes differ; and it succeeds when every
    point has a NaN coordinate, be the points the same bit for bit: the keys
    are compared with the float [==], the floats of different points being
    different objects. *)
Theorem duplicate_check_is_float_equality
        (s : store) (point_set : PointSet.t) (pts : list Point) :
  store_get s (PointSet.points point_set) = Ok pts ->
  3 <= Z.of_nat (length pts) ->
  (forall i j p,
     i <> j -> nth_error pts i = Some p -> nth_error pts j = Some p ->
     has_nan p = false ->
     Triangulator.init point_set s = Raise DuplicatePoints) /\
  (forall i j y,
     nth_error pts i = Some (F32 0, y) ->
     nth_error pts j = Some (F32 2147483648, y) ->
     is_nan (fval y) = false ->
     Triangulator.init point_set s = Raise DuplicatePoints) /\
  (Forall (fun p => has_nan p = true) pts ->
   Triangulator.init point_set s
   = Ok {| Triangulator.point_set := point_set |}).
Proof.
  intros Hget Hlen.
  assert (Hdup : forall i j p q,
             i <> j -> nth_error pts i = Some p -> nth_error pts j = Some q ->
             points_equal q p = true -> points_equal p q = true ->
             Triangulator.init point_set s = Raise DuplicatePoints).
  { intros i j p q Hij Hi Hj Hqp Hpq.
    destruct (triangulator_init_spec s point_set pts Hget)
      as [[Hn _]|[(_ & _ & E)|(_ & Hnd & _)]]; [lia|exact E|].
    exfalso. apply Hnd.
    destruct (Nat.lt_total i j) as [Hlt|[Heq|Hlt]]; [|contradiction|].
    - exists i, j, p, q. auto.
    - exists j, i, q, p. auto. }
  split; [|split].
  - intros i j p Hij Hi Hj Hp.
    apply (Hdup i j p p Hij Hi Hj); apply points_equal_refl, Hp.
  - intros i j y Hi Hj Hy.
    assert (Hij : i <> j).
    { intros ->. rewrite Hi in Hj. discriminate. }
    apply (Hdup i j _ _ Hij Hi Hj); unfold points_equal; cbn [fst snd fval];
      rewrite (eqb_refl_not_nan _ Hy), andb_true_r; vm_compute; reflexivity.
  - intros Hall.
    destruct (triangulator_init_spec s point_set pts Hget)
      as [[Hn _]|[(_ & Hd & _)|(_ & _ & E)]]; [lia| |exact E].
    exfalso. destruct Hd as (i & j & p & q & _ & Hi & _ & Heq).
    apply points_equal_not_nan in Heq. destruct Heq as [_ Hp].
    rewrite Forall_forall in Hall. apply nth_error_In in Hi.
    rewrite (Hall p Hi) in Hp. discriminate.
Qed.

Lemma duplicate_check_is_float_equality_witness :
  Triangulator.init three_points_ps [points_with_duplicate]
  = Raise DuplicatePoints /\
  Triangulator.init three_points_ps [three_nan_points]
  = Ok {| Triangulator.point_set := three_points_ps |}.
Proof.
  split.
  - destruct (duplicate_check_is_float_equality
                [points_with_duplicate] three_points_ps points_with_duplicate)
      as (H & _ & _); [reflexivity|vm_compute; discriminate|].
    apply (H 1%nat 2%nat (F32 1065353216, F32 0));
      [discriminate|reflexivity|reflexivity|vm_compute; reflexivity].
  - destruct (duplicate_check_is_float_equality
                [three_nan_points] three_points_ps three_nan_points)
      as (_ & _ & H); [reflexivity|vm_compute; discriminate|].
    apply H. repeat constructor.
Defined.

(* ================================================================== *)
(** * The encoding of a valid mesh *)

(** * The endpoint *)

Lemma build_from_bytes_raise (data : bytes) (e : exn) :
  PointSet._build_from_bytes data = Raise e -> MalformedBuffer e.
Proof.
  intros H.
  destruct (build_from_bytes_spec data)
    as [[_ E]|(count & Hc & Hr & Hl & [[_ E]|[Hlen E]])].
  - rewrite E in H. injection H as <-. left. reflexivity.
  - rewrite E in H. injection H as <-. right. reflexivity.
  - rewrite E in H.
    destruct (read_points_spec (Z.to_nat count) data 4)
      as (pts & Hread & _).
    { rewrite length_skipn. lia. }
    rewrite Hread in H. discriminate.
Qed.

Lemma to_bytes_of_valid (s : store) (pointset : PointSet.t)
      (pts : list Point) (pbuf : bytes) (triangles : list (list Z)) :
  store_get s (PointSet.points pointset) = Ok pts ->
  PointSet.encode pts = Ok pbuf ->
  Z.of_nat (length pts) <= two32 ->
  Forall (valid_triangle (Z.of_nat (length pts))) triangles ->
  (Z.of_nat (length triangles) < two32 ->
   Triangles.to_bytes {| Triangles.pointset := pointset;
                         Triangles.triangles := triangles |} s
   = Ok (pbuf ++ le32_encode (Z.of_nat (length triangles))
              ++ flat_map triangle_words triangles)) /\
  (two32 <= Z.of_nat (length triangles) ->
   Triangles.to_bytes {| Triangles.pointset := pointset;
                         Triangles.triangles := triangles |} s
   = Raise (StructError
              (if Z.of_nat (length triangles) <? 18446744073709551616
               then "'I' format requires 0 <= number <= 4294967295"
               else "argument out of range"))).
Proof.
  intros Hget Henc Hn Hv.
  unfold Triangles.to_bytes, PointSet.to_bytes.
  cbn [Triangles.pointset Triangles.triangles].
  rewrite Hget. cbn [bind]. rewrite Henc. cbn [bind]. split.
  - intros Hc. rewrite pack_I_ok by lia. cbn [bind].
    rewrite pack_triangles_words, <- app_assoc; [reflexivity|].
    apply (valid_triangles_words (Z.of_nat (length pts))); assumption.
  - intros Hc. rewrite (pack_I_large _ Hc). reflexivity.
Qed.

(* ================================================================== *)
(** * The power and the predicate *)

Section WithLibm.

Context {L : Libm}.

(** The power of a NaN or of an infinity is a NaN or plus infinity, and
    never raises. *)
Lemma float_pow2_non_finite (v : float) :
  non_finite (Prim2SF v) ->
  exists r, float_pow2 v = Ok r /\ top (Prim2SF r).
Proof.
  intros H. unfold float_pow2.
  destruct (is_nan v) eqn:En.
  - exists v. split; [reflexivity|]. left. apply is_nan_spec. exact En.
  - assert (Hi : is_infinity v = true).
    { apply is_infinity_spec. destruct H as [H|H]; [|exact H].
      apply is_nan_spec in H. congruence. }
    rewrite Hi. exists (abs v). split; [reflexivity|].
    apply abs_infinity_top. exact Hi.
Qed.

(** The squared distance to a point with a coordinate that is not finite,
    when its powers return, is plus infinity or a NaN. *)
Lemma dist2_non_finite (u : float * float) (p : Point) (r : float) :
  has_non_finite p = true ->
  dist2 u (coords p) = Ok r -> top (Prim2SF r).
Proof.
  intros H. unfold has_non_finite in H.
  apply negb_true_iff, andb_false_iff in H.
  unfold dist2, coords. cbn [fst snd].
  destruct H as [H|H].
  - destruct (float_pow2_non_finite (fst u - fval (fst p)))
      as (x2 & E & Ht); [apply sub_non_finite, is_finite_false, H|].
    rewrite E. cbn [bind].
    destruct (float_pow2 (snd u - fval (snd p))) as [y2|e]; cbn [bind];
      [|discriminate].
    intros Er. injection Er as <-. apply add_top_l. exact Ht.
  - destruct (float_pow2 (fst u - fval (fst p))) as [x2|e]; cbn [bind];
      [|discriminate].
    destruct (float_pow2_non_finite (snd u - fval (snd p)))
      as (y2 & E & Ht); [apply sub_non_finite, is_finite_false, H|].
    rewrite E. cbn [bind].
    intros Er. injection Er as <-. apply add_top_r. exact Ht.
Qed.

Lemma inside_non_finite (a b c : float * float) (p : Point) :
  has_non_finite p = true -> inside_circumcircle a b c (coords p) <> Ok true.
Proof.
  intros H. unfold inside_circumcircle.
  destruct (ltb (abs (det_d a b c)) eps); [discriminate|].
  destruct (dist2 (circumcenter a b c) a) as [r_sq|e]; cbn [bind];
    [|discriminate].
  destruct (dist2 (circumcenter a b c) (coords p)) as [d_sq|e] eqn:Ed;
    cbn [bind]; [|discriminate].
  rewrite (ltb_top d_sq _ (dist2_non_finite _ _ _ H Ed)). discriminate.
Qed.

(** The predicate of the source is the predicate written from the words of
    the specification, on the coordinates of the three vertices. *)
Lemma predicate_refines (s : store) (all_points : ref) (l : list Point)
      (p p1 p2 p3 : Point) (t0 t1 t2 : Z) :
  store_get s all_points = Ok l ->
  py_getitem l t0 = Ok p1 ->
  py_getitem l t1 = Ok p2 ->
  py_getitem l t2 = Ok p3 ->
  Triangulator._is_point_in_circumcircle s p (t0, t1, t2) all_points
  = inside_circumcircle (coords p1) (coords p2) (coords p3) (coords p).
Proof.
  intros Hget H1 H2 H3.
  unfold Triangulator._is_point_in_circumcircle.
  run_steps.
  cbv beta iota zeta delta [inside_circumcircle dist2 coords det_d
                            circumcenter fst snd].
  destruct (ltb _ eps); [reflexivity|].
  repeat (match goal with
          | |- context [float_pow2 ?v] =>
              destruct (float_pow2 v); cbn [bind]; [|reflexivity]
          end).
  reflexivity.
Qed.

Lemma predicate_inside (s : store) (r : ref) (p : Point) (t : Z * Z * Z) :
  bad_for s r p t = true ->
  exists a b c, inside_circumcircle a b c (coords p) = Ok true.
Proof.
  unfold bad_for. destruct t as [[t0 t1] t2].
  destruct (store_get s r) as [l|e] eqn:E;
    [|unfold Triangulator._is_point_in_circumcircle; rewrite E; discriminate].
  destruct (py_getitem l t0) as [p1|e] eqn:E1;
    [|unfold Triangulator._is_point_in_circumcircle; rewrite E; cbn [bind];
      rewrite E1; discriminate].
  destruct (py_getitem l t1) as [p2|e] eqn:E2;
    [|unfold Triangulator._is_point_in_circumcircle; rewrite E; cbn [bind];
      rewrite E1; cbn [bind]; rewrite E2; discriminate].
  destruct (py_getitem l t2) as [p3|e] eqn:E3;
    [|unfold Triangulator._is_point_in_circumcircle; rewrite E; cbn [bind];
      rewrite E1; cbn [bind]; rewrite E2; cbn [bind]; rewrite E3;
      discriminate].
  rewrite (predicate_refines s r l p p1 p2 p3 t0 t1 t2 E E1 E2 E3).
  destruct (inside_circumcircle (coords p1) (coords p2) (coords p3) (coords p))
    as [b|e] eqn:Ei; [|discriminate].
  intros ->. eauto.
Qed.

(* ================================================================== *)
(** * The insertion loop, when it returns *)

Lemma find_bad_spec (s : store) (all_points : ref) (p : Point) :
  forall triangulation bad bad',
    Triangulator.find_bad s p all_points triangulation bad = Ok bad' ->
    bad' = bad ++ filter (bad_for s all_points p) triangulation.
Proof.
  induction triangulation as [|t rest IH]; intros bad bad';
    cbn [Triangulator.find_bad filter].
  - intros E. injection E as <-. rewrite app_nil_r. reflexivity.
  - unfold bad_for at 1.
    destruct (Triangulator._is_point_in_circumcircle s p t all_points)
      as [b|e]; cbn [bind]; [|discriminate].
    intros E. apply IH in E. rewrite E.
    destruct b; [rewrite <- app_assoc|]; reflexivity.
Qed.

Lemma insert_points_cons (s : store) (all_points : ref) (p : Point)
      (rest : list Point) (i : Z) (triangulation triangulation' : list (Z * Z * Z)) :
  NoDup triangulation ->
  Triangulator.insert_points s all_points (p :: rest) i triangulation
  = Ok triangulation' ->
  Triangulator.insert_points s all_points rest (i + 1)
    (insert_step (bad_for s all_points p) i triangulation)
  = Ok triangulation'.
Proof.
  intros Hnd. cbn [Triangulator.insert_points].
  destruct (Triangulator.find_bad s p all_points triangulation [])
    as [bad|e] eqn:Eb; cbn [bind]; [|discriminate].
  apply find_bad_spec in Eb. cbn [app] in Eb. subst bad.
  rewrite polygon_loop_spec. cbn [app].
  pose proof (remove_loop_spec (bad_for s all_points p) triangulation [])
    as Hrm.
  cbn [app] in Hrm.
  rewrite Hrm; [|exact Hnd|intros ? ? ? []].
  cbn [bind]. rewrite append_loop_spec. intros E. exact E.
Qed.

(** A property of the working triangulation that every pass keeps holds
    when the loop ends. *)
Lemma insert_points_invariant (s : store) (all_points : ref)
      (pts : list Point) (I : Z -> list (Z * Z * Z) -> Prop) :
  let n := Z.of_nat (length pts) in
  (forall i triangulation p,
     0 <= i < n -> nth_error pts (Z.to_nat i) = Some p ->
     working_inv i n triangulation -> I i triangulation ->
     I (i + 1) (insert_step (bad_for s all_points p) i triangulation)) ->
  forall rest i triangulation triangulation',
    0 <= i <= n -> skipn (Z.to_nat i) pts = rest ->
    working_inv i n triangulation -> I i triangulation ->
    Triangulator.insert_points s all_points rest i triangulation
    = Ok triangulation' ->
    working_inv n n triangulation' /\ I n triangulation'.
Proof.
  intros n Hstep. induction rest as [|p rest IH];
    intros i T T' Hi Hsk Hinv HI Hrun.
  - assert (i = n).
    { pose proof (f_equal (@length Point) Hsk) as E.
      rewrite length_skipn in E. cbn [length] in E. lia. }
    subst i. cbn in Hrun. injection Hrun as <-. auto.
  - destruct (skipn_cons_nth _ _ _ _ Hsk) as [Hnth Hsk'].
    assert (Hlt : i < n).
    { assert (Z.to_nat i < length pts)%nat
        by (apply nth_error_Some; congruence). lia. }
    apply insert_points_cons in Hrun;
      [|eapply NoDup_map_inv; apply Hinv].
    apply (IH (i + 1) (insert_step (bad_for s all_points p) i T) T');
      try assumption.
    + lia.
    + replace (Z.to_nat (i + 1)) with (S (Z.to_nat i)) by lia. exact Hsk'.
    + apply working_inv_step; [lia|exact Hinv].
    + apply Hstep; try assumption; lia.
Qed.

(** The same for a whole run that returns a mesh: what the initial working
    triangulation has and every pass keeps, in whatever store, the final
    one has. *)
Lemma triangulate_ok_invariant (I : Z -> list (Z * Z * Z) -> Prop)
      (self : Triangulator.t) (s s' : store) (pts : list Point)
      (m : Triangles.t) :
  store_get s (PointSet.points (Triangulator.point_set self)) = Ok pts ->
  Triangulator.triangulate self s = (Ok m, s') ->
  let n := Z.of_nat (length pts) in
  I 0 [(n, n + 1, n + 2)] ->
  (forall s2 r i triangulation p,
     0 <= i < n -> nth_error pts (Z.to_nat i) = Some p ->
     working_inv i n triangulation -> I i triangulation ->
     I (i + 1) (insert_step (bad_for s2 r p) i triangulation)) ->
  exists triangulation,
    Triangles.triangles m
    = map Triangulator.as_tuple (filter (within n) triangulation) /\
    working_inv n n triangulation /\ I n triangulation.
Proof.
  intros Hget Hrun n H0 Hstep. unfold Triangulator.triangulate in Hrun.
  rewrite Hget in Hrun.
  destruct (Triangulator.super_triangle pts) as [[[p1 p2] p3]|e];
    [|discriminate].
  unfold Triangulator.run, store_alloc in Hrun. fold n in Hrun.
  injection Hrun as Hm _.
  set (s1 := s ++ [[p1; p2; p3]]) in *.
  set (s2 := s1 ++ [pts ++ [p1; p2; p3]]) in *.
  destruct (Triangulator.insert_points s2 (length s1) pts 0 [(n, n + 1, n + 2)])
    as [T|e] eqn:ET; cbn [bind] in Hm; [|discriminate].
  assert (Hold : store_get s2 (PointSet.points (Triangulator.point_set self))
                 = Ok pts).
  { pose proof (store_get_lt _ _ _ Hget) as Hlt. unfold s2, s1, store_get.
    rewrite <- app_assoc, nth_error_app1 by exact Hlt. exact Hget. }
  destruct (insert_points_invariant s2 (length s1) pts I
              (Hstep s2 (length s1)) pts 0 [(n, n + 1, n + 2)] T)
    as [Hinv HI]; try assumption.
  - pose proof (Zle_0_nat (length pts)). fold n. lia.
  - reflexivity.
  - split.
    + constructor; [|constructor]. unfold tri_ok, vertex_ok. repeat split; lia.
    + cbn [map]. constructor; [intros []|constructor].
  - rewrite cleanup_spec in Hm. cbn [app] in Hm.
    destruct (init_ok_inv _ _ pts _ m Hold Hm) as [-> _].
    exists T. auto.
Qed.

(* ================================================================== *)
(** * The triangles of a run depend on the points only *)

Lemma predicate_ext (s s' : store) (r r' : ref) :
  store_get s r = store_get s' r' ->
  forall p t, Triangulator._is_point_in_circumcircle s p t r
              = Triangulator._is_point_in_circumcircle s' p t r'.
Proof.
  intros H p [[t0 t1] t2]. unfold Triangulator._is_point_in_circumcircle.
  rewrite H. reflexivity.
Qed.

Lemma find_bad_ext (s s' : store) (r r' : ref) :
  store_get s r = store_get s' r' ->
  forall p triangulation bad,
    Triangulator.find_bad s p r triangulation bad
    = Triangulator.find_bad s' p r' triangulation bad.
Proof.
  intros H p. induction triangulation as [|t rest IH]; intros bad;
    cbn [Triangulator.find_bad]; [reflexivity|].
  rewrite (predicate_ext s s' r r' H).
  destruct (Triangulator._is_point_in_circumcircle s' p t r'); cbn [bind];
    [apply IH|reflexivity].
Qed.

Lemma insert_points_ext (s s' : store) (r r' : ref) :
  store_get s r = store_get s' r' ->
  forall points i triangulation,
    Triangulator.insert_points s r points i triangulation
    = Triangulator.insert_points s' r' points i triangulation.
Proof.
  intros H. induction points as [|p rest IH]; intros i triangulation;
    cbn [Triangulator.insert_points]; [reflexivity|].
  rewrite (find_bad_ext s s' r r' H).
  destruct (Triangulator.find_bad s' p r' triangulation []); cbn [bind];
    [|reflexivity].
  destruct (Triangulator.remove_loop a triangulation); cbn [bind];
    [apply IH|reflexivity].
Qed.

(** Whatever the store and the triangulator, a run on the points [pts]
    comes to what [triangles_of pts] tells. *)
Lemma run_triangles_of (self : Triangulator.t) (s : store) (pts : list Point) :
  store_get s (PointSet.points (Triangulator.point_set self)) = Ok pts ->
  match fst (Triangulator.triangulate self s) with
  | Ok m => Ok (Triangles.triangles m)
  | Raise e => Raise e
  end = triangles_of pts.
Proof.
  intros Hget. unfold triangles_of, Triangulator.triangulate.
  rewrite Hget. cbn [triangulator0 Triangulator.point_set
                     PointSet.points store_get nth_error].
  destruct (Triangulator.super_triangle pts) as [[[p1 p2] p3]|e];
    [|reflexivity].
  unfold Triangulator.run, store_alloc. cbn [fst].
  rewrite (insert_points_ext
             ((s ++ [[p1; p2; p3]]) ++ [pts ++ [p1; p2; p3]])
             (([pts] ++ [[p1; p2; p3]]) ++ [pts ++ [p1; p2; p3]])
             (length (s ++ [[p1; p2; p3]]))
             (length ([pts] ++ [[p1; p2; p3]]))).
  2: { rewrite (store_get_alloc (s ++ [[p1; p2; p3]])
                                (pts ++ [p1; p2; p3])
                : store_get ((s ++ [[p1; p2; p3]]) ++ [pts ++ [p1; p2; p3]])
                            (length (s ++ [[p1; p2; p3]])) = _).
       reflexivity. }
  destruct (Triangulator.insert_points _ _ pts 0 _) as [T|e]; cbn [bind];
    [|reflexivity].
  assert (Hold : store_get ((s ++ [[p1; p2; p3]]) ++ [pts ++ [p1; p2; p3]])
                           (PointSet.points (Triangulator.point_set self))
                 = Ok pts).
  { pose proof (store_get_lt _ _ _ Hget) as Hlt. unfold store_get.
    rewrite <- app_assoc, nth_error_app1 by exact Hlt. exact Hget. }
  rewrite (init_spec _ _ pts Hold).
  rewrite (init_spec (([pts] ++ [[p1; p2; p3]]) ++ [pts ++ [p1; p2; p3]])
                     {| PointSet.points := 0%nat |} pts eq_refl).
  destruct (first_error _ _ _); reflexivity.
Qed.

Lemma triangulate_triangles (self : Triangulator.t) (s s' : store)
      (pts : list Point) (m : Triangles.t) :
  store_get s (PointSet.points (Triangulator.point_set self)) = Ok pts ->
  Triangulator.triangulate self s = (Ok m, s') ->
  triangles_of pts = Ok (Triangles.triangles m).
Proof.
  intros Hget Hrun. rewrite <- (run_triangles_of self s pts Hget), Hrun.
  reflexivity.
Qed.

(** The mesh of a run is over the point set of the triangulator. *)
Lemma triangulate_pointset (self : Triangulator.t) (s s' : store)
      (m : Triangles.t) :
  Triangulator.triangulate self s = (Ok m, s') ->
  Triangles.pointset m = Triangulator.point_set self.
Proof.
  unfold Triangulator.triangulate.
  destruct (store_get s _) as [pts|e]; [|discriminate].
  destruct (Triangulator.super_triangle pts) as [[[p1 p2] p3]|e];
    [|discriminate].
  unfold Triangulator.run, store_alloc.
  destruct (Triangulator.insert_points _ _ _ _ _) as [T|e]; cbn [bind];
    [|discriminate].
  unfold Triangles.init. destruct (Triangles._validate_triangles _ _ _);
    cbn [bind]; [|discriminate].
  intros E. injection E as <- _. reflexivity.
Qed.

(* ================================================================== *)
(** * What the power returns *)



Lemma eqb_zero (v : float) :
  eqb v 0 = true -> exists sg, Prim2SF v = S754_zero sg.
Proof.
  rewrite eqb_spec. change (Prim2SF 0) with (S754_zero false).
  destruct (Prim2SF v) as [sg|sg| |sg m e]; try discriminate; [eauto| |].
  - destruct sg; discriminate.
  - destruct sg; discriminate.
Qed.


Lemma eqb_zero_not_infinity (v : float) :
  eqb v 0 = true -> is_infinity v = false.
Proof.
  intros H. apply eqb_zero in H. destruct H as [sg H].
  apply not_true_is_false. rewrite is_infinity_spec. intros [sg' E].
  congruence.
Qed.


(** With an accurate library, a power comes to one of [pow2_outcomes]. *)
Lemma float_pow2_outcomes (v : float) :
  accurate L -> In (float_pow2 v) (pow2_outcomes v).
Proof.
  intros HL. unfold float_pow2, pow2_outcomes.
  destruct (is_nan v); [left; reflexivity|].
  destruct (is_infinity v); [left; reflexivity|].
  destruct (eqb v 0); [left; reflexivity|].
  set (iv := if ltb v 0 then (- v)%float else v).
  destruct (eqb iv 1); [left; reflexivity|].
  destruct (HL iv) as [Hnear Herr].
  destruct (pow2 iv) as [ix e]. cbn [fst snd] in Hnear, Herr.
  assert (Hin : In ix [(iv * iv)%float; next_down (iv * iv);
                       next_up (iv * iv)]).
  { destruct Hnear as [->|[[-> _]|[-> _]]]; cbn [In]; auto. }
  apply (in_map (fun c => if is_infinity c
                          then Raise (OverflowError
                                        "(34, 'Numerical result out of range')")
                          else Ok c)) in Hin.
  destruct Herr as [-> | [-> Hcase]].
  - destruct (is_infinity ix); exact Hin.
  - destruct (eqb ix 0) eqn:Ez.
    + rewrite (eqb_zero_not_infinity ix Ez) in Hin. exact Hin.
    + destruct Hcase as [Hi|Hz]; [|congruence]. rewrite Hi in Hin. exact Hin.
Qed.

(* ================================================================== *)
(** * What a run leaves in the store *)

Lemma triangulate_store (self : Triangulator.t) (s s' : store)
      (r : result Triangles.t) :
  Triangulator.triangulate self s = (r, s') -> exists fresh, s' = s ++ fresh.
Proof.
  unfold Triangulator.triangulate.
  destruct (store_get s (PointSet.points (Triangulator.point_set self)))
    as [pts|e].
  - destruct (Triangulator.super_triangle pts) as [[[p1 p2] p3]|e].
    + unfold Triangulator.run, store_alloc. intros E. injection E as _ <-.
      exists [[p1; p2; p3]; pts ++ [p1; p2; p3]].
      rewrite <- app_assoc. reflexivity.
    + intros E. injection E as _ <-. exists []. rewrite app_nil_r. reflexivity.
  - intros E. injection E as _ <-. exists []. rewrite app_nil_r. reflexivity.
Qed.

(** C9: whatever a run returns, value or error, the store it leaves is the
    initial store followed by the lists the run created, which are none or
    the list of the three super-triangle vertices and the extended list of
    all points; every list of the initial store, the point list of the
    [PointSet] among them, is what it was. *)
Theorem C9_triangulate_leaves_points_untouched
        (self : Triangulator.t) (s s' : store) (r : result Triangles.t) :
  Triangulator.triangulate self s = (r, s') ->
  (exists fresh,
     s' = s ++ fresh /\
     (fresh = [] \/
      exists pts p1 p2 p3,
        store_get s (PointSet.points (Triangulator.point_set self)) = Ok pts /\
        fresh = [[p1; p2; p3]; pts ++ [p1; p2; p3]])) /\
  (forall ref l, store_get s ref = Ok l -> store_get s' ref = Ok l) /\
  store_get s' (PointSet.points (Triangulator.point_set self))
  = store_get s (PointSet.points (Triangulator.point_set self)).
Proof.
  intros Hrun.
  assert (Hfresh : exists fresh,
             s' = s ++ fresh /\
             (fresh = [] \/
              exists pts p1 p2 p3,
                store_get s (PointSet.points (Triangulator.point_set self))
                = Ok pts /\
                fresh = [[p1; p2; p3]; pts ++ [p1; p2; p3]])).
  { unfold Triangulator.triangulate in Hrun.
    destruct (store_get s (PointSet.points (Triangulator.point_set self)))
      as [pts|e] eqn:Hget.
    - destruct (Triangulator.super_triangle pts) as [[[p1 p2] p3]|e].
      + unfold Triangulator.run, store_alloc in Hrun. injection Hrun as _ <-.
        exists [[p1; p2; p3]; pts ++ [p1; p2; p3]]. split.
        * rewrite <- app_assoc. reflexivity.
        * right. exists pts, p1, p2, p3. auto.
      + injection Hrun as _ <-. exists []. rewrite app_nil_r. auto.
    - injection Hrun as _ <-. exists []. rewrite app_nil_r. auto. }
  destruct Hfresh as (fresh & -> & Hcase).
  assert (Hold : forall ref l, store_get s ref = Ok l ->
                               store_get (s ++ fresh) ref = Ok l).
  { intros ref l Hl. pose proof (store_get_lt _ _ _ Hl) as Hlt.
    unfold store_get in *. rewrite nth_error_app1 by exact Hlt. exact Hl. }
  split; [exists fresh; auto|]. split; [exact Hold|].
  destruct (store_get s (PointSet.points (Triangulator.point_set self)))
    as [pts|e] eqn:Hget.
  - apply Hold. exact Hget.
  - destruct Hcase as [->|(pts & ? & ? & ? & Hpts & _)]; [|discriminate].
    rewrite app_nil_r. exact Hget.
Qed.

(* ================================================================== *)
(** * More on the triangles a run returns *)

(** X5: each returned triangle lists last the point that was inserted last:
    the run makes every triangle as [(edge[0], edge[1], i)] for the point
    [i] being inserted, out of an edge of older triangles, so that in a
    returned triangle [[a; b; c]] the indices [a] and [b] are below [c]. *)
Theorem returned_triangle_newest_last
        (self : Triangulator.t) (s s' : store) (pts : list Point)
        (m : Triangles.t) :
  store_get s (PointSet.points (Triangulator.point_set self)) = Ok pts ->
  Triangulator.triangulate self s = (Ok m, s') ->
  forall t, In t (Triangles.triangles m) ->
  exists a b c,
    t = [a; b; c] /\ 0 <= a < c /\ 0 <= b < c /\
    2 <= c < Z.of_nat (length pts).
Proof.
  intros Hget Hrun.
  destruct (triangulate_ok_invariant
              (fun i T => Forall (last_is_newest i (Z.of_nat (length pts))) T)
              self s s' pts m Hget Hrun) as (T & -> & [Hok _] & HI).
  - constructor; [left; reflexivity|constructor].
  - intros s2 r i T p Hi _ [Hok _] HI. unfold insert_step.
    rewrite Forall_forall in HI. apply Forall_forall. intros t Ht.
    apply in_app_or in Ht. destruct Ht as [Ht|Ht].
    + apply filter_In in Ht. destruct Ht as [Ht _].
      destruct (HI t Ht) as [E|E]; [left; exact E|right].
      destruct t as [[a b] c]. lia.
    + apply in_map_iff in Ht. destruct Ht as (e & <- & He).
      destruct (polygon_edge _ i _ T e Hok He) as (t0 & Ht0 & _ & Hin & _).
      apply edge_vertices in Hin. destruct Hin as [H1 H2].
      right. unfold new_triangle.
      assert (Hv : forall v, In v (Triangulator.as_tuple t0) ->
                             v < i \/ Z.of_nat (length pts) <= v).
      { intros v Hv. destruct (HI t0 Ht0) as [->|E].
        - cbn in Hv. lia.
        - destruct t0 as [[a b] c]. cbn in Hv. lia. }
      split; [lia|]. split; apply Hv; assumption.
  - intros t Ht. apply in_map_iff in Ht. destruct Ht as ([[a b] c] & <- & Ht).
    apply filter_In in Ht. destruct Ht as [Ht Hw].
    apply within_spec in Hw. rewrite Forall_forall in HI, Hok.
    specialize (HI _ Ht). specialize (Hok _ Ht).
    destruct Hok as ((Hab & Hbc & Hac) & Ha & Hb & Hc).
    unfold vertex_ok in Ha, Hb, Hc.
    exists a, b, c. split; [reflexivity|].
    destruct HI as [E|E]; [injection E as -> -> ->; lia|]. lia.
Qed.

(** X6: a point with a coordinate that is a NaN or an infinity is a vertex of
    no returned triangle: the predicate compares its squared distance to the
    circumcenter, which is plus infinity or a NaN, with [<], so that the
    point is inside no circumcircle, its pass removes no triangle and adds
    none, and no later triangle is built on it. *)
Theorem non_finite_point_in_no_triangle
        (self : Triangulator.t) (s s' : store) (pts : list Point)
        (m : Triangles.t) (v : nat) (p : Point) :
  store_get s (PointSet.points (Triangulator.point_set self)) = Ok pts ->
  Triangulator.triangulate self s = (Ok m, s') ->
  nth_error pts v = Some p ->
  has_non_finite p = true ->
  forall t, In t (Triangles.triangles m) -> ~ In (Z.of_nat v) t.
Proof.
  intros Hget Hrun Hv Hp.
  destruct (triangulate_ok_invariant
              (fun _ T => forall t, In t T ->
                                    ~ In (Z.of_nat v) (Triangulator.as_tuple t))
              self s s' pts m Hget Hrun) as (T & -> & _ & HI).
  - intros t [<-|[]]. cbn [Triangulator.as_tuple In].
    assert (v < length pts)%nat by (apply nth_error_Some; congruence). lia.
  - intros s2 r i T q Hi Hq [Hok _] HI t Ht. unfold insert_step in Ht.
    apply in_app_or in Ht. destruct Ht as [Ht|Ht].
    + apply filter_In in Ht. apply HI, Ht.
    + apply in_map_iff in Ht. destruct Ht as (e & <- & He).
      destruct (polygon_edge _ i _ T e Hok He) as (t0 & Ht0 & Hbad & Hin & _).
      apply edge_vertices in Hin. destruct Hin as [H1 H2].
      unfold new_triangle. cbn [Triangulator.as_tuple In].
      intros [E|[E|[E|[]]]].
      * apply (HI t0 Ht0). rewrite <- E. exact H1.
      * apply (HI t0 Ht0). rewrite <- E. exact H2.
      * subst i. rewrite Nat2Z.id in Hq. rewrite Hv in Hq. injection Hq as <-.
        destruct (predicate_inside _ _ _ _ Hbad) as (a & b & c & Hin).
        exact (inside_non_finite a b c p Hp Hin).
  - intros t Ht. apply in_map_iff in Ht. destruct Ht as (t0 & <- & Ht).
    apply filter_In in Ht. apply HI, Ht.
Qed.

(** X8: a run can be repeated.  A triangulator whose run returned a mesh
    returns the same mesh when it is run again, in the store the first run
    left, and a triangulator built again for the same point set in that
    store is built as it was in the initial one: a run reads the point list
    of the point set and leaves it, and the object, as they are. *)
Theorem triangulate_repeatable
        (self : Triangulator.t) (s s1 : store) (m : Triangles.t) :
  Triangulator.triangulate self s = (Ok m, s1) ->
  (exists s2, Triangulator.triangulate self s1 = (Ok m, s2)) /\
  Triangulator.init (Triangulator.point_set self) s1
  = Triangulator.init (Triangulator.point_set self) s.
Proof.
  intros Hrun.
  destruct (store_get s (PointSet.points (Triangulator.point_set self)))
    as [pts|e] eqn:Hget;
    [|unfold Triangulator.triangulate in Hrun; rewrite Hget in Hrun;
      discriminate].
  destruct (triangulate_store self s s1 _ Hrun) as [fresh ->].
  assert (Hget1 : store_get (s ++ fresh)
                            (PointSet.points (Triangulator.point_set self))
                  = Ok pts).
  { pose proof (store_get_lt _ _ _ Hget) as Hlt. unfold store_get in *.
    rewrite nth_error_app1 by exact Hlt. exact Hget. }
  split.
  - pose proof (run_triangles_of self s pts Hget) as E.
    pose proof (run_triangles_of self (s ++ fresh) pts Hget1) as E1.
    rewrite Hrun in E. cbn [fst] in E. rewrite <- E in E1.
    destruct (Triangulator.triangulate self (s ++ fresh)) as [[m2|e] s2] eqn:E2;
      cbn [fst] in E1; [|discriminate].
    injection E1 as E1.
    pose proof (triangulate_pointset self _ _ _ Hrun) as Hp.
    pose proof (triangulate_pointset self _ _ _ E2) as Hp2.
    exists s2. f_equal. f_equal. destruct m, m2. cbn in *. congruence.
  - unfold Triangulator.init. rewrite Hget, Hget1. reflexivity.
Qed.

(* ================================================================== *)
(** * Runs that never leave the super-triangle *)

Lemma insert_points_all_rejected (s : store) (all_points : ref)
      (t : Z * Z * Z) :
  forall points i,
    (forall p, In p points ->
       Triangulator._is_point_in_circumcircle s p t all_points = Ok false) ->
    Triangulator.insert_points s all_points points i [t] = Ok [t].
Proof.
  induction points as [|p rest IH]; intros i H; [reflexivity|].
  cbn [Triangulator.insert_points Triangulator.find_bad].
  rewrite (H p (or_introl eq_refl)). cbn.
  apply IH. intros q Hq. apply H. right. exact Hq.
Qed.

(** When the determinant of the super-triangle is under the guard, the
    predicate answers "not inside" for every point without taking a power,
    no pass removes the super-triangle, and step 3 drops it. *)
Lemma guarded_run_empty
      (self : Triangulator.t) (s : store) (pts : list Point)
      (p1 p2 p3 : Point) :
  store_get s (PointSet.points (Triangulator.point_set self)) = Ok pts ->
  Triangulator.super_triangle pts = Ok (p1, p2, p3) ->
  ltb (abs (det_d (coords p1) (coords p2) (coords p3))) eps = true ->
  fst (Triangulator.triangulate self s)
  = Ok {| Triangles.pointset := Triangulator.point_set self;
          Triangles.triangles := [] |}.
Proof.
  intros Hget Hst Hd.
  unfold Triangulator.triangulate. rewrite Hget, Hst.
  unfold Triangulator.run, store_alloc.
  set (n := Z.of_nat (length pts)).
  set (s1 := s ++ [[p1; p2; p3]]).
  set (s2 := s1 ++ [pts ++ [p1; p2; p3]]).
  assert (Hall : store_get s2 (length s1) = Ok (pts ++ [p1; p2; p3])).
  { apply (store_get_alloc s1). }
  assert (Hold : store_get s2 (PointSet.points (Triangulator.point_set self))
                 = Ok pts).
  { pose proof (store_get_lt _ _ _ Hget) as Hlt. unfold s2, s1, store_get.
    rewrite <- app_assoc, nth_error_app1 by exact Hlt. exact Hget. }
  assert (Hsuper : forall k q,
             (k < 3)%nat -> nth_error [p1; p2; p3] k = Some q ->
             py_getitem (pts ++ [p1; p2; p3]) (n + Z.of_nat k) = Ok q).
  { intros k q Hk Hq. apply py_getitem_nth; [lia|].
    replace (Z.to_nat (n + Z.of_nat k)) with (length pts + k)%nat by lia.
    rewrite nth_error_app2 by lia.
    replace (length pts + k - length pts)%nat with k by lia. exact Hq. }
  pose proof (Hsuper 0%nat p1 ltac:(lia) eq_refl) as G1.
  pose proof (Hsuper 1%nat p2 ltac:(lia) eq_refl) as G2.
  pose proof (Hsuper 2%nat p3 ltac:(lia) eq_refl) as G3.
  change (Z.of_nat 0) with 0 in G1. rewrite Z.add_0_r in G1.
  change (Z.of_nat 1) with 1 in G2. change (Z.of_nat 2) with 2 in G3.
  rewrite (insert_points_all_rejected s2 (length s1) (n, n + 1, n + 2) pts 0).
  - cbn [bind fst]. rewrite cleanup_spec. cbn [app filter within].
    cbn [existsb]. rewrite Z.geb_leb, Z.leb_refl. cbn [orb negb map].
    apply (init_ok_iff s2 (Triangulator.point_set self) pts _ Hold).
    split; constructor.
  - intros p _.
    rewrite (predicate_refines s2 (length s1) _ p p1 p2 p3 n (n + 1) (n + 2)
                               Hall G1 G2 G3).
    unfold inside_circumcircle. rewrite Hd. reflexivity.
Qed.

(** X10: a run returns the empty mesh whenever the determinant of the
    super-triangle is below 1e-9 in absolute value, whatever the points and
    whatever the C library. *)
Theorem empty_mesh_when_super_triangle_rejects
        (self : Triangulator.t) (s : store) (pts : list Point)
        (p1 p2 p3 : Point) :
  store_get s (PointSet.points (Triangulator.point_set self)) = Ok pts ->
  Triangulator.super_triangle pts = Ok (p1, p2, p3) ->
  ltb (abs (det_d (coords p1) (coords p2) (coords p3))) eps = true ->
  fst (Triangulator.triangulate self s)
  = Ok {| Triangles.pointset := Triangulator.point_set self;
          Triangles.triangles := [] |}.
Proof. apply guarded_run_empty. Qed.
(* ================================================================== *)
(** * Runs that every accurate library answers alike *)

Lemma all_same_spec (l : list (result bool)) (b : bool) :
  all_same l = Some b -> forall o, In o l -> o = Ok b.
Proof.
  destruct l as [|[b0|e] rest]; try discriminate. cbn [all_same].
  destruct (forallb _ rest) eqn:E; [|discriminate].
  intros H. injection H as <-. intros o [<-|Ho]; [reflexivity|].
  rewrite forallb_forall in E. specialize (E o Ho).
  destruct o as [b'|e]; [|discriminate].
  apply eqb_prop in E. congruence.
Qed.

Lemma robust_inside_sound (a b c p : float * float) (answer : bool) :
  accurate L ->
  robust_inside a b c p = Some answer ->
  inside_circumcircle a b c p = Ok answer.
Proof.
  intros HL. unfold robust_inside, inside_circumcircle.
  destruct (ltb (abs (det_d a b c)) eps).
  { intros E. injection E as <-. reflexivity. }
  set (u := circumcenter a b c). intros E.
  apply (all_same_spec _ _ E). unfold dist2.
  apply in_flat_map. exists (float_pow2 (fst u - fst a)).
  split; [apply float_pow2_outcomes, HL|].
  apply in_flat_map. exists (float_pow2 (snd u - snd a)).
  split; [apply float_pow2_outcomes, HL|].
  apply in_flat_map. exists (float_pow2 (fst u - fst p)).
  split; [apply float_pow2_outcomes, HL|].
  apply in_map_iff. exists (float_pow2 (snd u - snd p)).
  split; [|apply float_pow2_outcomes, HL].
  destruct (float_pow2 (fst u - fst a)); cbn [bind]; [|reflexivity].
  destruct (float_pow2 (snd u - snd a)); cbn [bind]; [|reflexivity].
  destruct (float_pow2 (fst u - fst p)); cbn [bind]; [|reflexivity].
  destruct (float_pow2 (snd u - snd p)); reflexivity.
Qed.

Section Robust.

Variables (s : store) (all_points : ref) (l : list Point).
Hypothesis HL : accurate L.
Hypothesis Hget : store_get s all_points = Ok l.

Lemma robust_predicate_sound (p : Point) (t : Z * Z * Z) (answer : bool) :
  robust_predicate l p t = Some answer ->
  Triangulator._is_point_in_circumcircle s p t all_points = Ok answer.
Proof.
  destruct t as [[t0 t1] t2]. unfold robust_predicate.
  destruct (py_getitem l t0) as [p1|] eqn:E1; [|discriminate].
  destruct (py_getitem l t1) as [p2|] eqn:E2; [|discriminate].
  destruct (py_getitem l t2) as [p3|] eqn:E3; [|discriminate].
  intros E.
  rewrite (predicate_refines s all_points l p p1 p2 p3 t0 t1 t2
                             Hget E1 E2 E3).
  apply robust_inside_sound; assumption.
Qed.

Lemma robust_find_bad_sound (p : Point) :
  forall triangulation bad bad',
    robust_find_bad l p triangulation bad = Some bad' ->
    Triangulator.find_bad s p all_points triangulation bad = Ok bad'.
Proof.
  induction triangulation as [|t rest IH]; intros bad bad';
    cbn [robust_find_bad Triangulator.find_bad].
  - intros E. injection E as <-. reflexivity.
  - destruct (robust_predicate l p t) as [b|] eqn:Eb; [|discriminate].
    rewrite (robust_predicate_sound p t b Eb). cbn [bind]. apply IH.
Qed.

Lemma robust_insert_points_sound :
  forall points i triangulation triangulation',
    robust_insert_points l points i triangulation = Some triangulation' ->
    Triangulator.insert_points s all_points points i triangulation
    = Ok triangulation'.
Proof.
  induction points as [|p rest IH]; intros i T T';
    cbn [robust_insert_points Triangulator.insert_points].
  - intros E. injection E as <-. reflexivity.
  - destruct (robust_find_bad l p T []) as [bad|] eqn:Eb; [|discriminate].
    rewrite (robust_find_bad_sound p T [] bad Eb). cbn [bind].
    destruct (Triangulator.remove_loop bad T) as [T1|e]; [|discriminate].
    cbn [bind]. apply IH.
Qed.

End Robust.

(** When [robust_triangles] tells the triangles of the points, a run on
    them returns these triangles with every accurate library. *)
Lemma robust_triangles_sound (self : Triangulator.t) (s : store)
      (pts : list Point) (triangles : list (list Z)) :
  accurate L ->
  store_get s (PointSet.points (Triangulator.point_set self)) = Ok pts ->
  robust_triangles pts = Some triangles ->
  exists s',
    Triangulator.triangulate self s
    = (Ok {| Triangles.pointset := Triangulator.point_set self;
             Triangles.triangles := triangles |}, s').
Proof.
  intros HL Hget. unfold robust_triangles, Triangulator.triangulate.
  rewrite Hget.
  destruct (Triangulator.super_triangle pts) as [[[p1 p2] p3]|e];
    [|discriminate].
  set (n := Z.of_nat (length pts)).
  destruct (robust_insert_points _ pts 0 _) as [T|] eqn:ER; [|discriminate].
  intros E. injection E as <-.
  unfold Triangulator.run, store_alloc. fold n.
  set (s1 := s ++ [[p1; p2; p3]]).
  set (s2 := s1 ++ [pts ++ [p1; p2; p3]]).
  assert (Hall : store_get s2 (length s1) = Ok (pts ++ [p1; p2; p3])).
  { apply (store_get_alloc s1). }
  assert (Hold : store_get s2 (PointSet.points (Triangulator.point_set self))
                 = Ok pts).
  { pose proof (store_get_lt _ _ _ Hget) as Hlt. unfold s2, s1, store_get.
    rewrite <- app_assoc, nth_error_app1 by exact Hlt. exact Hget. }
  pose proof (robust_insert_points_sound s2 (length s1) _ HL Hall
                                         pts 0 _ T ER) as ET.
  rewrite ET. cbn [bind].
  destruct (insert_points_invariant s2 (length s1) pts (fun _ _ => True)
              (fun _ _ _ _ _ _ _ => Logic.I) pts 0 [(n, n + 1, n + 2)] T)
    as [Hinv _]; try assumption.
  - pose proof (Zle_0_nat (length pts)). fold n. lia.
  - reflexivity.
  - split.
    + constructor; [|constructor]. unfold tri_ok, vertex_ok. repeat split; lia.
    + cbn [map]. constructor; [intros []|constructor].
  - exact Logic.I.
  - exists s2. f_equal.
    apply (init_ok_iff s2 (Triangulator.point_set self) pts _ Hold).
    rewrite cleanup_spec. cbn [app].
    apply final_triangles_invariants. exact Hinv.
Qed.

(* ================================================================== *)
(** * The claims on given points *)

(** C2: on the unit square (0,0), (1,0), (1,1), (0,1) a run returns exactly
    two triangles, every index of which lies in [0,4), and the indices they
    use are exactly 0, 1, 2 and 3; this with every C library accurate to one
    unit in the last place. *)
Theorem C2_unit_square_two_triangles
        (self : Triangulator.t) (s : store) :
  accurate L ->
  store_get s (PointSet.points (Triangulator.point_set self)) = Ok unit_square ->
  exists m s',
    Triangulator.triangulate self s = (Ok m, s') /\
    length (Triangles.triangles m) = 2%nat /\
    Forall (Forall (fun idx => 0 <= idx < 4)) (Triangles.triangles m) /\
    (forall idx, In idx (concat (Triangles.triangles m)) <->
                 In idx [0; 1; 2; 3]).
Proof.
  intros HL Hget.
  destruct (robust_triangles_sound self s unit_square [[1; 0; 2]; [2; 0; 3]]
                                   HL Hget) as [s' Hrun].
  { vm_compute. reflexivity. }
  do 2 eexists. split; [exact Hrun|]. cbn [Triangles.triangles].
  split; [reflexivity|]. split.
  - repeat constructor; lia.
  - intros idx. cbn [concat app In]. intuition lia.
Qed.

(** The flat triangle: the three points (0,0), (1,0), (0.5,-0.01) are
    pairwise different and not collinear, the triangulator accepts them,
    and a run on them returns the mesh without any triangle, with every C
    library accurate to one unit in the last place.  The super-triangle
    reaches 20 times the extent of the points only: the third point falls
    inside the circumcircle of the points 0, 1 and the upper vertex of
    the super-triangle, and the edge from 0 to 1 is lost.  The test
    [test_triangulate_three_points] of the repository says of the
    triangulation of 3 points that it must give 1 triangle. *)
Lemma flat_triangle_no_triangle
      (self : Triangulator.t) (s : store) :
  accurate L ->
  store_get s (PointSet.points (Triangulator.point_set self)) = Ok flat_triangle ->
  (length flat_triangle = 3%nat /\
   ~ has_equal_points flat_triangle /\
   non_collinear flat_triangle = true /\
   Triangulator.init (Triangulator.point_set self) s = Ok self) /\
  exists s',
    Triangulator.triangulate self s
    = (Ok {| Triangles.pointset := Triangulator.point_set self;
             Triangles.triangles := [] |}, s').
Proof.
  intros HL Hget. split.
  - assert (Hnd : ~ has_equal_points flat_triangle).
    { destruct (no_duplicates_loop_spec flat_triangle [])
        as [[E _]|(_ & H & _)]; [vm_compute in E; discriminate|exact H]. }
    split; [reflexivity|]. split; [exact Hnd|].
    split; [vm_compute; reflexivity|].
    destruct (triangulator_init_spec s (Triangulator.point_set self)
                                     flat_triangle Hget)
      as [[Hn _]|[(_ & Hd & _)|(_ & _ & E)]].
    + cbn in Hn. lia.
    + contradiction.
    + rewrite E. destruct self. reflexivity.
  - apply (robust_triangles_sound self s flat_triangle [] HL Hget).
    vm_compute. reflexivity.
Qed.

(* ================================================================== *)
(** * Squares that stay in range *)

(** The square of a float below [2 ^ 511] is a zero or a finite float
    below [2 ^ 1023]. *)
Lemma square_in_range (v : float) (sg : bool) (m : positive) (e : Z) :
  Prim2SF v = S754_finite sg m e ->
  Z.pos (digits2_pos m) + e <= 511 ->
  in_range (Prim2SF (v * v)).
Proof.
  intros E Hk. destruct (Prim2SF_canonical v sg m e E) as [Hc _].
  rewrite mul_spec, E. unfold SF64mul. cbn [SFmul].
  destruct (binary_round_aux_spec (xorb sg sg) (Z.pos (m * m)) (e + e)
                                  loc_Exact 1022)
    as (m' & e' & Hm' & HK & He' & ->); [lia| |].
  { pose proof (Zdigits2_mul (Z.pos m) (Z.pos m) ltac:(lia) ltac:(lia)) as H.
    cbn [Zdigits2 Z.mul] in *. lia. }
  unfold fexp, emin, prec, emax in *.
  destruct m' as [|p|p]; [exact I| |lia].
  destruct (Z.leb_spec e' (1024 - 53)); [|lia].
  cbn [in_range Zdigits2] in *. lia.
Qed.

Lemma infinity_cases (r : float) :
  is_infinity r = true -> r = infinity \/ r = neg_infinity.
Proof.
  intros H. apply is_infinity_spec in H. destruct H as [[|] H];
    [right|left]; apply Prim2SF_inj; rewrite H; reflexivity.
Qed.

Lemma near_in_range (r x : float) :
  near r x -> in_range (Prim2SF x) -> is_infinity r = false.
Proof.
  intros Hn Hx. apply not_true_is_false. intros Hi.
  apply infinity_cases in Hi.
  destruct Hn as [->|[[_ ->]|[_ ->]]]; destruct Hi as [-> | ->];
    vm_compute in Hx; try exact Hx; apply Hx; reflexivity.
Qed.

Lemma finite_cases (v : float) :
  is_nan v = false -> is_infinity v = false -> eqb v 0 = false ->
  exists sg m e, Prim2SF v = S754_finite sg m e.
Proof.
  intros Hn Hi Hz. destruct (Prim2SF v) as [sg|sg| |sg m e] eqn:E.
  - rewrite eqb_spec, E in Hz. discriminate Hz.
  - assert (H : is_infinity v = true) by (apply is_infinity_spec; eauto).
    congruence.
  - apply is_nan_spec in E. congruence.
  - eauto.
Qed.

(** With an accurate library, the square of a float below [2 ^ 511]
    returns. *)
Lemma float_pow2_total (v : float) :
  accurate L -> below 511 v -> exists r, float_pow2 v = Ok r.
Proof.
  intros HL Hv. unfold float_pow2.
  destruct (is_nan v) eqn:En; [eauto|].
  destruct (is_infinity v) eqn:Ei; [eauto|].
  destruct (eqb v 0) eqn:Ez; [eauto|].
  destruct (finite_cases v En Ei Ez) as (sg & m & e & E).
  set (iv := if ltb v 0 then (- v)%float else v).
  assert (Eiv : exists sg', Prim2SF iv = S754_finite sg' m e).
  { unfold iv. destruct (ltb v 0); [|eauto].
    rewrite opp_spec, E. cbn. eauto. }
  destruct Eiv as [sg' Eiv].
  destruct (eqb iv 1); [eauto|].
  unfold below in Hv. rewrite E in Hv. cbn [sf_below] in Hv.
  pose proof (square_in_range iv sg' m e Eiv Hv) as Hr.
  destruct (HL iv) as [Hnear Herr].
  pose proof (near_in_range _ _ Hnear Hr) as Hfin.
  destruct (pow2 iv) as [ix er]. cbn [fst snd] in *.
  destruct Herr as [->|[-> [Hinf|Hzero]]].
  - rewrite Hfin. eauto.
  - congruence.
  - rewrite Hzero. eauto.
Qed.

(** ** The predicate returns *)

Ltac mag :=
  lazymatch goal with
  | H : below ?k ?x |- below _ ?x => exact H
  | |- below _ (_ * _) =>
      eapply mul_below; [mag|mag|unfold emin, prec, emax; lia]
  | |- below _ (_ + _) =>
      eapply add_below; [mag|mag|unfold emin, prec, emax; lia]
  | |- below _ (_ - _) =>
      eapply sub_below; [mag|mag|unfold emin, prec, emax; lia]
  | |- below _ (_ / _) =>
      eapply div_below;
      [mag|eassumption|unfold emin, prec, emax; lia]
  end.

Ltac mag_le := eapply below_mono; [|mag]; lia.

Lemma below_2 : below 2 2.
Proof. vm_compute. discriminate. Qed.

Lemma above_2 : above 2 2.
Proof. vm_compute. discriminate. Qed.

Lemma below_20 : below 5 20.
Proof. vm_compute. discriminate. Qed.

Lemma dist2_total (u v : float * float) :
  accurate L ->
  below 509 (fst u) -> below 509 (snd u) ->
  below 509 (fst v) -> below 509 (snd v) ->
  exists r, dist2 u v = Ok r.
Proof.
  intros HL Hux Huy Hvx Hvy. unfold dist2.
  destruct (float_pow2_total (fst u - fst v) HL) as [x2 ->]; [mag_le|].
  destruct (float_pow2_total (snd u - snd v) HL) as [y2 ->]; [mag_le|].
  cbn [bind]. eauto.
Qed.

Lemma circumcenter_below (a b c : float * float) :
  below 140 (fst a) -> below 140 (snd a) ->
  below 140 (fst b) -> below 140 (snd b) ->
  below 140 (fst c) -> below 140 (snd c) ->
  ltb (abs (det_d a b c)) eps = false ->
  below 461 (fst (circumcenter a b c)) /\
  below 461 (snd (circumcenter a b c)).
Proof.
  destruct a as [ax ay], b as [bx by_], c as [cx cy]. cbn [fst snd].
  intros Hax Hay Hbx Hby Hcx Hcy Hd. apply above_eps in Hd.
  unfold circumcenter. fold (det_d (ax, ay) (bx, by_) (cx, cy)).
  set (d := det_d (ax, ay) (bx, by_) (cx, cy)) in *. cbn [fst snd].
  split; mag_le.
Qed.

Lemma inside_total (a b c p : float * float) :
  accurate L ->
  below 140 (fst a) -> below 140 (snd a) ->
  below 140 (fst b) -> below 140 (snd b) ->
  below 140 (fst c) -> below 140 (snd c) ->
  below 140 (fst p) -> below 140 (snd p) ->
  exists r, inside_circumcircle a b c p = Ok r.
Proof.
  intros HL Hax Hay Hbx Hby Hcx Hcy Hpx Hpy. unfold inside_circumcircle.
  destruct (ltb (abs (det_d a b c)) eps) eqn:Hd; [eauto|].
  destruct (circumcenter_below a b c Hax Hay Hbx Hby Hcx Hcy Hd) as [Hx Hy].
  destruct (dist2_total (circumcenter a b c) a HL) as [r ->];
    try (eapply below_mono; [|eassumption]; lia).
  destruct (dist2_total (circumcenter a b c) p HL) as [q ->];
    try (eapply below_mono; [|eassumption]; lia).
  cbn [bind]. eauto.
Qed.

(* ================================================================== *)
(** * Runs on decoded points return *)

Lemma fold_choice (P : float -> Prop) (f : float -> float -> float) :
  (forall m y, f m y = m \/ f m y = y) ->
  forall rest x, P x -> Forall P rest -> P (fold_left f rest x).
Proof.
  intros Hf. induction rest as [|y rest IH]; intros x Hx Hr; cbn [fold_left].
  - exact Hx.
  - inversion Hr as [|? ? Hy Hrest]; subst. apply IH; [|exact Hrest].
    destruct (Hf x y) as [-> | ->]; assumption.
Qed.

Lemma py_min_in (P : float -> Prop) (l : list float) (m : float) :
  Forall P l -> py_min l = Ok m -> P m.
Proof.
  destruct l as [|x rest]; [discriminate|]. intros H E.
  injection E as <-. inversion H; subst.
  apply fold_choice; [|assumption|assumption].
  intros m y. destruct (ltb y m); auto.
Qed.

Lemma py_max_in (P : float -> Prop) (l : list float) (m : float) :
  Forall P l -> py_max l = Ok m -> P m.
Proof.
  destruct l as [|x rest]; [discriminate|]. intros H E.
  injection E as <-. inversion H; subst.
  apply fold_choice; [|assumption|assumption].
  intros m y. destruct (ltb m y); auto.
Qed.

Lemma py_getitem_in {A : Type} (P : A -> Prop) (l : list A) (v : Z) (a : A) :
  Forall P l -> py_getitem l v = Ok a -> P a.
Proof.
  intros H. unfold py_getitem.
  destruct (_ || _); [discriminate|].
  destruct (nth_error l _) as [b|] eqn:E; [|discriminate].
  intros Eb. injection Eb as <-. apply nth_error_In in E.
  rewrite Forall_forall in H. auto.
Qed.

(** The vertices of the super-triangle of points below [2 ^ 130] are below
    [2 ^ 140]. *)
Lemma super_triangle_below (pts : list Point) (p1 p2 p3 : Point) :
  Forall (point_below 130) pts ->
  Triangulator.super_triangle pts = Ok (p1, p2, p3) ->
  point_below 140 p1 /\ point_below 140 p2 /\ point_below 140 p3.
Proof.
  intros Hpts. unfold Triangulator.super_triangle.
  assert (Hx : Forall (below 130) (map (fun p : Point => fval (fst p)) pts)).
  { apply Forall_map. revert Hpts. apply Forall_impl. intros p [H _]. exact H. }
  assert (Hy : Forall (below 130) (map (fun p : Point => fval (snd p)) pts)).
  { apply Forall_map. revert Hpts. apply Forall_impl. intros p [_ H]. exact H. }
  destruct (py_min (map (fun p : Point => fval (fst p)) pts))
    as [min_x|e] eqn:E1; cbn [bind]; [|discriminate].
  destruct (py_max (map (fun p : Point => fval (fst p)) pts))
    as [max_x|e] eqn:E2; cbn [bind]; [|discriminate].
  destruct (py_min (map (fun p : Point => fval (snd p)) pts))
    as [min_y|e] eqn:E3; cbn [bind]; [|discriminate].
  destruct (py_max (map (fun p : Point => fval (snd p)) pts))
    as [max_y|e] eqn:E4; cbn [bind]; [|discriminate].
  apply (py_min_in _ _ _ Hx) in E1. apply (py_max_in _ _ _ Hx) in E2.
  apply (py_min_in _ _ _ Hy) in E3. apply (py_max_in _ _ _ Hy) in E4.
  set (dx := (max_x - min_x)%float). set (dy := (max_y - min_y)%float).
  set (delta_max := if ltb dx dy then dy else dx).
  assert (Hd : below 132 delta_max).
  { unfold delta_max, dx, dy. destruct (ltb _ _); mag_le. }
  clearbody delta_max.
  pose proof below_20 as H20. pose proof above_2 as H2.
  intros E. injection E as <- <- <-. unfold point_below. cbn [fst snd fval].
  repeat split; mag_le.
Qed.

Lemma decoded_points_below (pts : list Point) :
  decoded_points pts -> Forall (point_below 130) pts.
Proof.
  intros [_ H]. revert H. apply Forall_impl. intros [x y] [Hx Hy].
  cbn [fst snd] in *. unfold point_below. cbn [fst snd].
  destruct x as [wx|x], y as [wy|y]; cbn [is_word] in *; try contradiction.
  cbn [fval]. split; apply f32_to_float_below.
Qed.

Section RunTotal.

Variables (s : store) (all_points : ref) (l : list Point) (n : Z).
Hypothesis HL : accurate L.
Hypothesis Hget : store_get s all_points = Ok l.
Hypothesis Hlen : Z.of_nat (length l) = n + 3.
Hypothesis Hl : Forall (point_below 140) l.

Lemma predicate_total (i : Z) (p : Point) (t : Z * Z * Z) :
  0 <= i <= n -> tri_ok i n t -> point_below 140 p ->
  exists b, Triangulator._is_point_in_circumcircle s p t all_points = Ok b.
Proof.
  intros Hi Ht Hp. destruct t as [[t0 t1] t2].
  destruct Ht as (_ & H0 & H1 & H2). unfold vertex_ok in *.
  destruct (py_getitem_ok l t0) as [p1 E1]; [lia|].
  destruct (py_getitem_ok l t1) as [p2 E2]; [lia|].
  destruct (py_getitem_ok l t2) as [p3 E3]; [lia|].
  rewrite (predicate_refines s all_points l p p1 p2 p3 t0 t1 t2 Hget E1 E2 E3).
  destruct (py_getitem_in _ _ _ _ Hl E1), (py_getitem_in _ _ _ _ Hl E2),
    (py_getitem_in _ _ _ _ Hl E3), Hp.
  apply inside_total; cbn [coords fst snd]; assumption.
Qed.

Lemma find_bad_total (i : Z) (p : Point) :
  0 <= i <= n -> point_below 140 p ->
  forall triangulation bad,
    Forall (tri_ok i n) triangulation ->
    exists bad',
      Triangulator.find_bad s p all_points triangulation bad = Ok bad'.
Proof.
  intros Hi Hp triangulation bad Hok. revert bad.
  induction Hok as [|t rest Ht _ IH]; intros bad;
    cbn [Triangulator.find_bad]; [eauto|].
  destruct (predicate_total i p t Hi Ht Hp) as [b ->]. cbn [bind]. apply IH.
Qed.

Lemma insert_points_total : forall points i triangulation,
  0 <= i -> i + Z.of_nat (length points) = n ->
  Forall (point_below 140) points ->
  working_inv i n triangulation ->
  exists triangulation',
    Triangulator.insert_points s all_points points i triangulation
    = Ok triangulation' /\
    working_inv n n triangulation'.
Proof.
  induction points as [|p rest IH]; intros i triangulation Hi Hn Hp Hinv.
  - cbn [length] in Hn. replace i with n in Hinv by lia.
    exists triangulation. split; [reflexivity|exact Hinv].
  - cbn [length] in Hn. apply Forall_cons_iff in Hp. destruct Hp as [Hp1 Hp2].
    destruct (IH (i + 1)
                 (insert_step (bad_for s all_points p) i triangulation))
      as (T & ET & HT); [lia|lia|exact Hp2| |].
    { apply working_inv_step; [lia|exact Hinv]. }
    exists T. split; [|exact HT]. rewrite <- ET.
    destruct Hinv as [Hok Hnd].
    destruct (find_bad_total i p ltac:(lia) Hp1 triangulation [] Hok)
      as [bad Eb].
    cbn [Triangulator.insert_points]. rewrite Eb. cbn [bind].
    pose proof (find_bad_spec _ _ _ _ _ _ Eb) as ->. cbn [app].
    rewrite polygon_loop_spec. cbn [app].
    pose proof (remove_loop_spec (bad_for s all_points p) triangulation [])
      as Hrm. cbn [app] in Hrm.
    rewrite Hrm; [|eapply NoDup_map_inv; exact Hnd|intros ? ? ? []].
    cbn [bind]. rewrite append_loop_spec. reflexivity.
Qed.

End RunTotal.

(** A run on at least one point, all below [2 ^ 130], returns a mesh that
    satisfies the invariants, in a store that extends the initial one with
    the two lists the run created. *)
Lemma triangulate_total (self : Triangulator.t) (s : store) (pts : list Point) :
  accurate L ->
  Forall (point_below 130) pts ->
  store_get s (PointSet.points (Triangulator.point_set self)) = Ok pts ->
  pts <> [] ->
  exists triangles p1 p2 p3,
    Triangulator.triangulate self s
    = (Ok {| Triangles.pointset := Triangulator.point_set self;
             Triangles.triangles := triangles |},
       s ++ [[p1; p2; p3]; pts ++ [p1; p2; p3]]) /\
    mesh_invariants (Z.of_nat (length pts)) triangles.
Proof.
  intros HL Hpts Hget Hne. unfold Triangulator.triangulate. rewrite Hget.
  destruct (super_triangle_ok pts Hne) as (p1 & p2 & p3 & Est). rewrite Est.
  destruct (super_triangle_below pts p1 p2 p3 Hpts Est) as (B1 & B2 & B3).
  assert (Hpts' : Forall (point_below 140) pts).
  { revert Hpts. apply Forall_impl. intros p [Hx Hy].
    split; (eapply below_mono; [|eassumption]; lia). }
  unfold Triangulator.run, store_alloc.
  set (n := Z.of_nat (length pts)).
  set (s1 := s ++ [[p1; p2; p3]]).
  set (s2 := s1 ++ [pts ++ [p1; p2; p3]]).
  assert (Hall : store_get s2 (length s1) = Ok (pts ++ [p1; p2; p3])).
  { apply (store_get_alloc s1). }
  assert (Hold : store_get s2 (PointSet.points (Triangulator.point_set self))
                 = Ok pts).
  { pose proof (store_get_lt _ _ _ Hget) as Hlt. unfold s2, s1, store_get.
    rewrite <- app_assoc, nth_error_app1 by exact Hlt. exact Hget. }
  destruct (insert_points_total s2 (length s1) (pts ++ [p1; p2; p3]) n HL Hall
              ltac:(rewrite length_app; cbn [length]; lia)
              ltac:(apply Forall_app; split; [exact Hpts'|];
                    repeat (apply Forall_cons; [assumption|]);
                    apply Forall_nil)
              pts 0 [(n, n + 1, n + 2)])
    as (T & ET & Hinv).
  - lia.
  - lia.
  - exact Hpts'.
  - split.
    + constructor; [|constructor]. unfold tri_ok, vertex_ok. repeat split; lia.
    + cbn [map]. constructor; [intros []|constructor].
  - rewrite ET. cbn [bind]. rewrite cleanup_spec. cbn [app].
    pose proof (final_triangles_invariants n T Hinv) as Hmesh.
    exists (map Triangulator.as_tuple (filter (within n) T)), p1, p2, p3.
    split; [|exact Hmesh].
    f_equal; [|unfold s2, s1; rewrite <- app_assoc; reflexivity].
    apply (init_ok_iff s2 (Triangulator.point_set self) pts _ Hold).
    exact Hmesh.
Qed.

(* ================================================================== *)
(** * The circumcircle predicate *)


(* ================================================================== *)
(** * Three points *)

(** C1 (amended): on three decoded points a run succeeds, with every C
    library accurate to one unit in the last place.  On the points (0,0),
    (1,0), (0,1) it returns exactly one triangle, on the indices 0, 1 and 2.
    When the determinant of the super-triangle is below 1e-9 in absolute
    value, the guard of the predicate counts the super-triangle as
    degenerate and the run returns the mesh without any triangle, whatever
    the three points. *)
Theorem C1_three_points_one_triangle
        (self : Triangulator.t) (s : store) (pts : list Point) :
  accurate L ->
  store_get s (PointSet.points (Triangulator.point_set self)) = Ok pts ->
  decoded_points pts ->
  length pts = 3%nat ->
  exists triangles s',
    Triangulator.triangulate self s
    = (Ok {| Triangles.pointset := Triangulator.point_set self;
             Triangles.triangles := triangles |}, s') /\
    (pts = three_points ->
     exists t, triangles = [t] /\ sorted t = [0; 1; 2]) /\
    (forall p1 p2 p3,
       Triangulator.super_triangle pts = Ok (p1, p2, p3) ->
       ltb (abs (det_d (coords p1) (coords p2) (coords p3))) eps = true ->
       triangles = []).
Proof.
  intros HL Hget Hdec Hlen.
  destruct (triangulate_total self s pts HL (decoded_points_below pts Hdec)
                              Hget)
    as (triangles & p1 & p2 & p3 & Hrun & _).
  { intros ->. discriminate Hlen. }
  exists triangles. eexists. split; [exact Hrun|]. split.
  - intros ->.
    destruct (robust_triangles_sound self s three_points [[1; 0; 2]] HL Hget)
      as [s' Hrun']; [vm_compute; reflexivity|].
    rewrite Hrun in Hrun'. injection Hrun' as -> _.
    exists [1; 0; 2]. split; reflexivity.
  - intros q1 q2 q3 Hst Hd.
    pose proof (guarded_run_empty self s pts q1 q2 q3 Hget Hst Hd) as He.
    rewrite Hrun in He. cbn [fst] in He. injection He as ->. reflexivity.
Qed.

(* ================================================================== *)
(** * Every run on decoded points returns *)

(** C10: for every decoded point collection that the triangulator accepts,
    with every C library accurate to one unit in the last place, a run
    returns normally: the point collection has at least 3 points, no two of
    them equal, and the triangle list handed to the validating construction
    satisfies the four mesh invariants over it, so that the construction
    accepts it.  Collinear points are not rejected: (0,0), (1,0), (2,0) are
    accepted and give a mesh without any triangle. *)
Theorem C10_triangulate_returns_valid_mesh
        (point_set : PointSet.t) (s : store) (self : Triangulator.t)
        (pts : list Point) :
  accurate L ->
  store_get s (PointSet.points point_set) = Ok pts ->
  decoded_points pts ->
  Triangulator.init point_set s = Ok self ->
  (exists triangles s',
     3 <= Z.of_nat (length pts) /\
     ~ has_equal_points pts /\
     mesh_invariants (Z.of_nat (length pts)) triangles /\
     Triangles.init s' point_set triangles
     = Ok {| Triangles.pointset := point_set;
             Triangles.triangles := triangles |} /\
     Triangulator.triangulate self s
     = (Ok {| Triangles.pointset := point_set;
              Triangles.triangles := triangles |}, s')) /\
  (decoded_points collinear_points /\
   Triangulator.init (Triangulator.point_set triangulator0) [collinear_points]
   = Ok triangulator0 /\
   triangles_of collinear_points = Ok []).
Proof.
  intros HL Hget Hdec Hinit. split.
  - destruct (triangulator_init_ok _ _ _ Hinit)
      as (pts' & Hget' & Hn & Hnd & ->).
    assert (pts' = pts) by congruence. subst pts'.
    destruct (triangulate_total {| Triangulator.point_set := point_set |} s pts
                                HL (decoded_points_below pts Hdec) Hget)
      as (triangles & p1 & p2 & p3 & Hrun & Hinv).
    { intros ->. cbn [length] in Hn. lia. }
    cbn [Triangulator.point_set] in Hrun.
    exists triangles, (s ++ [[p1; p2; p3]; pts ++ [p1; p2; p3]]).
    split; [exact Hn|]. split; [exact Hnd|].
    split; [exact Hinv|]. split; [|exact Hrun].
    apply (init_ok_iff _ _ pts); [|exact Hinv].
    pose proof (store_get_lt _ _ _ Hget) as Hlt. unfold store_get in *.
    rewrite nth_error_app1 by exact Hlt. exact Hget.
  - split; [|split].
    + split; [vm_compute; reflexivity|].
      repeat (apply Forall_cons; [split; split; vm_compute;
                                  intuition discriminate|]).
      apply Forall_nil.
    + vm_compute. reflexivity.
    + destruct (robust_triangles_sound triangulator0 [collinear_points]
                                       collinear_points [] HL eq_refl)
        as [s' Hrun]; [vm_compute; reflexivity|].
      unfold triangles_of. rewrite Hrun. reflexivity.
Qed.

(* ================================================================== *)
(** * The endpoint *)

(** X9: what the endpoint answers once the identifier is a UUID and the
    point set bytes are fetched, with every C library accurate to one unit
    in the last place.  It answers 500 with "Processing error: " and the
    message of the error exactly when the buffer is malformed, or decodes to
    fewer than 3 points, or to points two of which are equal; otherwise the
    points are triangulated, and it answers 200 with the bytes of the point
    set as received, up to the last declared point and a signalling NaN
    among the coordinate words made quiet, followed by the number of
    triangles and the triangles of the run; were the triangles too many for
    the 32-bit count, the [struct.error] would escape the handler, which
    catches [ValueError] only. *)
Theorem endpoint_processing_outcomes (data : bytes) (s : store) :
  accurate L ->
  let reply := fst (App.triangulate true (App.Body data) s) in
  match PointSet._build_from_bytes data with
  | Raise e =>
      MalformedBuffer e /\
      exists msg, e = ValueError msg /\ reply = processing_error msg
  | Ok pts =>
      (Z.of_nat (length pts) < 3 ->
       reply
       = processing_error "need at least three points for triangulation") /\
      (3 <= Z.of_nat (length pts) -> has_equal_points pts ->
       reply = processing_error "duplicate points in point set") /\
      (3 <= Z.of_nat (length pts) -> ~ has_equal_points pts ->
       exists triangles,
         triangles_of pts = Ok triangles /\
         mesh_invariants (Z.of_nat (length pts)) triangles /\
         (Z.of_nat (length triangles) < two32 ->
          reply
          = App.OctetStream 200
              (quiet_buffer (firstn (4 + 8 * length pts) data)
               ++ le32_encode (Z.of_nat (length triangles))
               ++ flat_map triangle_words triangles)) /\
         (two32 <= Z.of_nat (length triangles) ->
          reply
          = App.Propagates
              (StructError
                 (if Z.of_nat (length triangles) <? 18446744073709551616
                  then "'I' format requires 0 <= number <= 4294967295"
                  else "argument out of range"))))
  end.
Proof.
  intros HL reply. subst reply. unfold App.triangulate. cbn [negb].
  unfold pipeline, PointSet.init, store_alloc.
  destruct (PointSet._build_from_bytes data) as [pts|e] eqn:Eb.
  - assert (Hget : store_get (s ++ [pts]) (length s) = Ok pts)
      by apply store_get_alloc.
    destruct (build_from_bytes_ok data pts Eb)
      as (count & _ & _ & _ & Hdec & Henc & _).
    destruct (triangulator_init_spec (s ++ [pts])
                {| PointSet.points := length s |} pts Hget)
      as [[Hn E]|[(Hn & Hd & E)|(Hn & Hnd & E)]]; rewrite E.
    + split; [reflexivity|]. split; intros; lia.
    + split; [intros; lia|]. split; [reflexivity|]. intros; contradiction.
    + split; [intros; lia|]. split; [intros; contradiction|]. intros _ _.
      destruct (triangulate_total
                  {| Triangulator.point_set :=
                       {| PointSet.points := length s |} |}
                  (s ++ [pts]) pts HL (decoded_points_below pts Hdec) Hget)
        as (triangles & p1 & p2 & p3 & Hrun & Hinv).
      { intros ->. cbn [length] in Hn. lia. }
      pose proof (triangulate_triangles
                    {| Triangulator.point_set :=
                         {| PointSet.points := length s |} |}
                    _ _ pts _ Hget Hrun) as Ht.
      cbn [Triangles.triangles] in Ht.
      rewrite Hrun. cbn [Triangulator.point_set].
      exists triangles. split; [exact Ht|]. split; [exact Hinv|].
      assert (Hget2 : store_get ((s ++ [pts])
                                 ++ [[p1; p2; p3]; pts ++ [p1; p2; p3]])
                                (length s) = Ok pts).
      { pose proof (store_get_lt _ _ _ Hget) as Hlt. unfold store_get in *.
        rewrite nth_error_app1 by exact Hlt. exact Hget. }
      destruct (to_bytes_of_valid _ {| PointSet.points := length s |} pts _
                                  triangles Hget2 Henc)
        as [Hok Hbig].
      { destruct Hdec as [Hlt _]. lia. }
      { apply Hinv. }
      split; intros Hc.
      * rewrite (Hok Hc). reflexivity.
      * rewrite (Hbig Hc).
        destruct (Z.of_nat (length triangles) <? 18446744073709551616);
          reflexivity.
  - pose proof (build_from_bytes_raise data e Eb) as Hm.
    split; [exact Hm|].
    destruct Hm as [-> | ->]; eexists; split; reflexivity.
Qed.

End WithLibm.

(* ================================================================== *)
(** * The correctly rounded power

    The library whose power is the product rounded once is accurate; the
    instances and the tests below run with it. *)

Lemma rn_libm_accurate : accurate rn_libm.
Proof.
  intros x. cbn [rn_libm pow2 fst snd]. split; [left; reflexivity|].
  destruct (is_infinity (x * x)) eqn:E; [right|left; reflexivity].
  split; [reflexivity|left; reflexivity].
Qed.

#[local] Existing Instance rn_libm.

Lemma three_points_decoded : decoded_points three_points.
Proof.
  split; [vm_compute; reflexivity|].
  repeat (apply Forall_cons;
          [split; split; vm_compute; intuition discriminate|]).
  apply Forall_nil.
Qed.

Lemma tiny_triangle_decoded : decoded_points tiny_triangle.
Proof.
  split; [vm_compute; reflexivity|].
  repeat (apply Forall_cons;
          [split; split; vm_compute; intuition discriminate|]).
  apply Forall_nil.
Qed.

(** ** Instances of the claims *)

Lemma C1_three_points_one_triangle_witness :
  (exists triangles s',
     Triangulator.triangulate triangulator0 three_points_store
     = (Ok {| Triangles.pointset := Triangulator.point_set triangulator0;
              Triangles.triangles := triangles |}, s') /\
     exists t, triangles = [t] /\ sorted t = [0; 1; 2]) /\
  (exists triangles s',
     Triangulator.triangulate triangulator0 [tiny_triangle]
     = (Ok {| Triangles.pointset := Triangulator.point_set triangulator0;
              Triangles.triangles := triangles |}, s') /\
     triangles = []).
Proof.
  split.
  - destruct (C1_three_points_one_triangle
                triangulator0 three_points_store three_points
                rn_libm_accurate eq_refl three_points_decoded eq_refl)
      as (triangles & s' & Hrun & Hone & _).
    exists triangles, s'. split; [exact Hrun|]. apply Hone. reflexivity.
  - destruct (C1_three_points_one_triangle
                triangulator0 [tiny_triangle] tiny_triangle
                rn_libm_accurate eq_refl tiny_triangle_decoded eq_refl)
      as (triangles & s' & Hrun & _ & Hnone).
    exists triangles, s'. split; [exact Hrun|].
    destruct (Triangulator.super_triangle tiny_triangle)
      as [[[p1 p2] p3]|e] eqn:Est; [|vm_compute in Est; discriminate].
    apply (Hnone p1 p2 p3 eq_refl).
    vm_compute in Est. injection Est as <- <- <-.
    vm_compute. reflexivity.
Defined.

(** C1 as stated fails: the three points (0,0), (2^-21,0), (0,2^-21) are
    pairwise different and not collinear, the triangulator accepts them, and
    the run returns a mesh without any triangle: the determinant of their
    super-triangle is below 1e-9. *)
Lemma C1_tiny_triangle_no_triangle :
  length tiny_triangle = 3%nat /\
  ~ has_equal_points tiny_triangle /\
  non_collinear tiny_triangle = true /\
  Triangulator.init (Triangulator.point_set triangulator0) [tiny_triangle]
  = Ok triangulator0 /\
  fst (Triangulator.triangulate triangulator0 [tiny_triangle])
  = Ok {| Triangles.pointset := Triangulator.point_set triangulator0;
          Triangles.triangles := [] |}.
Proof.
  split; [reflexivity|]. split; [|split; [|split]].
  - destruct (no_duplicates_loop_spec tiny_triangle []) as [[E _]|(_ & H & _)];
      [vm_compute in E; discriminate|exact H].
  - vm_compute. reflexivity.
  - vm_compute. reflexivity.
  - vm_compute. reflexivity.
Qed.

Lemma C2_unit_square_two_triangles_witness :
  exists m s',
    Triangulator.triangulate triangulator0 [unit_square] = (Ok m, s') /\
    length (Triangles.triangles m) = 2%nat /\
    Forall (Forall (fun idx => 0 <= idx < 4)) (Triangles.triangles m) /\
    (forall idx, In idx (concat (Triangles.triangles m)) <->
                 In idx [0; 1; 2; 3]).
Proof.
  apply (C2_unit_square_two_triangles triangulator0 [unit_square]
                                      rn_libm_accurate).
  reflexivity.
Defined.



Lemma C9_triangulate_leaves_points_untouched_witness :
  store_get (snd (Triangulator.triangulate triangulator0 three_points_store))
            0%nat
  = Ok three_points.
Proof.
  destruct (C9_triangulate_leaves_points_untouched
              triangulator0 three_points_store
              (snd (Triangulator.triangulate triangulator0 three_points_store))
              (fst (Triangulator.triangulate triangulator0 three_points_store)))
    as (_ & _ & H).
  - vm_compute. reflexivity.
  - exact H.
Defined.

Lemma C10_triangulate_returns_valid_mesh_witness :
  exists triangles s',
    3 <= Z.of_nat (length three_points) /\
    ~ has_equal_points three_points /\
    mesh_invariants (Z.of_nat (length three_points)) triangles /\
    Triangles.init s' three_points_ps triangles
    = Ok {| Triangles.pointset := three_points_ps;
            Triangles.triangles := triangles |} /\
    Triangulator.triangulate triangulator0 three_points_store
    = (Ok {| Triangles.pointset := three_points_ps;
             Triangles.triangles := triangles |}, s').
Proof.
  apply (C10_triangulate_returns_valid_mesh
           three_points_ps three_points_store triangulator0 three_points
           rn_libm_accurate).
  - reflexivity.
  - exact three_points_decoded.
  - vm_compute. reflexivity.
Defined.

(** The hypothesis of C10 on the coordinates is needed in the embedding,
    whose lists may hold any binary64 float: on [far_points], which no
    decoder produces, the triangulator is built and the run raises. *)
Lemma far_points_overflow :
  Triangulator.init (Triangulator.point_set triangulator0) [far_points]
  = Ok triangulator0 /\
  fst (Triangulator.triangulate triangulator0 [far_points])
  = Raise (OverflowError "(34, 'Numerical result out of range')").
Proof. split; vm_compute; reflexivity. Qed.

(** ** Instances of the further properties *)

Lemma returned_triangle_newest_last_witness :
  exists m s',
    Triangulator.triangulate triangulator0 [unit_square] = (Ok m, s') /\
    Triangles.triangles m <> [] /\
    forall t, In t (Triangles.triangles m) ->
    exists a b c,
      t = [a; b; c] /\ 0 <= a < c /\ 0 <= b < c /\
      2 <= c < Z.of_nat (length unit_square).
Proof.
  destruct (Triangulator.triangulate triangulator0 [unit_square])
    as [[m|e] s'] eqn:E.
  - exists m, s'. split; [reflexivity|]. split.
    + vm_compute in E. injection E as <- _. discriminate.
    + apply (returned_triangle_newest_last triangulator0 [unit_square] s'
                                           unit_square m);
        [reflexivity|exact E].
  - vm_compute in E. discriminate.
Defined.

Lemma non_finite_point_in_no_triangle_witness :
  exists m s',
    Triangulator.triangulate triangulator0 [square_with_nan]
    = (Ok m, s') /\
    Triangles.triangles m <> [] /\
    forall t, In t (Triangles.triangles m) -> ~ In (Z.of_nat 1) t.
Proof.
  destruct (Triangulator.triangulate triangulator0 [square_with_nan])
    as [[m|e] s'] eqn:E.
  - exists m, s'. split; [reflexivity|]. split.
    + vm_compute in E. injection E as <- _. discriminate.
    + apply (non_finite_point_in_no_triangle
               triangulator0 [square_with_nan] s' square_with_nan m
               1%nat (F32 2143289344, F32 0));
        [reflexivity|exact E|reflexivity|vm_compute; reflexivity].
  - vm_compute in E. discriminate.
Defined.

Lemma triangulate_repeatable_witness :
  exists m s1 s2,
    Triangulator.triangulate triangulator0 [unit_square] = (Ok m, s1) /\
    Triangulator.triangulate triangulator0 s1 = (Ok m, s2).
Proof.
  destruct (Triangulator.triangulate triangulator0 [unit_square])
    as [[m|e] s1] eqn:E.
  - destruct (triangulate_repeatable triangulator0 [unit_square] s1 m E)
      as [[s2 H] _].
    exists m, s1, s2. split; [reflexivity|exact H].
  - vm_compute in E. discriminate.
Defined.

Lemma endpoint_processing_outcomes_witness :
  fst (App.triangulate true (App.Body three_points_buf) [])
  = App.OctetStream 200
      (three_points_buf
       ++ bytes_of_Zs [1;0;0;0;  1;0;0;0; 0;0;0;0; 2;0;0;0]) /\
  fst (App.triangulate true (App.Body (bytes_of_Zs [1; 2; 3])) [])
  = processing_error "buffer too short to contain point count" /\
  fst (App.triangulate true (App.Body snan_buf) [])
  = processing_error "need at least three points for triangulation" /\
  fst (App.triangulate true (App.Body duplicate_buf) [])
  = processing_error "duplicate points in point set".
Proof.
  split; [|split; [|split]].
  - pose proof (endpoint_processing_outcomes three_points_buf []
                                             rn_libm_accurate) as H.
    cbv zeta in H.
    change (PointSet._build_from_bytes three_points_buf)
      with (Ok (A := list Point) three_points) in H.
    destruct H as (_ & _ & H).
    destruct H as (triangles & Ht & _ & Hok & _).
    + vm_compute. discriminate.
    + destruct (no_duplicates_loop_spec three_points [])
        as [[E _]|(_ & Hnd & _)]; [vm_compute in E; discriminate|exact Hnd].
    + assert (E : triangles_of three_points = Ok [[1; 0; 2]])
        by (vm_compute; reflexivity).
      rewrite E in Ht. injection Ht as <-.
      rewrite Hok by (vm_compute; reflexivity).
      vm_compute. reflexivity.
  - pose proof (endpoint_processing_outcomes (bytes_of_Zs [1; 2; 3]) []
                                             rn_libm_accurate) as H.
    cbv zeta in H.
    change (PointSet._build_from_bytes (bytes_of_Zs [1; 2; 3]))
      with (Raise (A := list Point)
                  (ValueError "buffer too short to contain point count"))
      in H.
    destruct H as (_ & msg & E & H). injection E as <-. exact H.
  - pose proof (endpoint_processing_outcomes snan_buf [] rn_libm_accurate)
      as H.
    cbv zeta in H.
    change (PointSet._build_from_bytes snan_buf)
      with (Ok (A := list Point) [(F32 2145386496, F32 0)]) in H.
    destruct H as (H & _). apply H. vm_compute. reflexivity.
  - pose proof (endpoint_processing_outcomes duplicate_buf []
                                             rn_libm_accurate) as H.
    cbv zeta in H.
    change (PointSet._build_from_bytes duplicate_buf)
      with (Ok (A := list Point) points_with_duplicate) in H.
    destruct H as (_ & H & _). apply H.
    + vm_compute. discriminate.
    + destruct (no_duplicates_loop_spec points_with_duplicate [])
        as [[_ [Hd|(q & _ & Hk)]]|(E & _)];
        [exact Hd|discriminate Hk|vm_compute in E; discriminate].
Defined.

Lemma empty_mesh_when_super_triangle_rejects_witness :
  fst (Triangulator.triangulate triangulator0 [tiny_triangle])
  = Ok {| Triangles.pointset := Triangulator.point_set triangulator0;
          Triangles.triangles := [] |}.
Proof.
  destruct (Triangulator.super_triangle tiny_triangle)
    as [[[p1 p2] p3]|e] eqn:Est; [|vm_compute in Est; discriminate].
  apply (empty_mesh_when_super_triangle_rejects
           triangulator0 [tiny_triangle] tiny_triangle p1 p2 p3 eq_refl Est).
  vm_compute in Est. injection Est as <- <- <-.
  vm_compute. reflexivity.
Defined.

(* ================================================================== *)
(** * The tests of the repository, run on the embedding *)

Example test_pointset_from_bytes_valid_three_points :
  PointSet._build_from_bytes three_points_buf = Ok three_points /\
  map coords three_points = [(0, 0); (1, 0); (0, 1)]%float.
Proof. split; vm_compute; reflexivity. Qed.

Example test_pointset_from_bytes_buffer_too_short :
  PointSet._build_from_bytes (bytes_of_Zs [1; 2; 3])
  = Raise (ValueError "buffer too short to contain point count").
Proof. reflexivity. Qed.

Example test_triangles_to_bytes_ok :
  Triangles.to_bytes {| Triangles.pointset := three_points_ps;
                        Triangles.triangles := [[0; 1; 2]] |}
                     three_points_store
  = Ok (three_points_buf
        ++ bytes_of_Zs [1;0;0;0;  0;0;0;0; 1;0;0;0; 2;0;0;0]).
Proof. vm_compute. reflexivity. Qed.

Example test_triangles_indices_out_of_range :
  Triangles.init three_points_store three_points_ps [[0; 1; 3]]
  = Raise TriangleIndexOutOfRange.
Proof. reflexivity. Qed.

Example test_triangles_same_indices :
  Triangles.init three_points_store three_points_ps [[0; 0; 1]]
  = Raise TriangleNonDistinctVertices.
Proof. reflexivity. Qed.

Example test_triangles_same_triangles :
  Triangles.init three_points_store three_points_ps [[0; 1; 2]; [0; 2; 1]]
  = Raise DuplicateTriangle.
Proof. reflexivity. Qed.

Example test_triangles_invalid_indices_number :
  Triangles.init three_points_store three_points_ps [[0; 1]]
  = Raise InvalidTriangleIndexCount /\
  Triangles.init three_points_store three_points_ps [[0; 1; 2; 3]]
  = Raise InvalidTriangleIndexCount.
Proof. split; reflexivity. Qed.

Example test_triangulate_three_points :
  triangles_of three_points = Ok [[1; 0; 2]].
Proof. vm_compute. reflexivity. Qed.

Example test_triangulate_square :
  triangles_of unit_square = Ok [[1; 0; 2]; [2; 0; 3]].
Proof. vm_compute. reflexivity. Qed.

Example test_triangulate_less_than_three_points :
  Triangulator.init three_points_ps [[]] = Raise InsufficientPoints /\
  Triangulator.init three_points_ps [points_of_words [(0, 0)]]
  = Raise InsufficientPoints /\
  Triangulator.init three_points_ps [points_of_words [(0, 0); (1065353216, 0)]]
  = Raise InsufficientPoints.
Proof. repeat split; reflexivity. Qed.

Example test_triangulate_with_duplicate_points :
  Triangulator.init three_points_ps [points_with_duplicate]
  = Raise DuplicatePoints.
Proof. vm_compute. reflexivity. Qed.

(** The pipeline on the three points of the API test gives the bytes that
    test expects: the point set followed by the one triangle (1, 0, 2). *)
Example test_api_triangulate_happy_path :
  fst (pipeline three_points_buf [])
  = Ok (three_points_buf
        ++ bytes_of_Zs [1;0;0;0;  1;0;0;0; 0;0;0;0; 2;0;0;0]).
Proof. vm_compute. reflexivity. Qed.
